(** * Cook-Torrance PBR lighting: the shading core and its shadow derivation

    A shallow embedding of the two fragment shaders of the demo (the
    planar-shadow renderer's [fragmentShader] and the shadow-mapped
    renderer's [fragmentShaderSource]) and of [Renderer.buildShadowMatrix].
    Around them, the JavaScript that feeds the shaders is embedded as well:
    the matrix helpers of math.js and matrix.js, the orbit camera, the shadow
    pass of [Renderer.render] with its vertex and shadow shaders, the ray
    casting of intersection.js, and the light and model matrices of the
    shadow-mapped application.

    Numbers.  GLSL [float] and the entries of a JS [Float32Array] are
    idealised as real numbers: no rounding, no overflow.  What the idealisation
    keeps is definedness: an operation whose GLSL result is undefined (a
    division by zero, [normalize] of the zero vector, [pow] with a negative
    base, [smoothstep] with [edge0 >= edge1]) returns [None], and a shader
    function that uses such a result returns [None] as well.  "The result is
    finite" is rendered as "the function returns [Some v]".  A division whose
    divisor is a non-zero literal is written with the total [/].  The one
    function whose result depends on what a [Float32Array] keeps of a double,
    [invertMatrix] of matrix.js, takes the store of the array as a
    parameter. *)

From Stdlib Require Import Reals Lra Psatz List ZArith Bool RNsatz.
Import ListNotations.
Local Open Scope R_scope.

(** ** The GLSL built-ins the shaders use *)

Module GLSL.

Record vec2 : Type := Vec2 { v2x : R; v2y : R }.
Record vec3 : Type := Vec3 { vx : R; vy : R; vz : R }.
Record vec4 : Type := Vec4 { v4x : R; v4y : R; v4z : R; v4w : R }.

(** Undefined results are threaded through an option monad. *)
Definition bind {A B : Type} (m : option A) (k : A -> option B) : option B :=
  match m with
  | Some a => k a
  | None => None
  end.

(** [a / b] on floats. *)
Definition fdiv (a b : R) : option R :=
  if Req_dec_T b 0 then None else Some (a / b).

(** [vec3(s)] *)
Definition splat (s : R) : vec3 := Vec3 s s s.

Definition vadd (a b : vec3) : vec3 := Vec3 (vx a + vx b) (vy a + vy b) (vz a + vz b).
Definition vsub (a b : vec3) : vec3 := Vec3 (vx a - vx b) (vy a - vy b) (vz a - vz b).
Definition vneg (a : vec3) : vec3 := Vec3 (- vx a) (- vy a) (- vz a).
(** component-wise [a * b] *)
Definition vmul (a b : vec3) : vec3 := Vec3 (vx a * vx b) (vy a * vy b) (vz a * vz b).
(** [s * v] and [v * s] *)
Definition vscale (s : R) (a : vec3) : vec3 := Vec3 (s * vx a) (s * vy a) (s * vz a).
(** [v / c] for a non-zero literal [c] *)
Definition vdivc (a : vec3) (c : R) : vec3 := Vec3 (vx a / c) (vy a / c) (vz a / c).
(** [v / s] *)
Definition vdivs (a : vec3) (s : R) : option vec3 :=
  if Req_dec_T s 0 then None else Some (vdivc a s).

Definition dot (a b : vec3) : R := vx a * vx b + vy a * vy b + vz a * vz b.
Definition cross (a b : vec3) : vec3 :=
  Vec3 (vy a * vz b - vz a * vy b)
       (vz a * vx b - vx a * vz b)
       (vx a * vy b - vy a * vx b).
Definition length (a : vec3) : R := sqrt (dot a a).
Definition normalize (a : vec3) : option vec3 := vdivs a (length a).

(** The comparisons [x < y] and [x > y] on floats. *)
Definition ltb (x y : R) : bool := if Rlt_dec x y then true else false.
Definition gtb (x y : R) : bool := ltb y x.

Definition clamp (x lo hi : R) : R := Rmin (Rmax x lo) hi.
(** [mix(x, y, a) = x * (1 - a) + y * a] *)
Definition mix (x y a : R) : R := x * (1 - a) + y * a.
Definition vmix (x y : vec3) (a : R) : vec3 :=
  Vec3 (mix (vx x) (vx y) a) (mix (vy x) (vy y) a) (mix (vz x) (vz y) a).

(** [pow(x, n.0)] for a whole exponent: undefined for a negative base. *)
Definition pow (x : R) (n : nat) : option R :=
  if Rlt_dec x 0 then None else Some (x ^ n).

(** [smoothstep(edge0, edge1, x)]: Hermite interpolation of
    [t = clamp((x - edge0) / (edge1 - edge0), 0, 1)], undefined when
    [edge0 >= edge1]. *)
Definition smoothstep (edge0 edge1 x : R) : option R :=
  if Rlt_dec edge0 edge1
  then let t := clamp ((x - edge0) / (edge1 - edge0)) 0 1 in
       Some (t * t * (3 - 2 * t))
  else None.

(** A counted [for] loop over the index values [l], threading the variables
    the body assigns. *)
Fixpoint for_each {I S : Type} (l : list I) (body : I -> S -> option S) (s : S)
  : option S :=
  match l with
  | [] => Some s
  | i :: l' => bind (body i s) (for_each l' body)
  end.

(** [m * v] for a [mat4] given, as WebGL uploads it, by its 16 entries in
    column-major order: entry (row i, column j) is [m[4*j + i]]. *)
Definition entry (m : list R) (i j : nat) : R := nth (4 * j + i) m 0.
Definition mat4_mul_vec4 (m : list R) (v : vec4) : vec4 :=
  let row i := entry m i 0 * v4x v + entry m i 1 * v4y v
               + entry m i 2 * v4z v + entry m i 3 * v4w v in
  Vec4 (row 0%nat) (row 1%nat) (row 2%nat) (row 3%nat).

End GLSL.

Import GLSL.

Declare Scope glsl_scope.
Notation "x <- e ;; k" := (bind e (fun x => k))
  (at level 61, e at next level, right associativity) : glsl_scope.
Notation "' p <- e ;; k" := (bind e (fun p => k))
  (at level 61, p pattern, e at next level, right associativity) : glsl_scope.
Local Open Scope glsl_scope.

(** ** renderer.js: the planar shadow matrix *)

Module Renderer.

(** [buildShadowMatrix(lightHomogeneous, planeEq)]: the returned
    [Float32Array(16)], entries [m[0]] to [m[15]].  The debug branch only
    writes a console warning and does not touch the result. *)
Definition buildShadowMatrix (lightHomogeneous planeEq : vec4) : list R :=
  let '(Vec4 lx ly lz lw) := lightHomogeneous in
  let '(Vec4 a b c d) := planeEq in
  let dot := a * lx + b * ly + c * lz + d * lw in
  [ dot - lx * a; - ly * a; - lz * a; - lw * a;
    - lx * b; dot - ly * b; - lz * b; - lw * b;
    - lx * c; - ly * c; dot - lz * c; - lw * c;
    - lx * d; - ly * d; - lz * d; dot - lw * d ].

(** The condition under which the debug branch warns. *)
Definition shadowWarning (debugShadow : bool) (lightHomogeneous planeEq : vec4) : bool :=
  let '(Vec4 lx ly lz lw) := lightHomogeneous in
  let '(Vec4 a b c d) := planeEq in
  let dot := a * lx + b * ly + c * lz + d * lw in
  andb debugShadow (ltb (Rabs dot) 0.001).

(** The default plane of [buildShadowMatrix], for the floor height
    [FLOOR_Y] of geometry.js. *)
Definition defaultPlane (FLOOR_Y : R) : vec4 := Vec4 0 1 0 (- (FLOOR_Y + 0.01)).

End Renderer.

(** ** The planar-shadow renderer's fragment shader ([fragmentShader]) *)

Module FragmentShader.

Record Uniforms : Type := {
  uCameraPos : vec3;
  uAlbedo : vec3;
  uMetallic : R;
  uRoughness : R;
  uLightType : Z;
  uLightPos : vec3;
  uLightDir : vec3;
  uLightColor : vec3;
  uLightIntensity : R;
  uSpotAngle : R;
  uSpotSoftness : R;
  uAreaSize : vec2;
  uShadowBlend : R
}.

Section Shader.

Variable u : Uniforms.
(** The fragment's inputs from the vertex shader. *)
Variable vWorldPos : vec3.
Variable vNormal : vec3.

Definition D_GGX (NdotH alpha : R) : option R :=
  let a2 := alpha * alpha in
  let denom := (NdotH * NdotH) * (a2 - 1) + 1 in
  let denom := 3.14159265 * denom * denom in
  fdiv a2 (Rmax 0.0001 denom).

Definition G_SchlickGGX (NdotV k : R) : option R :=
  fdiv NdotV (NdotV * (1 - k) + k).

Definition G_Smith (NdotV NdotL roughness : R) : option R :=
  let r := roughness + 1 in
  let k := (r * r) / 8 in
  gv <- G_SchlickGGX NdotV k ;;
  gl <- G_SchlickGGX NdotL k ;;
  Some (gv * gl).

Definition fresnelSchlick (cosTheta : R) (F0 : vec3) : option vec3 :=
  p <- pow (1 - cosTheta) 5 ;;
  Some (vadd F0 (vscale p (vsub (splat 1) F0))).

(** The locals [alpha], [G], [kS] and [kD] of [evaluateBRDF]. *)
Definition alpha : R := Rmax 0.001 (uRoughness u * uRoughness u).

Definition evaluateBRDF_G (N V L : vec3) : option R :=
  let NdotL := clamp (dot N L) 0 1 in
  let NdotV := clamp (dot N V) 0 1 in
  G_Smith NdotV NdotL alpha.

Definition kS (F : vec3) : vec3 := F.
Definition kD (kS : vec3) : vec3 := vscale (1 - uMetallic u) (vsub (splat 1) kS).

Definition evaluateBRDF (N V L radiance : vec3) : option vec3 :=
  H <- normalize (vadd V L) ;;
  let NdotL := clamp (dot N L) 0 1 in
  let NdotV := clamp (dot N V) 0 1 in
  let NdotH := clamp (dot N H) 0 1 in
  let VdotH := clamp (dot V H) 0 1 in
  D <- D_GGX NdotH alpha ;;
  G <- evaluateBRDF_G N V L ;;
  let F0 := vmix (splat 0.04) (uAlbedo u) (uMetallic u) in
  F <- fresnelSchlick VdotH F0 ;;
  let numerator := vscale (D * G) F in
  let denom := Rmax 0.001 (4 * NdotV * NdotL) in
  specular <- vdivs numerator denom ;;
  let diffuse := vdivc (vmul (kD (kS F)) (uAlbedo u)) 3.14159265 in
  Some (vscale NdotL (vmul (vadd diffuse specular) radiance)).

Definition spotAttenuation (L dir : vec3) : option R :=
  n <- normalize (vneg dir) ;;
  let cosTheta := dot n L in
  let edge := uSpotAngle u in
  let softness := uSpotSoftness u in
  smoothstep edge (edge + softness) cosTheta.

(** The [out] parameters [t] and [b] are returned as a pair. *)
Definition basisFromDir (n : vec3) : option (vec3 * vec3) :=
  let up := if ltb (Rabs (vy n)) 0.999 then Vec3 0 1 0 else Vec3 1 0 0 in
  t <- normalize (cross up n) ;;
  Some (t, cross n t).

Definition gridSize : nat := 8.

(** [uLightColor * uLightIntensity * attenuation] *)
Definition radianceOf (attenuation : R) : vec3 :=
  vscale attenuation (vscale (uLightIntensity u) (uLightColor u)).

(** The body of the two nested loops of the area light: one sample of the
    grid, added to [result]. *)
Definition areaSample (N V t b : vec3) (halfSize : vec2) (ix iy : nat)
  (result : vec3) : option vec3 :=
  let u_ := (INR ix / INR (gridSize - 1)) * 2 - 1 in
  let v_ := (INR iy / INR (gridSize - 1)) * 2 - 1 in
  let samplePos := vadd (vadd (uLightPos u) (vscale (u_ * v2x halfSize) t))
                        (vscale (v_ * v2y halfSize) b) in
  let lightVec := vsub samplePos vWorldPos in
  let dist := Rmax 0.001 (length lightVec) in
  L <- vdivs lightVec dist ;;
  lightNormal <- normalize (vneg (uLightDir u)) ;;
  let cosTheta := dot lightNormal (vneg L) in
  if gtb cosTheta 0
  then attenuation <- fdiv cosTheta (dist * dist) ;;
       c <- evaluateBRDF N V L (radianceOf attenuation) ;;
       Some (vadd result c)
  else Some result.

Definition computeLighting (N V : vec3) : option vec3 :=
  let result := splat 0 in
  result <-
    (if (uLightType u =? 0)%Z then
       let lightVec := vsub (uLightPos u) vWorldPos in
       let dist := Rmax 0.001 (length lightVec) in
       L <- vdivs lightVec dist ;;
       attenuation <- fdiv 1 (dist * dist) ;;
       c <- evaluateBRDF N V L (radianceOf attenuation) ;;
       Some (vadd result c)
     else if (uLightType u =? 1)%Z then
       L <- normalize (vneg (uLightDir u)) ;;
       c <- evaluateBRDF N V L (vscale (uLightIntensity u) (uLightColor u)) ;;
       Some (vadd result c)
     else if (uLightType u =? 2)%Z then
       let lightVec := vsub (uLightPos u) vWorldPos in
       let dist := Rmax 0.001 (length lightVec) in
       L <- vdivs lightVec dist ;;
       spot <- spotAttenuation L (uLightDir u) ;;
       inv <- fdiv 1 (dist * dist) ;;
       let attenuation := spot * inv in
       c <- evaluateBRDF N V L (radianceOf attenuation) ;;
       Some (vadd result c)
     else
       n <- normalize (vneg (uLightDir u)) ;;
       ' (t, b) <- basisFromDir n ;;
       let halfSize := Vec2 (v2x (uAreaSize u) * 0.5) (v2y (uAreaSize u) * 0.5) in
       result <- for_each (seq 0 gridSize)
                   (fun ix => for_each (seq 0 gridSize)
                                (fun iy => areaSample N V t b halfSize ix iy))
                   result ;;
       Some (vdivc result (INR (gridSize * gridSize)))) ;;
  let ambient := vscale 0.03 (uAlbedo u) in
  Some (vadd ambient result).

(** [main]: the RGB part of [fragColor]. *)
Definition main : option vec3 :=
  N <- normalize vNormal ;;
  V <- normalize (vsub (uCameraPos u) vWorldPos) ;;
  color <- computeLighting N V ;;
  let b := uShadowBlend u in
  Some (vmix color (vscale (1 - b) color) b).

End Shader.

End FragmentShader.

(** ** The shadow-mapped renderer's fragment shader ([fragmentShaderSource]) *)

Module FragmentShaderSource.

(** A depth texture: its size in texels, as [textureSize] returns it (a
    texture that can be sampled has positive dimensions), and the red
    channel [texture(s, (x, y)).r] at a coordinate. *)
Record sampler2D : Type := {
  textureWidth : positive;
  textureHeight : positive;
  texture : R -> R -> R
}.

Record Uniforms : Type := {
  uAlbedo : vec3;
  uRoughness : R;
  uMetallic : R;
  uLightType : Z;
  uLightPosition : vec3;
  uLightDirection : vec3;
  uLightColor : vec3;
  uLightIntensity : R;
  uSpotAngle : R;
  uSpotSoftness : R;
  uAreaSize : vec2;
  uCameraPosition : vec3;
  uShadowMap : sampler2D;
  uShadowEnabled : Z;
  uShadowBias : R
}.

Definition PI : R := 3.14159265359.

Section Shader.

Variable u : Uniforms.
(** The fragment's inputs from the vertex shader. *)
Variable vWorldPosition : vec3.
Variable vNormal : vec3.
Variable vLightSpacePos : vec4.

Definition fresnelSchlick (cosTheta : R) (F0 : vec3) : option vec3 :=
  p <- pow (clamp (1 - cosTheta) 0 1) 5 ;;
  Some (vadd F0 (vscale p (vsub (splat 1) F0))).

(** The local [a] of [distributionGGX]. *)
Definition alpha (roughness : R) : R := roughness * roughness.

Definition distributionGGX (N H : vec3) (roughness : R) : option R :=
  let a := alpha roughness in
  let a2 := a * a in
  let NdotH := Rmax (dot N H) 0 in
  let NdotH2 := NdotH * NdotH in
  let denom := NdotH2 * (a2 - 1) + 1 in
  let denom := PI * denom * denom in
  fdiv a2 (Rmax denom 0.0001).

Definition geometrySchlickGGX (NdotV roughness : R) : option R :=
  let r := roughness + 1 in
  let k := (r * r) / 8 in
  fdiv NdotV (NdotV * (1 - k) + k).

Definition geometrySmith (N V L : vec3) (roughness : R) : option R :=
  let NdotV := Rmax (dot N V) 0 in
  let NdotL := Rmax (dot N L) 0 in
  gv <- geometrySchlickGGX NdotV roughness ;;
  gl <- geometrySchlickGGX NdotL roughness ;;
  Some (gv * gl).

(** The [out] parameters [L] and [attenuation] are returned as a pair. *)
Definition calculateLight : option (vec3 * R) :=
  if (uLightType u =? 0)%Z then
    let lightVec := vsub (uLightPosition u) vWorldPosition in
    let dist := length lightVec in
    L <- normalize lightVec ;;
    attenuation <- fdiv 1 (dist * dist) ;;
    Some (L, attenuation)
  else if (uLightType u =? 1)%Z then
    L <- normalize (vneg (uLightDirection u)) ;;
    Some (L, 1)
  else if (uLightType u =? 2)%Z then
    let lightVec := vsub (uLightPosition u) vWorldPosition in
    let dist := length lightVec in
    L <- normalize lightVec ;;
    d <- normalize (vneg (uLightDirection u)) ;;
    let theta := dot L d in
    let innerCone := cos (uSpotAngle u * 0.5) in
    let outerCone := cos (uSpotAngle u * 0.5 + uSpotSoftness u) in
    spotEffect <- smoothstep outerCone innerCone theta ;;
    attenuation <- fdiv spotEffect (dist * dist) ;;
    Some (L, attenuation)
  else
    let lightVec := vsub (uLightPosition u) vWorldPosition in
    let dist := length lightVec in
    L <- normalize lightVec ;;
    let area := v2x (uAreaSize u) * v2y (uAreaSize u) in
    attenuation <- fdiv area (dist * dist + area) ;;
    Some (L, attenuation).

(** The local [projCoords] of [calculateShadow], after the remap to [0,1]. *)
Definition projCoords (lightSpacePos : vec4) : option vec3 :=
  p <- vdivs (Vec3 (v4x lightSpacePos) (v4y lightSpacePos) (v4z lightSpacePos))
             (v4w lightSpacePos) ;;
  Some (vadd (vscale 0.5 p) (splat 0.5)).

(** The local [bias] of [calculateShadow]. *)
Definition bias (N L : vec3) : R :=
  Rmax (uShadowBias u * (1 - dot N L)) (uShadowBias u * 0.1).

(** One tap of the PCF kernel: what the loop body adds to [shadow]. *)
Definition pcfTap (p : vec3) (N L : vec3) (x y : Z) : R :=
  let currentDepth := vz p in
  let texelSizeX := 1 / IZR (Zpos (textureWidth (uShadowMap u))) in
  let texelSizeY := 1 / IZR (Zpos (textureHeight (uShadowMap u))) in
  let pcfDepth := texture (uShadowMap u) (vx p + IZR x * texelSizeX)
                                         (vy p + IZR y * texelSizeY) in
  if gtb (currentDepth - bias N L) pcfDepth then 0 else 1.

Definition kernel : list Z := [-2; -1; 0; 1; 2]%Z.

Definition calculateShadow (lightSpacePos : vec4) (N L : vec3) : option R :=
  if (uShadowEnabled u =? 0)%Z then Some 1
  else
    p <- projCoords lightSpacePos ;;
    if (gtb (vz p) 1 || ltb (vx p) 0 || gtb (vx p) 1
        || ltb (vy p) 0 || gtb (vy p) 1)%bool
    then Some 1
    else
      shadow <- for_each kernel
                  (fun x => for_each kernel
                              (fun y shadow => Some (shadow + pcfTap p N L x y)))
                  0 ;;
      Some (shadow / 25).

(** The locals [kS] and [kD] of [main]. *)
Definition kS (F : vec3) : vec3 := F.
Definition kD (kS : vec3) : vec3 := vscale (1 - uMetallic u) (vsub (splat 1) kS).

(** [main] from the half vector to [Lo], as a function of the vectors, the
    radiance and the shadow factor it has computed by then. *)
Definition Lo (N V L radiance : vec3) (shadow : R) : option vec3 :=
  H <- normalize (vadd V L) ;;
  let F0 := vmix (splat 0.04) (uAlbedo u) (uMetallic u) in
  D <- distributionGGX N H (uRoughness u) ;;
  G <- geometrySmith N V L (uRoughness u) ;;
  F <- fresnelSchlick (Rmax (dot H V) 0) F0 ;;
  let NdotV := Rmax (dot N V) 0 in
  let NdotL := Rmax (dot N L) 0 in
  specular <- vdivs (vscale (D * G) F) (4 * NdotV * NdotL + 0.0001) ;;
  let diffuse := vdivc (vmul (kD (kS F)) (uAlbedo u)) PI in
  Some (vscale shadow (vscale NdotL (vmul (vadd diffuse specular) radiance))).

(** [main] up to [Lo]. *)
Definition main_Lo : option vec3 :=
  N <- normalize vNormal ;;
  V <- normalize (vsub (uCameraPosition u) vWorldPosition) ;;
  ' (L, attenuation) <- calculateLight ;;
  let radiance := vscale attenuation (vscale (uLightIntensity u) (uLightColor u)) in
  shadow <- calculateShadow vLightSpacePos N L ;;
  Lo N V L radiance shadow.

End Shader.

End FragmentShaderSource.

(** ** The formulas of the specification

    Second definitions, written from the specification's wording, against
    which the shaders are compared. *)

Module Spec.

(** Schlick-GGX: [G1(x) = x / (x (1 - k) + k)]. *)
Definition G1 (x k : R) : R := x / (x * (1 - k) + k).

(** The direct-lighting remap [k = (roughness + 1)^2 / 8]. *)
Definition kDirect (roughness : R) : R := (roughness + 1) ^ 2 / 8.

(** Smith: [G = G1(N.V) G1(N.L)]. *)
Definition smith (NdotV NdotL roughness : R) : R :=
  G1 NdotV (kDirect roughness) * G1 NdotL (kDirect roughness).

(** Kronecker's delta. *)
Definition delta (i j : nat) : R := if Nat.eqb i j then 1 else 0.

(** Component [i] of a homogeneous vector. *)
Definition comp (v : vec4) (i : nat) : R :=
  match i with
  | 0%nat => v4x v
  | 1%nat => v4y v
  | 2%nat => v4z v
  | _ => v4w v
  end.

Definition dot4 (a b : vec4) : R :=
  v4x a * v4x b + v4y a * v4y b + v4z a * v4z b + v4w a * v4w b.

(** [s * X] for a homogeneous vector. *)
Definition scale4 (s : R) (v : vec4) : vec4 :=
  Vec4 (s * v4x v) (s * v4y v) (s * v4z v) (s * v4w v).

(** Projected coordinates outside the shadow map: outside [0,1] in x or in
    y, or [z > 1]. *)
Definition outOfBounds (p : vec3) : Prop :=
  vx p < 0 \/ 1 < vx p \/ vy p < 0 \/ 1 < vy p \/ 1 < vz p.

Definition inBounds (p : vec3) : Prop :=
  0 <= vx p <= 1 /\ 0 <= vy p <= 1 /\ vz p <= 1.

(** Every RGB component is non-negative. *)
Definition nonneg3 (v : vec3) : Prop := 0 <= vx v /\ 0 <= vy v /\ 0 <= vz v.

(** Every RGB component lies in [0,1]. *)
Definition unit3 (v : vec3) : Prop :=
  0 <= vx v <= 1 /\ 0 <= vy v <= 1 /\ 0 <= vz v <= 1.

(** In-range material parameters. *)
Definition validMaterial (albedo : vec3) (roughness metallic : R) : Prop :=
  unit3 albedo /\ 0 <= roughness <= 1 /\ 0 <= metallic <= 1.

(** The Hermite cubic of [smoothstep]. *)
Definition hermite (t : R) : R := t * t * (3 - 2 * t).

(** The 8 x 8 grid of the area light, in the normalised coordinates
    [(-1 + 2 i / 7, -1 + 2 j / 7)] of the rectangle. *)
Definition grid : list (R * R) :=
  flat_map (fun ix => map (fun iy => (INR ix / 7 * 2 - 1, INR iy / 7 * 2 - 1))
                          (seq 0 8))
           (seq 0 8).

(** The accumulated sum of a list of contributions. *)
Definition vsum (l : list vec3) : vec3 := fold_left vadd l (splat 0).

Fixpoint mapM {A B : Type} (f : A -> option B) (l : list A) : option (list B) :=
  match l with
  | [] => Some []
  | a :: l' => b <- f a ;; bs <- mapM f l' ;; Some (b :: bs)
  end.

(** One sample of the rectangle with centre [lightPos] and emitter normal
    [n], seen from the surface point [P]: the sample acts as a point light
    (contribution [pointLight L w] for the direction [L] to the sample and
    the weight [w] on the light's colour and intensity) with weight
    [cosTheta / dist^2], and contributes nothing when [cosTheta <= 0].  The
    distance has the floor of the point light, [0.001]. *)
Definition sampleContribution (lightPos n t b : vec3) (halfSize : vec2) (P : vec3)
  (pointLight : vec3 -> R -> option vec3) (s : R * R) : option vec3 :=
  let samplePos := vadd (vadd lightPos (vscale (fst s * v2x halfSize) t))
                        (vscale (snd s * v2y halfSize) b) in
  let lightVec := vsub samplePos P in
  let dist := Rmax 0.001 (length lightVec) in
  L <- vdivs lightVec dist ;;
  let cosTheta := dot n (vneg L) in
  if gtb cosTheta 0
  then w <- fdiv cosTheta (dist * dist) ;; pointLight L w
  else Some (splat 0).

(** The unweighted average over the grid: the accumulated sum divided by the
    sample count 64.  The emitter's normal is the emission direction
    [lightDir], normalised, and the tangent basis is built from it. *)
Definition areaAverage (lightPos lightDir : vec3) (areaSize : vec2) (P : vec3)
  (pointLight : vec3 -> R -> option vec3) : option vec3 :=
  n <- normalize lightDir ;;
  ' (t, b) <- FragmentShader.basisFromDir n ;;
  let halfSize := Vec2 (v2x areaSize * 0.5) (v2y areaSize * 0.5) in
  cs <- mapM (sampleContribution lightPos n t b halfSize P pointLight) grid ;;
  Some (vdivc (vsum cs) 64).

(** The PCF average: 1/25 of the number of taps of the 5 x 5 neighbourhood
    at which [currentDepth - bias] does not exceed the sampled depth. *)
Definition offsets : list (Z * Z) :=
  flat_map (fun x => map (fun y => (x, y)) [-2; -1; 0; 1; 2]%Z) [-2; -1; 0; 1; 2]%Z.

Definition lit (sm : FragmentShaderSource.sampler2D) (p : vec3) (bias : R)
  (o : Z * Z) : R :=
  let sampled :=
    FragmentShaderSource.texture sm
      (vx p + IZR (fst o) / IZR (Zpos (FragmentShaderSource.textureWidth sm)))
      (vy p + IZR (snd o) / IZR (Zpos (FragmentShaderSource.textureHeight sm))) in
  if Rle_dec (vz p - bias) sampled then 1 else 0.

Definition pcf (sm : FragmentShaderSource.sampler2D) (p : vec3) (bias : R) : R :=
  / 25 * fold_right Rplus 0 (map (lit sm p bias) offsets).

End Spec.

(** ** Concrete inputs used by the examples below *)

Module Examples.

Definition axisY : vec3 := Vec3 0 1 0.

(** A white material under a white light of unit intensity at (0, 1, 0). *)
Definition whiteUniforms (metallic roughness : R) (lightType : Z)
  : FragmentShader.Uniforms :=
  {| FragmentShader.uCameraPos := Vec3 0 1 0;
     FragmentShader.uAlbedo := Vec3 1 1 1;
     FragmentShader.uMetallic := metallic;
     FragmentShader.uRoughness := roughness;
     FragmentShader.uLightType := lightType;
     FragmentShader.uLightPos := Vec3 0 1 0;
     FragmentShader.uLightDir := Vec3 0 (-1) 0;
     FragmentShader.uLightColor := Vec3 1 1 1;
     FragmentShader.uLightIntensity := 1;
     FragmentShader.uSpotAngle := 0.7;
     FragmentShader.uSpotSoftness := 0.2;
     FragmentShader.uAreaSize := Vec2 1 1;
     FragmentShader.uShadowBlend := 0 |}.

(** A depth map that holds the depth [d] everywhere. *)
Definition flatMap (d : R) : FragmentShaderSource.sampler2D :=
  {| FragmentShaderSource.textureWidth := 2048;
     FragmentShaderSource.textureHeight := 2048;
     FragmentShaderSource.texture := fun _ _ => d |}.

Definition sourceUniforms (metallic roughness : R) (lightType : Z) (lightDir : vec3)
  (shadowEnabled : Z) (depth : R) : FragmentShaderSource.Uniforms :=
  {| FragmentShaderSource.uAlbedo := Vec3 1 1 1;
     FragmentShaderSource.uRoughness := roughness;
     FragmentShaderSource.uMetallic := metallic;
     FragmentShaderSource.uLightType := lightType;
     FragmentShaderSource.uLightPosition := Vec3 0 1 0;
     FragmentShaderSource.uLightDirection := lightDir;
     FragmentShaderSource.uLightColor := Vec3 1 1 1;
     FragmentShaderSource.uLightIntensity := 1;
     FragmentShaderSource.uSpotAngle := 0.5;
     FragmentShaderSource.uSpotSoftness := 0.1;
     FragmentShaderSource.uAreaSize := Vec2 1 1;
     FragmentShaderSource.uCameraPosition := Vec3 0 1 0;
     FragmentShaderSource.uShadowMap := flatMap depth;
     FragmentShaderSource.uShadowEnabled := shadowEnabled;
     FragmentShaderSource.uShadowBias := 0.005 |}.

Definition mainUniforms (metallic roughness : R) : FragmentShader.Uniforms :=
  whiteUniforms metallic roughness 0.

End Examples.

(** ** math.js: the vector and matrix helpers of the planar-shadow renderer

    A JS array of three numbers is a [vec3], one of four a [vec4]; a matrix
    is the list of its 16 (or 9) entries, and [m[i]] is [idx m i].  As in
    the shaders, a division whose float result would be an infinity or a NaN
    returns [None]. *)

Module MathJs.

(** [m[i]], for an index within the array. *)
Definition idx (m : list R) (i : nat) : R := nth i m 0.

Definition RAD : R := PI / 180.

Definition degToRad (degrees : R) : R := degrees * RAD.

Definition clamp (value min max : R) : R := Rmin (Rmax value min) max.

Module vec3.

Definition add (a b : GLSL.vec3) : GLSL.vec3 :=
  Vec3 (vx a + vx b) (vy a + vy b) (vz a + vz b).

Definition sub (a b : GLSL.vec3) : GLSL.vec3 :=
  Vec3 (vx a - vx b) (vy a - vy b) (vz a - vz b).

Definition scale (a : GLSL.vec3) (s : R) : GLSL.vec3 :=
  Vec3 (vx a * s) (vy a * s) (vz a * s).

Definition dot (a b : GLSL.vec3) : R := vx a * vx b + vy a * vy b + vz a * vz b.

Definition cross (a b : GLSL.vec3) : GLSL.vec3 :=
  Vec3 (vy a * vz b - vz a * vy b)
       (vz a * vx b - vx a * vz b)
       (vx a * vy b - vy a * vx b).

(** [Math.hypot(a[0], a[1], a[2])] *)
Definition length (a : GLSL.vec3) : R :=
  sqrt (vx a * vx a + vy a * vy a + vz a * vz a).

(** [vec3.length(a) || 1]: a zero length is replaced by 1. *)
Definition normalize (a : GLSL.vec3) : GLSL.vec3 :=
  let length := if Req_dec_T (length a) 0 then 1 else length a in
  Vec3 (vx a / length) (vy a / length) (vz a / length).

End vec3.

Module mat4.

Definition identity : list R :=
  [ 1; 0; 0; 0;
    0; 1; 0; 0;
    0; 0; 1; 0;
    0; 0; 0; 1 ].

Definition multiply (a b : list R) : list R :=
  let a00 := idx a 0 in let a01 := idx a 1 in let a02 := idx a 2 in let a03 := idx a 3 in
  let a10 := idx a 4 in let a11 := idx a 5 in let a12 := idx a 6 in let a13 := idx a 7 in
  let a20 := idx a 8 in let a21 := idx a 9 in let a22 := idx a 10 in let a23 := idx a 11 in
  let a30 := idx a 12 in let a31 := idx a 13 in let a32 := idx a 14 in let a33 := idx a 15 in
  let column b0 b1 b2 b3 :=
    [ b0 * a00 + b1 * a10 + b2 * a20 + b3 * a30;
      b0 * a01 + b1 * a11 + b2 * a21 + b3 * a31;
      b0 * a02 + b1 * a12 + b2 * a22 + b3 * a32;
      b0 * a03 + b1 * a13 + b2 * a23 + b3 * a33 ] in
  column (idx b 0) (idx b 1) (idx b 2) (idx b 3)
  ++ column (idx b 4) (idx b 5) (idx b 6) (idx b 7)
  ++ column (idx b 8) (idx b 9) (idx b 10) (idx b 11)
  ++ column (idx b 12) (idx b 13) (idx b 14) (idx b 15).

Definition multiplyVec4 (m : list R) (v : vec4) : vec4 :=
  Vec4 (idx m 0 * v4x v + idx m 4 * v4y v + idx m 8 * v4z v + idx m 12 * v4w v)
       (idx m 1 * v4x v + idx m 5 * v4y v + idx m 9 * v4z v + idx m 13 * v4w v)
       (idx m 2 * v4x v + idx m 6 * v4y v + idx m 10 * v4z v + idx m 14 * v4w v)
       (idx m 3 * v4x v + idx m 7 * v4y v + idx m 11 * v4z v + idx m 15 * v4w v).

Definition perspective (fovy aspect near far : R) : option (list R) :=
  f <- fdiv 1 (tan (fovy / 2)) ;;
  nf <- fdiv 1 (near - far) ;;
  fa <- fdiv f aspect ;;
  Some [ fa; 0; 0; 0;
         0; f; 0; 0;
         0; 0; (far + near) * nf; -1;
         0; 0; (2 * far * near) * nf; 0 ].

Definition lookAt (eye center up : GLSL.vec3) : list R :=
  let f := vec3.normalize (vec3.sub center eye) in
  let s := vec3.normalize (vec3.cross f up) in
  let u := vec3.cross s f in
  [ vx s; vx u; - vx f; 0;
    vy s; vy u; - vy f; 0;
    vz s; vz u; - vz f; 0;
    - vec3.dot s eye; - vec3.dot u eye; vec3.dot f eye; 1 ].

(** The local [det] of [invert]. *)
Definition det (m : list R) : R :=
  let a00 := idx m 0 in let a01 := idx m 1 in let a02 := idx m 2 in let a03 := idx m 3 in
  let a10 := idx m 4 in let a11 := idx m 5 in let a12 := idx m 6 in let a13 := idx m 7 in
  let a20 := idx m 8 in let a21 := idx m 9 in let a22 := idx m 10 in let a23 := idx m 11 in
  let a30 := idx m 12 in let a31 := idx m 13 in let a32 := idx m 14 in let a33 := idx m 15 in
  let b00 := a00 * a11 - a01 * a10 in
  let b01 := a00 * a12 - a02 * a10 in
  let b02 := a00 * a13 - a03 * a10 in
  let b03 := a01 * a12 - a02 * a11 in
  let b04 := a01 * a13 - a03 * a11 in
  let b05 := a02 * a13 - a03 * a12 in
  let b06 := a20 * a31 - a21 * a30 in
  let b07 := a20 * a32 - a22 * a30 in
  let b08 := a20 * a33 - a23 * a30 in
  let b09 := a21 * a32 - a22 * a31 in
  let b10 := a21 * a33 - a23 * a31 in
  let b11 := a22 * a33 - a23 * a32 in
  b00 * b11 - b01 * b10 + b02 * b09 + b03 * b08 - b04 * b07 + b05 * b06.

(** [if (!det) return mat4.identity()] *)
Definition invert (m : list R) : list R :=
  let a00 := idx m 0 in let a01 := idx m 1 in let a02 := idx m 2 in let a03 := idx m 3 in
  let a10 := idx m 4 in let a11 := idx m 5 in let a12 := idx m 6 in let a13 := idx m 7 in
  let a20 := idx m 8 in let a21 := idx m 9 in let a22 := idx m 10 in let a23 := idx m 11 in
  let a30 := idx m 12 in let a31 := idx m 13 in let a32 := idx m 14 in let a33 := idx m 15 in
  let b00 := a00 * a11 - a01 * a10 in
  let b01 := a00 * a12 - a02 * a10 in
  let b02 := a00 * a13 - a03 * a10 in
  let b03 := a01 * a12 - a02 * a11 in
  let b04 := a01 * a13 - a03 * a11 in
  let b05 := a02 * a13 - a03 * a12 in
  let b06 := a20 * a31 - a21 * a30 in
  let b07 := a20 * a32 - a22 * a30 in
  let b08 := a20 * a33 - a23 * a30 in
  let b09 := a21 * a32 - a22 * a31 in
  let b10 := a21 * a33 - a23 * a31 in
  let b11 := a22 * a33 - a23 * a32 in
  let det := det m in
  if Req_dec_T det 0 then identity
  else
    let invDet := 1 / det in
    [ (a11 * b11 - a12 * b10 + a13 * b09) * invDet;
      (a02 * b10 - a01 * b11 - a03 * b09) * invDet;
      (a31 * b05 - a32 * b04 + a33 * b03) * invDet;
      (a22 * b04 - a21 * b05 - a23 * b03) * invDet;
      (a12 * b08 - a10 * b11 - a13 * b07) * invDet;
      (a00 * b11 - a02 * b08 + a03 * b07) * invDet;
      (a32 * b02 - a30 * b05 - a33 * b01) * invDet;
      (a20 * b05 - a22 * b02 + a23 * b01) * invDet;
      (a10 * b10 - a11 * b08 + a13 * b06) * invDet;
      (a01 * b08 - a00 * b10 - a03 * b06) * invDet;
      (a30 * b04 - a31 * b02 + a33 * b00) * invDet;
      (a21 * b02 - a20 * b04 - a23 * b00) * invDet;
      (a11 * b07 - a10 * b09 - a12 * b06) * invDet;
      (a00 * b09 - a01 * b07 + a02 * b06) * invDet;
      (a31 * b01 - a30 * b03 - a32 * b00) * invDet;
      (a20 * b03 - a21 * b01 + a22 * b00) * invDet ].

Definition transpose (m : list R) : list R :=
  [ idx m 0; idx m 4; idx m 8; idx m 12;
    idx m 1; idx m 5; idx m 9; idx m 13;
    idx m 2; idx m 6; idx m 10; idx m 14;
    idx m 3; idx m 7; idx m 11; idx m 15 ].

End mat4.

Module mat3.

Definition identity : list R := [1; 0; 0; 0; 1; 0; 0; 0; 1].

Definition fromMat4 (m : list R) : list R :=
  [ idx m 0; idx m 1; idx m 2;
    idx m 4; idx m 5; idx m 6;
    idx m 8; idx m 9; idx m 10 ].

(** The local [det] of [invert], before it is replaced by its inverse. *)
Definition det (m : list R) : R :=
  let a00 := idx m 0 in let a01 := idx m 1 in let a02 := idx m 2 in
  let a10 := idx m 3 in let a11 := idx m 4 in let a12 := idx m 5 in
  let a20 := idx m 6 in let a21 := idx m 7 in let a22 := idx m 8 in
  let b01 := a22 * a11 - a12 * a21 in
  let b02 := - a22 * a10 + a12 * a20 in
  let b03 := a21 * a10 - a11 * a20 in
  a00 * b01 + a01 * b02 + a02 * b03.

Definition invert (m : list R) : list R :=
  let a00 := idx m 0 in let a01 := idx m 1 in let a02 := idx m 2 in
  let a10 := idx m 3 in let a11 := idx m 4 in let a12 := idx m 5 in
  let a20 := idx m 6 in let a21 := idx m 7 in let a22 := idx m 8 in
  let b01 := a22 * a11 - a12 * a21 in
  let b02 := - a22 * a10 + a12 * a20 in
  let b03 := a21 * a10 - a11 * a20 in
  let det := det m in
  if Req_dec_T det 0 then identity
  else
    let det := 1 / det in
    [ b01 * det;
      (- a22 * a01 + a02 * a21) * det;
      (a12 * a01 - a02 * a11) * det;
      b02 * det;
      (a22 * a00 - a02 * a20) * det;
      (- a12 * a00 + a02 * a10) * det;
      b03 * det;
      (- a21 * a00 + a01 * a20) * det;
      (a11 * a00 - a01 * a10) * det ].

Definition transpose (m : list R) : list R :=
  [ idx m 0; idx m 3; idx m 6;
    idx m 1; idx m 4; idx m 7;
    idx m 2; idx m 5; idx m 8 ].

End mat3.

End MathJs.

(** ** matrix.js: the matrix helpers of the shadow-mapped renderer *)

Module MatrixJs.

Import MathJs.

(** [arr[i] = v] on a typed array: a write past the end is ignored. *)
Definition store (arr : list R) (i : nat) (v : R) : list R :=
  if (i <? List.length arr)%nat then firstn i arr ++ v :: skipn (S i) arr else arr.

Definition createIdentityMatrix : list R :=
  [ 1; 0; 0; 0;
    0; 1; 0; 0;
    0; 0; 1; 0;
    0; 0; 0; 1 ].

Definition createPerspectiveMatrix (fov aspect near far : R) : option (list R) :=
  f <- fdiv 1 (tan (fov / 2)) ;;
  rangeInv <- fdiv 1 (near - far) ;;
  fa <- fdiv f aspect ;;
  Some [ fa; 0; 0; 0;
         0; f; 0; 0;
         0; 0; (near + far) * rangeInv; -1;
         0; 0; near * far * rangeInv * 2; 0 ].

Definition normalize (v : vec3) : vec3 :=
  let length := sqrt (vx v * vx v + vy v * vy v + vz v * vz v) in
  if Req_dec_T length 0 then Vec3 0 0 0
  else Vec3 (vx v / length) (vy v / length) (vz v / length).

Definition cross (a b : vec3) : vec3 :=
  Vec3 (vy a * vz b - vz a * vy b)
       (vz a * vx b - vx a * vz b)
       (vx a * vy b - vy a * vx b).

Definition dot (a b : vec3) : R := vx a * vx b + vy a * vy b + vz a * vz b.

Definition createLookAtMatrix (eye center up : vec3) : list R :=
  let zAxis := normalize (Vec3 (vx eye - vx center) (vy eye - vy center)
                               (vz eye - vz center)) in
  let xAxis := normalize (cross up zAxis) in
  let yAxis := cross zAxis xAxis in
  [ vx xAxis; vx yAxis; vx zAxis; 0;
    vy xAxis; vy yAxis; vy zAxis; 0;
    vz xAxis; vz yAxis; vz zAxis; 0;
    - dot xAxis eye; - dot yAxis eye; - dot zAxis eye; 1 ].

(** The three nested loops over [row], [col] and [k], writing into a fresh
    [Float32Array(16)]. *)
Definition multiplyMatrices (a b : list R) : list R :=
  fold_left
    (fun result row =>
       fold_left
         (fun result col =>
            let sum :=
              fold_left (fun sum k => sum + idx a (row + k * 4) * idx b (k + col * 4))
                        (seq 0 4) 0 in
            store result (row + col * 4) sum)
         (seq 0 4) result)
    (seq 0 4) (repeat 0 16).

Definition createTranslationMatrix (x y z : R) : list R :=
  [ 1; 0; 0; 0;
    0; 1; 0; 0;
    0; 0; 1; 0;
    x; y; z; 1 ].

Definition createRotationXMatrix (angle : R) : list R :=
  let c := cos angle in
  let s := sin angle in
  [ 1; 0; 0; 0;
    0; c; s; 0;
    0; - s; c; 0;
    0; 0; 0; 1 ].

Definition createRotationYMatrix (angle : R) : list R :=
  let c := cos angle in
  let s := sin angle in
  [ c; 0; - s; 0;
    0; 1; 0; 0;
    s; 0; c; 0;
    0; 0; 0; 1 ].

Definition createRotationZMatrix (angle : R) : list R :=
  let c := cos angle in
  let s := sin angle in
  [ c; s; 0; 0;
    - s; c; 0; 0;
    0; 0; 1; 0;
    0; 0; 0; 1 ].

Definition createScaleMatrix (sx sy sz : R) : list R :=
  [ sx; 0; 0; 0;
    0; sy; 0; 0;
    0; 0; sz; 0;
    0; 0; 0; 1 ].

Definition createOrthographicMatrix (left right bottom top near far : R)
  : option (list R) :=
  lr <- fdiv 1 (left - right) ;;
  bt <- fdiv 1 (bottom - top) ;;
  nf <- fdiv 1 (near - far) ;;
  Some [ -2 * lr; 0; 0; 0;
         0; -2 * bt; 0; 0;
         0; 0; 2 * nf; 0;
         (left + right) * lr; (top + bottom) * bt; (far + near) * nf; 1 ].

(** The right-hand sides of the sixteen assignments to [inv] in
    [invertMatrix]: the cofactors, in the order of the indices of [inv]. *)
Definition cofactors (m : list R) : list R :=
  [ idx m 5 * idx m 10 * idx m 15 - idx m 5 * idx m 11 * idx m 14 - idx m 9 * idx m 6 * idx m 15
    + idx m 9 * idx m 7 * idx m 14 + idx m 13 * idx m 6 * idx m 11 - idx m 13 * idx m 7 * idx m 10;
    - idx m 1 * idx m 10 * idx m 15 + idx m 1 * idx m 11 * idx m 14 + idx m 9 * idx m 2 * idx m 15
    - idx m 9 * idx m 3 * idx m 14 - idx m 13 * idx m 2 * idx m 11 + idx m 13 * idx m 3 * idx m 10;
    idx m 1 * idx m 6 * idx m 15 - idx m 1 * idx m 7 * idx m 14 - idx m 5 * idx m 2 * idx m 15
    + idx m 5 * idx m 3 * idx m 14 + idx m 13 * idx m 2 * idx m 7 - idx m 13 * idx m 3 * idx m 6;
    - idx m 1 * idx m 6 * idx m 11 + idx m 1 * idx m 7 * idx m 10 + idx m 5 * idx m 2 * idx m 11
    - idx m 5 * idx m 3 * idx m 10 - idx m 9 * idx m 2 * idx m 7 + idx m 9 * idx m 3 * idx m 6;
    - idx m 4 * idx m 10 * idx m 15 + idx m 4 * idx m 11 * idx m 14 + idx m 8 * idx m 6 * idx m 15
    - idx m 8 * idx m 7 * idx m 14 - idx m 12 * idx m 6 * idx m 11 + idx m 12 * idx m 7 * idx m 10;
    idx m 0 * idx m 10 * idx m 15 - idx m 0 * idx m 11 * idx m 14 - idx m 8 * idx m 2 * idx m 15
    + idx m 8 * idx m 3 * idx m 14 + idx m 12 * idx m 2 * idx m 11 - idx m 12 * idx m 3 * idx m 10;
    - idx m 0 * idx m 6 * idx m 15 + idx m 0 * idx m 7 * idx m 14 + idx m 4 * idx m 2 * idx m 15
    - idx m 4 * idx m 3 * idx m 14 - idx m 12 * idx m 2 * idx m 7 + idx m 12 * idx m 3 * idx m 6;
    idx m 0 * idx m 6 * idx m 11 - idx m 0 * idx m 7 * idx m 10 - idx m 4 * idx m 2 * idx m 11
    + idx m 4 * idx m 3 * idx m 10 + idx m 8 * idx m 2 * idx m 7 - idx m 8 * idx m 3 * idx m 6;
    idx m 4 * idx m 9 * idx m 15 - idx m 4 * idx m 11 * idx m 13 - idx m 8 * idx m 5 * idx m 15
    + idx m 8 * idx m 7 * idx m 13 + idx m 12 * idx m 5 * idx m 11 - idx m 12 * idx m 7 * idx m 9;
    - idx m 0 * idx m 9 * idx m 15 + idx m 0 * idx m 11 * idx m 13 + idx m 8 * idx m 1 * idx m 15
    - idx m 8 * idx m 3 * idx m 13 - idx m 12 * idx m 1 * idx m 11 + idx m 12 * idx m 3 * idx m 9;
    idx m 0 * idx m 5 * idx m 15 - idx m 0 * idx m 7 * idx m 13 - idx m 4 * idx m 1 * idx m 15
    + idx m 4 * idx m 3 * idx m 13 + idx m 12 * idx m 1 * idx m 7 - idx m 12 * idx m 3 * idx m 5;
    - idx m 0 * idx m 5 * idx m 11 + idx m 0 * idx m 7 * idx m 9 + idx m 4 * idx m 1 * idx m 11
    - idx m 4 * idx m 3 * idx m 9 - idx m 8 * idx m 1 * idx m 7 + idx m 8 * idx m 3 * idx m 5;
    - idx m 4 * idx m 9 * idx m 14 + idx m 4 * idx m 10 * idx m 13 + idx m 8 * idx m 5 * idx m 14
    - idx m 8 * idx m 6 * idx m 13 - idx m 12 * idx m 5 * idx m 10 + idx m 12 * idx m 6 * idx m 9;
    idx m 0 * idx m 9 * idx m 14 - idx m 0 * idx m 10 * idx m 13 - idx m 8 * idx m 1 * idx m 14
    + idx m 8 * idx m 2 * idx m 13 + idx m 12 * idx m 1 * idx m 10 - idx m 12 * idx m 2 * idx m 9;
    - idx m 0 * idx m 5 * idx m 14 + idx m 0 * idx m 6 * idx m 13 + idx m 4 * idx m 1 * idx m 14
    - idx m 4 * idx m 2 * idx m 13 - idx m 12 * idx m 1 * idx m 6 + idx m 12 * idx m 2 * idx m 5;
    idx m 0 * idx m 5 * idx m 10 - idx m 0 * idx m 6 * idx m 9 - idx m 4 * idx m 1 * idx m 10
    + idx m 4 * idx m 2 * idx m 9 + idx m 8 * idx m 1 * idx m 6 - idx m 8 * idx m 2 * idx m 5 ].

(** [invertMatrix] keeps the cofactors, and then the scaled entries, in a
    [Float32Array], while its determinant is a double.  [fround] is what the
    array keeps of a number that is written to it ([Math.fround]). *)
Section Float32Array.

Variable fround : R -> R.

(** The array [inv] after the sixteen assignments. *)
Definition inv (m : list R) : list R := map fround (cofactors m).

(** The local [det] of [invertMatrix], before it is replaced by its inverse. *)
Definition det (m : list R) : R :=
  let inv := inv m in
  idx m 0 * idx inv 0 + idx m 1 * idx inv 4 + idx m 2 * idx inv 8 + idx m 3 * idx inv 12.

(** [null] is [None]; the final loop multiplies every entry by [1 / det] and
    writes it back to the array. *)
Definition invertMatrix (m : list R) : option (list R) :=
  let inv := inv m in
  let det := det m in
  if Req_dec_T det 0 then None
  else
    let det := 1 / det in
    Some (map (fun x => fround (x * det)) inv).

End Float32Array.

Definition transposeMatrix (m : list R) : list R :=
  [ idx m 0; idx m 4; idx m 8; idx m 12;
    idx m 1; idx m 5; idx m 9; idx m 13;
    idx m 2; idx m 6; idx m 10; idx m 14;
    idx m 3; idx m 7; idx m 11; idx m 15 ].

Definition degToRad (degrees : R) : R := degrees * PI / 180.

End MatrixJs.

(** ** camera.js: the orbit camera *)

Module Camera.

Import MathJs.

(** The fields of a [Camera]; the canvas it listens on is left out. *)
Record camera : Type := {
  target : vec3;
  distance : R;
  yaw : R;
  pitch : R;
  pan : vec3;
  viewMatrix : list R;
  projectionMatrix : list R;
  viewProjInverse : list R;
  position : vec3;
  isRotating : bool;
  isPanning : bool;
  lastMousePos : R * R
}.

Definition constructor : camera :=
  {| target := Vec3 0 0 0;
     distance := 3.0;
     yaw := 0.6;
     pitch := 0.35;
     pan := Vec3 0 0 0;
     viewMatrix := mat4.identity;
     projectionMatrix := mat4.identity;
     viewProjInverse := mat4.identity;
     position := Vec3 0 0 0;
     isRotating := false;
     isPanning := false;
     lastMousePos := (0, 0) |}.

(** The events the listeners of [setupEventListeners] receive, with the
    fields of the event object they read. *)
Inductive event : Type :=
| mousedown (button : Z) (clientX clientY : R)
| mouseup
| mouseleave
| contextmenu
| mousemove (clientX clientY : R)
| wheel (deltaY : R).

Definition set_buttons (c : camera) (rotating panning : bool) (last : R * R) : camera :=
  {| target := target c; distance := distance c; yaw := yaw c; pitch := pitch c;
     pan := pan c; viewMatrix := viewMatrix c; projectionMatrix := projectionMatrix c;
     viewProjInverse := viewProjInverse c; position := position c;
     isRotating := rotating; isPanning := panning; lastMousePos := last |}.

Definition set_orbit (c : camera) (yaw' pitch' : R) (pan' : vec3) (last : R * R) : camera :=
  {| target := target c; distance := distance c; yaw := yaw'; pitch := pitch';
     pan := pan'; viewMatrix := viewMatrix c; projectionMatrix := projectionMatrix c;
     viewProjInverse := viewProjInverse c; position := position c;
     isRotating := isRotating c; isPanning := isPanning c; lastMousePos := last |}.

Definition set_distance (c : camera) (distance' : R) : camera :=
  {| target := target c; distance := distance'; yaw := yaw c; pitch := pitch c;
     pan := pan c; viewMatrix := viewMatrix c; projectionMatrix := projectionMatrix c;
     viewProjInverse := viewProjInverse c; position := position c;
     isRotating := isRotating c; isPanning := isPanning c;
     lastMousePos := lastMousePos c |}.

(** What the listener of an event does to the camera. *)
Definition handle (c : camera) (e : event) : camera :=
  match e with
  | mousedown button clientX clientY =>
      let rotating := if (button =? 0)%Z then true else isRotating c in
      let panning := if (button =? 2)%Z then true else isPanning c in
      set_buttons c rotating panning (clientX, clientY)
  | mouseup => set_buttons c false false (lastMousePos c)
  | mouseleave => set_buttons c false false (lastMousePos c)
  | contextmenu => c
  | mousemove clientX clientY =>
      let dx := clientX - fst (lastMousePos c) in
      let dy := clientY - snd (lastMousePos c) in
      let yaw' := if isRotating c then yaw c + dx * 0.005 else yaw c in
      let pitch' := if isRotating c then clamp (pitch c + dy * 0.005) (-1.2) 1.2
                    else pitch c in
      let pan' :=
        if isPanning c then
          let panScale := 0.002 * distance c in
          let right := Vec3 (cos yaw') 0 (- sin yaw') in
          let up := Vec3 0 1 0 in
          vec3.add (pan c)
            (vec3.add (vec3.scale right (- dx * panScale)) (vec3.scale up (dy * panScale)))
        else pan c in
      set_orbit c yaw' pitch' pan' (clientX, clientY)
  | wheel deltaY =>
      set_distance c (clamp (distance c * (1 + deltaY * 0.001)) 1.2 12.0)
  end.

(** The camera after a sequence of events. *)
Definition run (c : camera) (events : list event) : camera := fold_left handle events c.

(** The local [x, y, z] of [updateMatrices]. *)
Definition orbitOffset (c : camera) : vec3 :=
  Vec3 (cos (pitch c) * sin (yaw c) * distance c)
       (sin (pitch c) * distance c)
       (cos (pitch c) * cos (yaw c) * distance c).

Definition updateMatrices (c : camera) (aspectRatio : R) : option camera :=
  let position := vec3.add (orbitOffset c) (pan c) in
  let centerWithPan := vec3.add (target c) (pan c) in
  let viewMatrix := mat4.lookAt position centerWithPan (Vec3 0 1 0) in
  projectionMatrix <- mat4.perspective (degToRad 50) aspectRatio 0.1 50 ;;
  let viewProj := mat4.multiply projectionMatrix viewMatrix in
  Some {| target := target c; distance := distance c; yaw := yaw c; pitch := pitch c;
          pan := pan c; viewMatrix := viewMatrix; projectionMatrix := projectionMatrix;
          viewProjInverse := mat4.invert viewProj; position := position;
          isRotating := isRotating c; isPanning := isPanning c;
          lastMousePos := lastMousePos c |}.

(** The local function [unproject] of [screenToWorldRay]. *)
Definition unproject (viewProjInverse : list R) (p : vec4) : option vec3 :=
  let worldPos := mat4.multiplyVec4 viewProjInverse p in
  w <- fdiv 1 (v4w worldPos) ;;
  Some (Vec3 (v4x worldPos * w) (v4y worldPos * w) (v4z worldPos * w)).

(** The returned object as the pair of [origin] and [direction]. *)
Definition screenToWorldRay (c : camera) (screenX screenY canvasWidth canvasHeight : R)
  : option (vec3 * vec3) :=
  sx <- fdiv screenX canvasWidth ;;
  sy <- fdiv screenY canvasHeight ;;
  let ndcX := sx * 2 - 1 in
  let ndcY := (1 - sy) * 2 - 1 in
  let near := Vec4 ndcX ndcY (-1) 1 in
  let far := Vec4 ndcX ndcY 1 1 in
  nearWorld <- unproject (viewProjInverse c) near ;;
  farWorld <- unproject (viewProjInverse c) far ;;
  let direction := vec3.normalize (vec3.sub farWorld nearWorld) in
  Some (position c, direction).

End Camera.

(** ** renderer.js: the shadow pass of [Renderer.render] *)

Module RenderPass.

Import MathJs.

(** The fields of the application state that the shadow pass reads. *)
Record State : Type := {
  lightType : Z;
  lightPos : vec3;
  lightDir : vec3
}.

Section Floor.

(** [FLOOR_Y] of geometry.js. *)
Variable FLOOR_Y : R.

Definition lightHomogeneous (state : State) : vec4 :=
  if (lightType state =? 1)%Z
  then let d := vec3.normalize (vec3.scale (lightDir state) (-1)) in
       Vec4 (vx d) (vy d) (vz d) 0
  else Vec4 (vx (lightPos state)) (vy (lightPos state)) (vz (lightPos state)) 1.

(** [this.buildShadowMatrix(lightHomogeneous)], with the default plane. *)
Definition shadowMatrix (state : State) : list R :=
  Renderer.buildShadowMatrix (lightHomogeneous state) (Renderer.defaultPlane FLOOR_Y).

Definition objectRadius : R := 1.0.

Definition lightHeight (state : State) : R :=
  if (lightType state =? 1)%Z then 10.0 else Rabs (vy (lightPos state) - FLOOR_Y).

Definition shadowRadius (state : State) : option R :=
  q <- fdiv objectRadius (Rmax 0.1 (lightHeight state)) ;;
  Some (objectRadius * (1.0 + q)).

(** [objPos] is the translation column of the object's model matrix. *)
Definition shadowCenter (objectModelMatrix : list R) : vec3 :=
  Vec3 (idx objectModelMatrix 12) FLOOR_Y (idx objectModelMatrix 14).

End Floor.

End RenderPass.

(** ** The vertex shader and the shadow shader of the planar-shadow renderer *)

Module VertexShader.

(** [m * v] for a [mat3] given by its 9 entries in column-major order. *)
Definition mat3_mul_vec3 (m : list R) (v : vec3) : vec3 :=
  Vec3 (MathJs.idx m 0 * vx v + MathJs.idx m 3 * vy v + MathJs.idx m 6 * vz v)
       (MathJs.idx m 1 * vx v + MathJs.idx m 4 * vy v + MathJs.idx m 7 * vz v)
       (MathJs.idx m 2 * vx v + MathJs.idx m 5 * vy v + MathJs.idx m 8 * vz v).

(** The output [vNormal = normalize(uNormalMat * aNormal)]. *)
Definition vNormal (uNormalMat : list R) (aNormal : vec3) : option vec3 :=
  normalize (mat3_mul_vec3 uNormalMat aNormal).

(** [worldPos] at the end of [main]. *)
Definition worldPos (uModel uShadowMat : list R) (uUseShadowMat : bool) (aPos : vec3)
  : vec4 :=
  let worldPos := mat4_mul_vec4 uModel (Vec4 (vx aPos) (vy aPos) (vz aPos) 1) in
  if uUseShadowMat then mat4_mul_vec4 uShadowMat worldPos else worldPos.

(** The output [vWorldPos = worldPos.xyz]. *)
Definition vWorldPos (uModel uShadowMat : list R) (uUseShadowMat : bool) (aPos : vec3)
  : vec3 :=
  let w := worldPos uModel uShadowMat uUseShadowMat aPos in
  Vec3 (v4x w) (v4y w) (v4z w).

(** [gl_Position = uProj * uView * worldPos] *)
Definition gl_Position (uModel uView uProj uShadowMat : list R) (uUseShadowMat : bool)
  (aPos : vec3) : vec4 :=
  mat4_mul_vec4 uProj
    (mat4_mul_vec4 uView (worldPos uModel uShadowMat uUseShadowMat aPos)).

End VertexShader.

Module ShadowFragmentShader.

(** [main]: the alpha channel of [fragColor]; its colour is black. *)
Definition main (uAlpha : R) (uShadowCenter : vec3) (uShadowRadius : R) (vWorldPos : vec3)
  : option R :=
  let dx := vx vWorldPos - vx uShadowCenter in
  let dz := vz vWorldPos - vz uShadowCenter in
  let dist := sqrt (dx * dx + dz * dz) in
  let innerRadius := uShadowRadius * 0.5 in
  let outerRadius := uShadowRadius in
  s <- smoothstep innerRadius outerRadius dist ;;
  let edgeFalloff := 1 - s in
  Some (uAlpha * edgeFalloff).

End ShadowFragmentShader.

(** ** The vertex shader and the final colour of the shadow-mapped renderer *)

Module VertexShaderSource.

(** The output [vLightSpacePos]. *)
Definition vLightSpacePos (uModelMatrix uLightSpaceMatrix : list R) (aPosition : vec3)
  : vec4 :=
  let worldPosition :=
    mat4_mul_vec4 uModelMatrix (Vec4 (vx aPosition) (vy aPosition) (vz aPosition) 1) in
  mat4_mul_vec4 uLightSpaceMatrix worldPosition.

(** The output [vWorldPosition]. *)
Definition vWorldPosition (uModelMatrix : list R) (aPosition : vec3) : vec3 :=
  let worldPosition :=
    mat4_mul_vec4 uModelMatrix (Vec4 (vx aPosition) (vy aPosition) (vz aPosition) 1) in
  Vec3 (v4x worldPosition) (v4y worldPosition) (v4z worldPosition).

End VertexShaderSource.

Module FragmentColor.

(** [pow(x, y)] for a real exponent: undefined for a negative base, and for
    a zero base unless the exponent is positive. *)
Definition powr (x y : R) : option R :=
  if Rlt_dec x 0 then None
  else if Req_dec_T x 0 then (if Rlt_dec 0 y then Some 0 else None)
  else Some (Rpower x y).

(** [main] of [fragmentShaderSource] from the ambient term to the RGB part of
    [fragColor]. *)
Definition color (u : FragmentShaderSource.Uniforms) (Lo : vec3) : option vec3 :=
  let F0 := vmix (splat 0.04) (FragmentShaderSource.uAlbedo u)
                 (FragmentShaderSource.uMetallic u) in
  let ambient := vmul (splat 0.03) (FragmentShaderSource.uAlbedo u) in
  let envReflect := vscale (1 - FragmentShaderSource.uRoughness u) (vscale 0.15 F0) in
  let ambient := vadd ambient (vscale (FragmentShaderSource.uMetallic u) envReflect) in
  let color := vadd ambient Lo in
  r <- fdiv (vx color) (vx color + 1) ;;
  g <- fdiv (vy color) (vy color + 1) ;;
  b <- fdiv (vz color) (vz color + 1) ;;
  r' <- powr r (1 / 2.2) ;;
  g' <- powr g (1 / 2.2) ;;
  b' <- powr b (1 / 2.2) ;;
  Some (Vec3 r' g' b').

Definition main (u : FragmentShaderSource.Uniforms) (vWorldPosition vNormal : vec3)
  (vLightSpacePos : vec4) : option vec3 :=
  Lo <- FragmentShaderSource.main_Lo u vWorldPosition vNormal vLightSpacePos ;;
  color u Lo.

End FragmentColor.

(** ** intersection.js: ray casting for the hover tooltip *)

Module Intersection.

Import MathJs.

(** A hit [{point, normal}]. *)
Record hit : Type := { point : vec3; normal : vec3 }.

(** [Some None] is the result [null].  [None] stands for a division by
    zero, where JavaScript goes on with an infinity or a NaN: for the sphere
    a ray whose direction is the zero vector, for which JavaScript returns a
    hit whose coordinates are NaN; for the cube a ray parallel to a face. *)
Definition intersectSphere (rayOrigin rayDir sphereCenter : vec3) (sphereRadius : R)
  : option (option hit) :=
  let oc := vec3.sub rayOrigin sphereCenter in
  let a := vec3.dot rayDir rayDir in
  let b := 2 * vec3.dot rayDir oc in
  let c := vec3.dot oc oc - sphereRadius * sphereRadius in
  let discriminant := b * b - 4 * a * c in
  if ltb discriminant 0 then Some None
  else
    t <- fdiv (- b - sqrt discriminant) (2 * a) ;;
    if ltb t 0 then Some None
    else
      let point := vec3.add rayOrigin (vec3.scale rayDir t) in
      let normal := vec3.normalize (vec3.sub point sphereCenter) in
      Some (Some {| point := point; normal := normal |}).

(** [Math.sign] *)
Definition sign (x : R) : R := if ltb 0 x then 1 else if ltb x 0 then -1 else 0.

(** [if (lo > hi) [lo, hi] = [hi, lo]] *)
Definition swapIfGreater (lo hi : R) : R * R := if gtb lo hi then (hi, lo) else (lo, hi).

Definition intersectCube (rayOrigin rayDir boxCenter : vec3) (boxHalfSize : R)
  : option (option hit) :=
  let min := vec3.sub boxCenter (Vec3 boxHalfSize boxHalfSize boxHalfSize) in
  let max := vec3.add boxCenter (Vec3 boxHalfSize boxHalfSize boxHalfSize) in
  tmin <- fdiv (vx min - vx rayOrigin) (vx rayDir) ;;
  tmax <- fdiv (vx max - vx rayOrigin) (vx rayDir) ;;
  let '(tmin, tmax) := swapIfGreater tmin tmax in
  tymin <- fdiv (vy min - vy rayOrigin) (vy rayDir) ;;
  tymax <- fdiv (vy max - vy rayOrigin) (vy rayDir) ;;
  let '(tymin, tymax) := swapIfGreater tymin tymax in
  if (gtb tmin tymax || gtb tymin tmax)%bool then Some None
  else
    let tmin := if gtb tymin tmin then tymin else tmin in
    let tmax := if ltb tymax tmax then tymax else tmax in
    tzmin <- fdiv (vz min - vz rayOrigin) (vz rayDir) ;;
    tzmax <- fdiv (vz max - vz rayOrigin) (vz rayDir) ;;
    let '(tzmin, tzmax) := swapIfGreater tzmin tzmax in
    if (gtb tmin tzmax || gtb tzmin tmax)%bool then Some None
    else
      let tmin := if gtb tzmin tmin then tzmin else tmin in
      if ltb tmin 0 then Some None
      else
        let point := vec3.add rayOrigin (vec3.scale rayDir tmin) in
        let local := vec3.sub point boxCenter in
        let absLocal := Vec3 (Rabs (vx local)) (Rabs (vy local)) (Rabs (vz local)) in
        let maxAxis := Rmax (Rmax (vx absLocal) (vy absLocal)) (vz absLocal) in
        let normal :=
          if Req_dec_T maxAxis (vx absLocal) then Vec3 (sign (vx local)) 0 0
          else if Req_dec_T maxAxis (vy absLocal) then Vec3 0 (sign (vy local)) 0
          else Vec3 0 0 (sign (vz local)) in
        Some (Some {| point := point; normal := normal |}).

(** [objectType === 'sphere'] is the flag [isSphere]. *)
Definition intersectObject (rayOrigin rayDir : vec3) (isSphere : bool)
  (objectCenter : vec3) (objectSize : R) : option (option hit) :=
  if isSphere then intersectSphere rayOrigin rayDir objectCenter objectSize
  else intersectCube rayOrigin rayDir objectCenter objectSize.

End Intersection.

(** ** The application of the shadow-mapped renderer ([CookTorranceApp]) *)

Module CookTorranceApp.

Import MatrixJs.

(** [getRotatedLightPosition], from [baseLightPosition] and the two
    rotation angles. *)
Definition getRotatedLightPosition (baseLightPosition : vec3) (rotationX rotationY : R)
  : vec3 :=
  let x := vx baseLightPosition in
  let y := vy baseLightPosition in
  let z := vz baseLightPosition in
  let cosY := cos rotationY in
  let sinY := sin rotationY in
  let x1 := x * cosY + z * sinY in
  let z1 := - x * sinY + z * cosY in
  let cosX := cos rotationX in
  let sinX := sin rotationX in
  let y1 := y * cosX - z1 * sinX in
  let z2 := y * sinX + z1 * cosX in
  Vec3 x1 y1 z2.

(** [getLightSpaceMatrix], from [params.lightPosition]. *)
Definition getLightSpaceMatrix (lp : vec3) : option (list R) :=
  let lightView :=
    createLookAtMatrix (Vec3 (vx lp * 2) (vy lp * 2) (vz lp * 2)) (Vec3 0 0 0) (Vec3 0 1 0) in
  lightProj <- createOrthographicMatrix (-5) 5 (-5) 5 0.1 20 ;;
  Some (multiplyMatrices lightProj lightView).

(** The model matrix of the object in [render] and [renderShadowMap]. *)
Definition modelMatrix (rotationX rotationY : R) : list R :=
  let rotX := createRotationXMatrix rotationX in
  let rotY := createRotationYMatrix rotationY in
  multiplyMatrices rotY rotX.

End CookTorranceApp.

(** ** Predicates used to state the properties of the modules above *)

Module Props.

(** The ranges that the listeners of the camera keep. *)
Definition cameraInRange (c : Camera.camera) : Prop :=
  -1.2 <= Camera.pitch c <= 1.2
  /\ 1.2 <= Camera.distance c <= 12
  /\ Camera.target c = Vec3 0 0 0.

(** The two cameras have the same yaw, pitch, pan and distance. *)
Definition sameOrbit (c c' : Camera.camera) : Prop :=
  Camera.yaw c' = Camera.yaw c /\ Camera.pitch c' = Camera.pitch c
  /\ Camera.pan c' = Camera.pan c /\ Camera.distance c' = Camera.distance c.

(** The squared distance from the sphere's centre to the point of the ray
    at parameter [t], minus the squared radius: zero exactly when that point
    is on the sphere. *)
Definition sphereEquation (rayOrigin rayDir sphereCenter : vec3) (sphereRadius t : R) : R :=
  let p := MathJs.vec3.sub (MathJs.vec3.add rayOrigin (MathJs.vec3.scale rayDir t))
                           sphereCenter in
  MathJs.vec3.dot p p - sphereRadius * sphereRadius.

(** The store of an array that keeps every number it is given: the
    idealisation of the entries of a [Float32Array] as real numbers. *)
Definition exact (x : R) : R := x.

(** A store that keeps 0 for every number of absolute value at most [eps]
    and every other number as it is: the underflow of a [Float32Array], whose
    store keeps 0 for every number up to [2^-150] in absolute value, without
    its rounding. *)
Definition flushed (eps x : R) : R := if Rle_dec (Rabs x) eps then 0 else x.

End Props.

(** ** Elementary facts about the built-ins *)

Lemma clamp_range (x lo hi : R) : lo <= hi -> lo <= clamp x lo hi <= hi.
Proof.
  intros Hle. unfold clamp, Rmin, Rmax.
  destruct (Rle_dec x lo); destruct (Rle_dec _ hi); lra.
Qed.

Lemma clamp_id (x lo hi : R) : lo <= x <= hi -> clamp x lo hi = x.
Proof.
  intros H. unfold clamp, Rmin, Rmax.
  destruct (Rle_dec x lo); destruct (Rle_dec _ hi); lra.
Qed.

Lemma clamp_below (x lo hi : R) : x <= lo -> lo <= hi -> clamp x lo hi = lo.
Proof.
  intros H1 H2. unfold clamp, Rmin, Rmax.
  destruct (Rle_dec x lo); destruct (Rle_dec _ hi); lra.
Qed.

Lemma clamp_above (x lo hi : R) : hi <= x -> lo <= hi -> clamp x lo hi = hi.
Proof.
  intros H1 H2. unfold clamp, Rmin, Rmax.
  destruct (Rle_dec x lo); destruct (Rle_dec _ hi); lra.
Qed.

Lemma clamp_mono (x y lo hi : R) : x <= y -> clamp x lo hi <= clamp y lo hi.
Proof.
  intros H. unfold clamp.
  apply Rle_min_compat_r, Rle_max_compat_r, H.
Qed.

Lemma fdiv_some (a b : R) : b <> 0 -> fdiv a b = Some (a / b).
Proof. intros H. unfold fdiv. destruct (Req_dec_T b 0); [contradiction | reflexivity]. Qed.

Lemma fdiv_zero (a : R) : fdiv a 0 = None.
Proof. unfold fdiv. destruct (Req_dec_T 0 0); [reflexivity | contradiction]. Qed.

Lemma vdivs_some (v : vec3) (s : R) :
  s <> 0 -> vdivs v s = Some (vdivc v s).
Proof. intros H. unfold vdivs. destruct (Req_dec_T s 0); [contradiction | reflexivity]. Qed.

Lemma vdivs_zero (v : vec3) : vdivs v 0 = None.
Proof. unfold vdivs. destruct (Req_dec_T 0 0); [reflexivity | contradiction]. Qed.

Lemma pow_some (x : R) (n : nat) : 0 <= x -> GLSL.pow x n = Some (x ^ n).
Proof. intros H. unfold GLSL.pow. destruct (Rlt_dec x 0); [lra | reflexivity]. Qed.

Lemma ltb_true (x y : R) : x < y -> ltb x y = true.
Proof. intros H. unfold ltb. destruct (Rlt_dec x y); [reflexivity | contradiction]. Qed.

Lemma ltb_false (x y : R) : y <= x -> ltb x y = false.
Proof. intros H. unfold ltb. destruct (Rlt_dec x y); [lra | reflexivity]. Qed.

Lemma ltb_spec (x y : R) : (ltb x y = true /\ x < y) \/ (ltb x y = false /\ y <= x).
Proof. unfold ltb. destruct (Rlt_dec x y); [left | right]; split; auto; lra. Qed.

Lemma dot_self_nonneg (v : vec3) : 0 <= dot v v.
Proof. unfold dot. nra. Qed.

Lemma dot_self_zero (v : vec3) : dot v v = 0 -> v = Vec3 0 0 0.
Proof.
  destruct v as [x y z]. unfold dot. simpl. intros H.
  assert (x = 0) by nra. assert (y = 0) by nra. assert (z = 0) by nra.
  subst. reflexivity.
Qed.

Lemma length_nonneg (v : vec3) : 0 <= length v.
Proof. apply sqrt_pos. Qed.

Lemma length_sqr (v : vec3) : length v * length v = dot v v.
Proof. apply sqrt_sqrt, dot_self_nonneg. Qed.

Lemma length_zero_iff (v : vec3) : length v = 0 <-> v = Vec3 0 0 0.
Proof.
  split.
  - intros H. apply dot_self_zero. rewrite <- length_sqr, H. lra.
  - intros ->. unfold length, dot. simpl.
    replace (0 * 0 + 0 * 0 + 0 * 0) with 0 by lra. apply sqrt_0.
Qed.

Lemma length_of_square (v : vec3) (l : R) : 0 <= l -> dot v v = l * l -> length v = l.
Proof.
  intros Hl H. unfold length. rewrite H. apply sqrt_square, Hl.
Qed.

(** [normalize] is defined exactly away from the zero vector, and then
    returns the unit vector [v / |v|]. *)
Lemma normalize_some (v : vec3) :
  v <> Vec3 0 0 0 ->
  normalize v = Some (vdivc v (length v)) /\ 0 < length v.
Proof.
  intros Hv.
  assert (Hl : length v <> 0) by (intros E; apply Hv, length_zero_iff, E).
  split.
  - apply vdivs_some, Hl.
  - pose proof (length_nonneg v). lra.
Qed.

Lemma normalize_zero : normalize (Vec3 0 0 0) = None.
Proof.
  unfold normalize.
  replace (length (Vec3 0 0 0)) with 0; [apply vdivs_zero |].
  symmetry. apply length_zero_iff. reflexivity.
Qed.

Lemma dot_vdivc_l (v w : vec3) (s : R) : dot (vdivc v s) w = dot v w / s.
Proof. unfold dot, vdivc. simpl. unfold Rdiv. ring. Qed.

Lemma dot_vdivc_r (v w : vec3) (s : R) : dot w (vdivc v s) = dot w v / s.
Proof. unfold dot, vdivc. simpl. unfold Rdiv. ring. Qed.

Lemma normalize_unit (v h : vec3) : normalize v = Some h -> dot h h = 1.
Proof.
  unfold normalize, vdivs. destruct (Req_dec_T (length v) 0) as [|Hl]; [discriminate |].
  intros E. injection E as <-.
  rewrite dot_vdivc_l, dot_vdivc_r, <- length_sqr. field. exact Hl.
Qed.

(** A vector of length 1 is its own normalisation. *)
Lemma normalize_of_unit (v : vec3) : dot v v = 1 -> normalize v = Some v.
Proof.
  intros H.
  assert (Hl : length v = 1) by (apply length_of_square; lra).
  unfold normalize. rewrite Hl, vdivs_some by lra.
  destruct v as [x y z]. unfold vdivc. simpl. f_equal. f_equal; field.
Qed.

(** ** The planar shadow matrix *)

(** C7.  [buildShadowMatrix(L, P)] is the matrix with entries
    [M[i][j] = dot * delta(i,j) - L[i] * P[j]], [dot = P . L]; it maps every
    homogeneous point [X] of the plane ([P . X = 0]) to [dot * X], the same
    point up to homogeneous scale, and it maps the light's own coordinate
    [L] to a vector whose [w] component is 0. *)
Theorem buildShadowMatrix_projects (L P : vec4) :
  (forall i j : nat, (i < 4)%nat -> (j < 4)%nat ->
     entry (Renderer.buildShadowMatrix L P) i j
     = Spec.dot4 P L * Spec.delta i j - Spec.comp L i * Spec.comp P j)
  /\ (forall X : vec4, Spec.dot4 P X = 0 ->
        mat4_mul_vec4 (Renderer.buildShadowMatrix L P) X = Spec.scale4 (Spec.dot4 P L) X)
  /\ v4w (mat4_mul_vec4 (Renderer.buildShadowMatrix L P) L) = 0.
Proof.
  destruct L as [lx ly lz lw], P as [a b c d].
  split; [| split].
  - intros i j Hi Hj.
    destruct i as [|[|[|[|i]]]]; try lia;
      destruct j as [|[|[|[|j]]]]; try lia;
      unfold entry, Spec.dot4, Spec.delta, Spec.comp; simpl; lra.
  - intros [x y z w]. unfold Spec.dot4. simpl. intros HX.
    unfold mat4_mul_vec4, Spec.scale4, entry. simpl.
    assert (Hx : lx * (a * x + b * y + c * z + d * w) = 0) by (rewrite HX; ring).
    assert (Hy : ly * (a * x + b * y + c * z + d * w) = 0) by (rewrite HX; ring).
    assert (Hz : lz * (a * x + b * y + c * z + d * w) = 0) by (rewrite HX; ring).
    assert (Hw : lw * (a * x + b * y + c * z + d * w) = 0) by (rewrite HX; ring).
    f_equal; lra.
  - unfold mat4_mul_vec4, entry. simpl. ring.
Qed.

(** The floor [y = 0] lit from [(0, 2, 0)]: the floor point [(3, 0, 4)]
    stays where it is, scaled by [dot = 2]. *)
Lemma buildShadowMatrix_projects_witness :
  mat4_mul_vec4 (Renderer.buildShadowMatrix (Vec4 0 2 0 1) (Vec4 0 1 0 0)) (Vec4 3 0 4 1)
  = Spec.scale4 (Spec.dot4 (Vec4 0 1 0 0) (Vec4 0 2 0 1)) (Vec4 3 0 4 1).
Proof.
  apply (proj1 (proj2 (buildShadowMatrix_projects (Vec4 0 2 0 1) (Vec4 0 1 0 0)))).
  unfold Spec.dot4. simpl. lra.
Defined.

(** ** Energy split between diffuse and specular *)

(** C9, as stated, fails: for a metal ([metallic = 1]) with Fresnel value
    1/2 both shaders give [kD + kS = 1/2]. *)
Lemma metal_coefficients_sum_below_one :
  let F := Vec3 (1/2) (1/2) (1/2) in
  vx (vadd (FragmentShader.kD (Examples.mainUniforms 1 (1/2)) (FragmentShader.kS F))
           (FragmentShader.kS F)) <> 1
  /\ vx (vadd (FragmentShaderSource.kD
                 (Examples.sourceUniforms 1 (1/2) 0 (Vec3 0 (-1) 0) 0 1)
                 (FragmentShaderSource.kS F))
              (FragmentShaderSource.kS F)) <> 1.
Proof.
  simpl. split; lra.
Qed.

(** C9, amended.  In both shaders [kD + kS = 1 - metallic * (1 - F)] per
    channel; so for [F] and [metallic] in [0,1] the sum lies between [F] and
    1, and it is 1 for a dielectric ([metallic = 0]). *)
Theorem diffuse_plus_specular_coefficient (u : FragmentShader.Uniforms)
  (u' : FragmentShaderSource.Uniforms)
  (F : vec3) :
  let m := FragmentShader.uMetallic u in
  let m' := FragmentShaderSource.uMetallic u' in
  let s := vadd (FragmentShader.kD u (FragmentShader.kS F)) (FragmentShader.kS F) in
  let s' := vadd (FragmentShaderSource.kD u' (FragmentShaderSource.kS F))
                 (FragmentShaderSource.kS F) in
  s = Vec3 (1 - m * (1 - vx F)) (1 - m * (1 - vy F)) (1 - m * (1 - vz F))
  /\ s' = Vec3 (1 - m' * (1 - vx F)) (1 - m' * (1 - vy F)) (1 - m' * (1 - vz F))
  /\ (0 <= m <= 1 -> 0 <= m' <= 1 ->
      0 <= vx F <= 1 -> 0 <= vy F <= 1 -> 0 <= vz F <= 1 ->
      (vx F <= vx s <= 1 /\ vy F <= vy s <= 1 /\ vz F <= vz s <= 1)
      /\ (vx F <= vx s' <= 1 /\ vy F <= vy s' <= 1 /\ vz F <= vz s' <= 1))
  /\ (m = 0 -> s = splat 1)
  /\ (m' = 0 -> s' = splat 1).
Proof.
  destruct F as [fx fy fz].
  unfold FragmentShader.kD, FragmentShader.kS, FragmentShaderSource.kD,
    FragmentShaderSource.kS, vadd, vscale, vsub, splat. simpl.
  repeat split; try (f_equal; ring); try nra.
  - intros ->. f_equal; ring.
  - intros ->. f_equal; ring.
Qed.

Lemma diffuse_plus_specular_coefficient_witness :
  let u := Examples.mainUniforms 0 (1/2) in
  let u' := Examples.sourceUniforms 0 (1/2) 0 (Vec3 0 (-1) 0) 0 1 in
  let F := Vec3 (1/2) (1/2) (1/2) in
  vadd (FragmentShader.kD u (FragmentShader.kS F)) (FragmentShader.kS F) = splat 1
  /\ vadd (FragmentShaderSource.kD u' (FragmentShaderSource.kS F))
          (FragmentShaderSource.kS F) = splat 1.
Proof.
  pose proof (diffuse_plus_specular_coefficient (Examples.mainUniforms 0 (1/2))
                (Examples.sourceUniforms 0 (1/2) 0 (Vec3 0 (-1) 0) 0 1)
                (Vec3 (1/2) (1/2) (1/2))) as H.
  destruct H as (_ & _ & H3 & H1 & H2).
  assert (Hb : 0 <= 1 / 2 <= 1) by lra.
  assert (Hm : 0 <= 0 <= 1) by lra.
  pose proof (H3 Hm Hm Hb Hb Hb) as _.
  split; [apply H1 | apply H2]; reflexivity.
Defined.

(** ** Shadow mapping with percentage-closer filtering *)

Lemma sum_unit_interval {A : Type} (f : A -> R) (l : list A) :
  (forall a, 0 <= f a <= 1) ->
  0 <= fold_right Rplus 0 (map f l) <= INR (List.length l).
Proof.
  intros Hf. induction l as [| a l IH].
  - simpl. lra.
  - change (List.length (a :: l)) with (S (List.length l)).
    rewrite S_INR. simpl. specialize (Hf a). lra.
Qed.

Lemma sum_all_ones {A : Type} (f : A -> R) (l : list A) :
  (forall a, In a l -> f a = 1) ->
  fold_right Rplus 0 (map f l) = INR (List.length l).
Proof.
  intros Hf. induction l as [| a l IH].
  - reflexivity.
  - change (List.length (a :: l)) with (S (List.length l)).
    rewrite S_INR. simpl. rewrite IH, (Hf a).
    + ring.
    + left. reflexivity.
    + intros b Hb. apply Hf. right. exact Hb.
Qed.

Lemma lit_unit_interval (sm : FragmentShaderSource.sampler2D) (p : vec3) (b : R)
  (o : Z * Z) : 0 <= Spec.lit sm p b o <= 1.
Proof. unfold Spec.lit. destruct (Rle_dec _ _); lra. Qed.

(** A tap of the shader's loop is the indicator of the specification. *)
Lemma pcfTap_lit (u : FragmentShaderSource.Uniforms) (p N L : vec3) (x y : Z) :
  FragmentShaderSource.pcfTap u p N L x y
  = Spec.lit (FragmentShaderSource.uShadowMap u) p (FragmentShaderSource.bias u N L) (x, y).
Proof.
  unfold FragmentShaderSource.pcfTap, Spec.lit, gtb, ltb. simpl fst. simpl snd.
  replace (IZR x * (1 / IZR (Z.pos (FragmentShaderSource.textureWidth
                                      (FragmentShaderSource.uShadowMap u)))))
    with (IZR x / IZR (Z.pos (FragmentShaderSource.textureWidth
                                (FragmentShaderSource.uShadowMap u))))
    by (unfold Rdiv; ring).
  replace (IZR y * (1 / IZR (Z.pos (FragmentShaderSource.textureHeight
                                      (FragmentShaderSource.uShadowMap u)))))
    with (IZR y / IZR (Z.pos (FragmentShaderSource.textureHeight
                                (FragmentShaderSource.uShadowMap u))))
    by (unfold Rdiv; ring).
  destruct (Rlt_dec _ _); destruct (Rle_dec _ _); try reflexivity; lra.
Qed.

Lemma bounds_test_true (p : vec3) :
  Spec.outOfBounds p ->
  (gtb (vz p) 1 || ltb (vx p) 0 || gtb (vx p) 1 || ltb (vy p) 0 || gtb (vy p) 1)%bool
  = true.
Proof.
  unfold Spec.outOfBounds, gtb. intros H.
  destruct (ltb_spec 1 (vz p)) as [[-> _] | [-> ?]]; [reflexivity |].
  destruct (ltb_spec (vx p) 0) as [[-> _] | [-> ?]]; [reflexivity |].
  destruct (ltb_spec 1 (vx p)) as [[-> _] | [-> ?]]; [reflexivity |].
  destruct (ltb_spec (vy p) 0) as [[-> _] | [-> ?]]; [reflexivity |].
  destruct (ltb_spec 1 (vy p)) as [[-> _] | [-> ?]]; [reflexivity |].
  lra.
Qed.

Lemma bounds_test_false (p : vec3) :
  Spec.inBounds p ->
  (gtb (vz p) 1 || ltb (vx p) 0 || gtb (vx p) 1 || ltb (vy p) 0 || gtb (vy p) 1)%bool
  = false.
Proof.
  unfold Spec.inBounds, gtb. intros H.
  rewrite !ltb_false by lra. reflexivity.
Qed.

(** C5.  Whenever the projected coordinates (after the perspective divide
    and the remap to [0,1]) lie outside [0,1] in x or in y, or have z > 1,
    [calculateShadow] returns exactly 1, whatever the depth map, [N], [L]
    and the bias setting. *)
Theorem calculateShadow_out_of_frustum (u : FragmentShaderSource.Uniforms)
  (lightSpacePos : vec4) (N L p : vec3) :
  FragmentShaderSource.projCoords lightSpacePos = Some p ->
  Spec.outOfBounds p ->
  FragmentShaderSource.calculateShadow u lightSpacePos N L = Some 1.
Proof.
  intros Hp Hout. unfold FragmentShaderSource.calculateShadow.
  destruct (FragmentShaderSource.uShadowEnabled u =? 0)%Z; [reflexivity |].
  rewrite Hp. simpl. rewrite bounds_test_true by exact Hout. reflexivity.
Qed.

(** The synthetic coordinate (1.5, 0.5, 0.5): clip-space (2, 0, 0, 1). *)
Lemma calculateShadow_out_of_frustum_witness :
  FragmentShaderSource.calculateShadow
    (Examples.sourceUniforms 0 (1/2) 0 (Vec3 0 (-1) 0) 1 0)
    (Vec4 2 0 0 1) Examples.axisY Examples.axisY = Some 1.
Proof.
  apply (calculateShadow_out_of_frustum _ (Vec4 2 0 0 1) _ _
           (vadd (vscale 0.5 (vdivc (Vec3 2 0 0) 1)) (splat 0.5))).
  - unfold FragmentShaderSource.projCoords. simpl.
    rewrite vdivs_some by lra. reflexivity.
  - unfold Spec.outOfBounds. simpl. lra.
Defined.

(** C6, as stated, fails: with shadow mapping switched off
    ([uShadowEnabled = 0]) [calculateShadow] returns 1 for an in-bounds
    coordinate all of whose 25 taps are occluded, where the PCF average is 0. *)
Lemma calculateShadow_disabled_ignores_taps :
  let u := Examples.sourceUniforms 0 (1/2) 0 (Vec3 0 (-1) 0) 0 0 in
  exists p : vec3,
    FragmentShaderSource.projCoords (Vec4 0 0 0 1) = Some p
    /\ Spec.inBounds p
    /\ FragmentShaderSource.calculateShadow u (Vec4 0 0 0 1) Examples.axisY Examples.axisY
       = Some 1
    /\ Spec.pcf (FragmentShaderSource.uShadowMap u) p
         (FragmentShaderSource.bias u Examples.axisY Examples.axisY) = 0.
Proof.
  intros u. exists (vadd (vscale 0.5 (vdivc (Vec3 0 0 0) 1)) (splat 0.5)).
  split; [| split; [| split]].
  - unfold FragmentShaderSource.projCoords. simpl.
    rewrite vdivs_some by lra. reflexivity.
  - unfold Spec.inBounds. simpl. lra.
  - reflexivity.
  - assert (Hb : FragmentShaderSource.bias u Examples.axisY Examples.axisY <= 0.0005).
    { unfold FragmentShaderSource.bias, dot, Rmax. simpl.
      destruct (Rle_dec _ _); lra. }
    assert (Hl : forall o, Spec.lit (FragmentShaderSource.uShadowMap u)
                             (vadd (vscale 0.5 (vdivc (Vec3 0 0 0) 1)) (splat 0.5))
                             (FragmentShaderSource.bias u Examples.axisY Examples.axisY) o = 0).
    { intros o. unfold Spec.lit. simpl. destruct (Rle_dec _ _); [lra | reflexivity]. }
    unfold Spec.pcf, Spec.offsets. simpl. rewrite !Hl. lra.
Qed.

(** With shadow mapping enabled, the in-bounds branch of [calculateShadow]
    computes the PCF average of the specification. *)
Lemma pcf_branch_of_calculateShadow (u : FragmentShaderSource.Uniforms)
  (lightSpacePos : vec4) (N L p : vec3) :
  FragmentShaderSource.uShadowEnabled u <> 0%Z ->
  FragmentShaderSource.projCoords lightSpacePos = Some p ->
  Spec.inBounds p ->
  FragmentShaderSource.calculateShadow u lightSpacePos N L
  = Some (Spec.pcf (FragmentShaderSource.uShadowMap u) p (FragmentShaderSource.bias u N L)).
Proof.
  intros Hen Hp Hin. unfold FragmentShaderSource.calculateShadow.
  destruct (Z.eqb_spec (FragmentShaderSource.uShadowEnabled u) 0) as [E | _];
    [contradiction |].
  rewrite Hp. cbn [bind]. rewrite bounds_test_false by exact Hin.
  unfold FragmentShaderSource.kernel. cbn [for_each bind].
  rewrite !pcfTap_lit.
  unfold Spec.pcf, Spec.offsets. cbn [flat_map map app fold_right].
  f_equal. lra.
Qed.

Lemma pcf_unit_interval (sm : FragmentShaderSource.sampler2D) (p : vec3) (b : R) :
  0 <= Spec.pcf sm p b <= 1.
Proof.
  pose proof (sum_unit_interval (Spec.lit sm p b) Spec.offsets
                (lit_unit_interval sm p b)) as H.
  unfold Spec.pcf. change (List.length Spec.offsets) with 25%nat in H.
  replace (INR 25) with 25 in H by (simpl; lra). lra.
Qed.

Lemma bounds_test_cases (p : vec3) :
  (gtb (vz p) 1 || ltb (vx p) 0 || gtb (vx p) 1 || ltb (vy p) 0 || gtb (vy p) 1)%bool
  = false -> Spec.inBounds p.
Proof.
  unfold gtb, Spec.inBounds.
  destruct (ltb_spec 1 (vz p)) as [[-> _] | [-> ?]]; [discriminate |].
  destruct (ltb_spec (vx p) 0) as [[-> _] | [-> ?]]; [discriminate |].
  destruct (ltb_spec 1 (vx p)) as [[-> _] | [-> ?]]; [discriminate |].
  destruct (ltb_spec (vy p) 0) as [[-> _] | [-> ?]]; [discriminate |].
  destruct (ltb_spec 1 (vy p)) as [[-> _] | [-> ?]]; [discriminate |].
  intros _. lra.
Qed.

(** Whatever [calculateShadow] returns is a fraction: the factor that [main]
    multiplies into [Lo] lies in [0,1]. *)
Lemma calculateShadow_unit_interval (u : FragmentShaderSource.Uniforms)
  (lightSpacePos : vec4) (N L : vec3) (s : R) :
  FragmentShaderSource.calculateShadow u lightSpacePos N L = Some s -> 0 <= s <= 1.
Proof.
  destruct (Z.eq_dec (FragmentShaderSource.uShadowEnabled u) 0) as [E | Hen].
  - unfold FragmentShaderSource.calculateShadow. rewrite E. cbn [Z.eqb].
    intros H. injection H as <-. lra.
  - destruct (FragmentShaderSource.projCoords lightSpacePos) as [p |] eqn:Hp.
    + destruct (gtb (vz p) 1 || ltb (vx p) 0 || gtb (vx p) 1
                || ltb (vy p) 0 || gtb (vy p) 1)%bool eqn:Ht.
      * unfold FragmentShaderSource.calculateShadow.
        destruct (_ =? 0)%Z; [intros H; injection H as <-; lra |].
        rewrite Hp. cbn [bind]. rewrite Ht. intros H. injection H as <-. lra.
      * rewrite (pcf_branch_of_calculateShadow u lightSpacePos N L p Hen Hp
                   (bounds_test_cases p Ht)).
        intros H. injection H as <-. apply pcf_unit_interval.
    + unfold FragmentShaderSource.calculateShadow.
      destruct (_ =? 0)%Z; [intros H; injection H as <-; lra |].
      rewrite Hp. discriminate.
Qed.

(** C6, amended.  With shadow mapping enabled, for every in-bounds projected
    coordinate [calculateShadow] returns 1/25 of the number of taps of the
    5 x 5 neighbourhood, at one-texel offsets, at which [currentDepth - bias]
    does not exceed the sampled depth, with
    [bias = max(uShadowBias (1 - N.L), 0.1 uShadowBias)]; the factor lies in
    [0,1] and is exactly 1 when no tap is occluded. *)
Theorem calculateShadow_pcf (u : FragmentShaderSource.Uniforms)
  (lightSpacePos : vec4) (N L p : vec3) :
  FragmentShaderSource.uShadowEnabled u <> 0%Z ->
  FragmentShaderSource.projCoords lightSpacePos = Some p ->
  Spec.inBounds p ->
  let sm := FragmentShaderSource.uShadowMap u in
  let b := Rmax (FragmentShaderSource.uShadowBias u * (1 - dot N L))
                (FragmentShaderSource.uShadowBias u * 0.1) in
  FragmentShaderSource.calculateShadow u lightSpacePos N L = Some (Spec.pcf sm p b)
  /\ 0 <= Spec.pcf sm p b <= 1
  /\ ((forall o, In o Spec.offsets -> Spec.lit sm p b o = 1) -> Spec.pcf sm p b = 1).
Proof.
  intros Hen Hp Hin sm b.
  split; [| split].
  - apply pcf_branch_of_calculateShadow; assumption.
  - apply pcf_unit_interval.
  - intros Hall. unfold Spec.pcf. rewrite sum_all_ones by exact Hall.
    change (List.length Spec.offsets) with 25%nat.
    replace (INR 25) with 25 by (simpl; lra). lra.
Qed.

(** A fragment at depth 1/2 under a depth map that holds 1 everywhere: no
    tap is occluded. *)
Lemma calculateShadow_pcf_witness :
  let u := Examples.sourceUniforms 0 (1/2) 0 (Vec3 0 (-1) 0) 1 1 in
  FragmentShaderSource.calculateShadow u (Vec4 0 0 0 1) Examples.axisY Examples.axisY
  = Some 1.
Proof.
  intros u.
  pose proof (calculateShadow_pcf u (Vec4 0 0 0 1) Examples.axisY Examples.axisY
                (vadd (vscale 0.5 (vdivc (Vec3 0 0 0) 1)) (splat 0.5))) as H.
  destruct H as (Heq & _ & Hone).
  - simpl. lia.
  - unfold FragmentShaderSource.projCoords. simpl.
    rewrite vdivs_some by lra. reflexivity.
  - unfold Spec.inBounds. simpl. lra.
  - rewrite Heq. f_equal. apply Hone.
    intros o _. unfold Spec.lit. simpl.
    assert (Hb : 0 <= Rmax (0.005 * (1 - dot Examples.axisY Examples.axisY)) (0.005 * 0.1)).
    { unfold Rmax. destruct (Rle_dec _ _); unfold dot; simpl; lra. }
    destruct (Rle_dec _ _); [reflexivity | lra].
Defined.

(** ** The GGX distribution and its roughness parameter *)

Lemma D_GGX_defined (NdotH a : R) :
  let divisor := Rmax 0.0001 (3.14159265 * ((NdotH * NdotH) * (a * a - 1) + 1)
                                         * ((NdotH * NdotH) * (a * a - 1) + 1)) in
  FragmentShader.D_GGX NdotH a = Some (a * a / divisor) /\ 0.0001 <= divisor.
Proof.
  intros divisor.
  assert (H : 0.0001 <= divisor) by apply Rmax_l.
  split; [| exact H].
  unfold FragmentShader.D_GGX. apply fdiv_some. lra.
Qed.

Lemma distributionGGX_defined (N H : vec3) (roughness : R) :
  let a := FragmentShaderSource.alpha roughness in
  let n := Rmax (dot N H) 0 in
  let divisor := Rmax (FragmentShaderSource.PI * (n * n * (a * a - 1) + 1)
                                               * (n * n * (a * a - 1) + 1)) 0.0001 in
  FragmentShaderSource.distributionGGX N H roughness = Some (a * a / divisor)
  /\ 0.0001 <= divisor.
Proof.
  intros a n divisor.
  assert (Hd : 0.0001 <= divisor) by apply Rmax_r.
  split; [| exact Hd].
  unfold FragmentShaderSource.distributionGGX. apply fdiv_some.
  fold a. fold n. fold divisor. lra.
Qed.

(** C3, as stated, fails in the shadow-mapped renderer's shader: at
    roughness 0 [distributionGGX] is evaluated with [alpha = 0], not with
    [max(0.001, 0)], and returns 0. *)
Lemma distributionGGX_alpha_unclamped :
  FragmentShaderSource.alpha 0 = 0
  /\ FragmentShaderSource.alpha 0 <> Rmax 0.001 (0 * 0)
  /\ FragmentShaderSource.distributionGGX Examples.axisY Examples.axisY 0 = Some 0.
Proof.
  assert (Ha : FragmentShaderSource.alpha 0 = 0)
    by (unfold FragmentShaderSource.alpha; ring).
  split; [exact Ha | split].
  - rewrite Ha. pose proof (Rmax_l 0.001 (0 * 0)). lra.
  - destruct (distributionGGX_defined Examples.axisY Examples.axisY 0) as [E Hd].
    rewrite E. f_equal. rewrite Ha. unfold Rdiv. ring.
Qed.

(** C3, amended.  In the planar-shadow renderer's shader the distribution is
    evaluated with [alpha = max(0.001, roughness^2)], which is at least
    0.001; in the shadow-mapped renderer's shader it is evaluated with
    [alpha = roughness^2], unclamped.  In both, the divisor of the GGX
    division is floored at 0.0001, so the division is defined and never
    divides by zero, for every roughness. *)
Theorem GGX_alpha_and_divisor (u : FragmentShader.Uniforms) (NdotH : R)
  (N H : vec3) (roughness : R) :
  (FragmentShader.alpha u
   = Rmax 0.001 (FragmentShader.uRoughness u * FragmentShader.uRoughness u)
   /\ 0.001 <= FragmentShader.alpha u
   /\ exists d divisor : R,
        FragmentShader.D_GGX NdotH (FragmentShader.alpha u) = Some d
        /\ d = FragmentShader.alpha u * FragmentShader.alpha u / divisor
        /\ 0.0001 <= divisor)
  /\ (FragmentShaderSource.alpha roughness = roughness * roughness
      /\ exists d divisor : R,
           FragmentShaderSource.distributionGGX N H roughness = Some d
           /\ d = FragmentShaderSource.alpha roughness
                  * FragmentShaderSource.alpha roughness / divisor
           /\ 0.0001 <= divisor).
Proof.
  split.
  - split; [reflexivity | split; [apply Rmax_l |]].
    destruct (D_GGX_defined NdotH (FragmentShader.alpha u)) as [E Hd].
    eexists. eexists. split; [exact E | split; [reflexivity | exact Hd]].
  - split; [reflexivity |].
    destruct (distributionGGX_defined N H roughness) as [E Hd].
    eexists. eexists. split; [exact E | split; [reflexivity | exact Hd]].
Qed.

(** ** The Smith geometry term *)

Lemma kDirect_range (r : R) : 0 <= r <= 1 -> 1 / 8 <= Spec.kDirect r <= 1 / 2.
Proof. intros H. unfold Spec.kDirect. simpl. nra. Qed.

Lemma G1_divisor_pos (x k : R) : 0 <= x -> 0 < k <= 1 -> 0 < x * (1 - k) + k.
Proof. intros Hx Hk. nra. Qed.

Lemma G1_nonneg (x k : R) : 0 <= x -> 0 < k <= 1 -> 0 <= Spec.G1 x k.
Proof.
  intros Hx Hk. unfold Spec.G1.
  apply Rmult_le_pos; [exact Hx |].
  apply Rlt_le, Rinv_0_lt_compat, G1_divisor_pos; assumption.
Qed.

Lemma G1_zero (k : R) : Spec.G1 0 k = 0.
Proof. unfold Spec.G1, Rdiv. ring. Qed.

Lemma G_SchlickGGX_eq (x k : R) :
  0 <= x -> 0 < k <= 1 -> FragmentShader.G_SchlickGGX x k = Some (Spec.G1 x k).
Proof.
  intros Hx Hk. unfold FragmentShader.G_SchlickGGX.
  pose proof (G1_divisor_pos x k Hx Hk). apply fdiv_some. lra.
Qed.

(** [G_Smith] computes Smith's term from whatever it is given as its third
    argument. *)
Lemma G_Smith_eq (NdotV NdotL r : R) :
  0 <= NdotV -> 0 <= NdotL -> 0 <= r <= 1 ->
  FragmentShader.G_Smith NdotV NdotL r = Some (Spec.smith NdotV NdotL r).
Proof.
  intros Hv Hl Hr. unfold FragmentShader.G_Smith.
  pose proof (kDirect_range r Hr) as Hk.
  replace ((r + 1) * (r + 1) / 8) with (Spec.kDirect r)
    by (unfold Spec.kDirect; simpl; field).
  rewrite !G_SchlickGGX_eq by lra. reflexivity.
Qed.

Lemma geometrySmith_eq (N V L : vec3) (r : R) :
  0 <= r <= 1 ->
  FragmentShaderSource.geometrySmith N V L r
  = Some (Spec.smith (Rmax (dot N V) 0) (Rmax (dot N L) 0) r).
Proof.
  intros Hr. unfold FragmentShaderSource.geometrySmith,
    FragmentShaderSource.geometrySchlickGGX.
  pose proof (kDirect_range r Hr) as Hk.
  replace ((r + 1) * (r + 1) / 8) with (Spec.kDirect r)
    by (unfold Spec.kDirect; simpl; field).
  pose proof (Rmax_r (dot N V) 0) as Hv. pose proof (Rmax_r (dot N L) 0) as Hl.
  pose proof (G1_divisor_pos _ (Spec.kDirect r) Hv ltac:(lra)).
  pose proof (G1_divisor_pos _ (Spec.kDirect r) Hl ltac:(lra)).
  rewrite !fdiv_some by lra. reflexivity.
Qed.

Lemma alpha_range (u : FragmentShader.Uniforms) :
  0 <= FragmentShader.uRoughness u <= 1 -> 0.001 <= FragmentShader.alpha u <= 1.
Proof.
  intros H. unfold FragmentShader.alpha, Rmax.
  destruct (Rle_dec _ _); nra.
Qed.

Lemma evaluateBRDF_G_eq (u : FragmentShader.Uniforms) (N V L : vec3) :
  0 <= FragmentShader.uRoughness u <= 1 ->
  FragmentShader.evaluateBRDF_G u N V L
  = Some (Spec.smith (clamp (dot N V) 0 1) (clamp (dot N L) 0 1) (FragmentShader.alpha u)).
Proof.
  intros Hr. unfold FragmentShader.evaluateBRDF_G.
  pose proof (alpha_range u Hr).
  pose proof (clamp_range (dot N V) 0 1 ltac:(lra)).
  pose proof (clamp_range (dot N L) 0 1 ltac:(lra)).
  apply G_Smith_eq; lra.
Qed.

(** C2 at roughness 1/2, with [N.V = N.L = 0.8]: the planar-shadow
    renderer's [evaluateBRDF] hands [alpha = roughness^2 = 1/4] to [G_Smith],
    so its geometry term is Smith's term for [k = (1/4 + 1)^2 / 8], which
    differs from the term for [k = (1/2 + 1)^2 / 8] that the shadow-mapped
    renderer's [geometrySmith] computes. *)
Theorem evaluateBRDF_G_remaps_alpha :
  let u := Examples.mainUniforms 0 (1/2) in
  let N := Examples.axisY in
  let V := Vec3 0.6 0.8 0 in
  dot N N = 1 /\ dot V V = 1
  /\ FragmentShader.evaluateBRDF_G u N V V = Some (Spec.smith 0.8 0.8 (1/4))
  /\ FragmentShaderSource.geometrySmith N V V (1/2) = Some (Spec.smith 0.8 0.8 (1/2))
  /\ Spec.smith 0.8 0.8 (1/4) <> Spec.smith 0.8 0.8 (1/2).
Proof.
  intros u N V.
  assert (Hd : dot N V = 0.8) by (unfold dot; simpl; lra).
  split; [unfold dot; simpl; lra |].
  split; [unfold dot; simpl; lra |].
  split; [| split].
  - rewrite evaluateBRDF_G_eq by (simpl; lra).
    rewrite Hd, clamp_id by lra.
    replace (FragmentShader.alpha u) with (1/4); [reflexivity |].
    unfold FragmentShader.alpha, Rmax. simpl.
    destruct (Rle_dec _ _); lra.
  - rewrite geometrySmith_eq by lra. rewrite Hd.
    replace (Rmax 0.8 0) with 0.8; [reflexivity |].
    unfold Rmax. destruct (Rle_dec _ _); lra.
  - unfold Spec.smith, Spec.G1, Spec.kDirect. lra.
Qed.

(** ** The spot light's cone *)

Lemma hermite_range (t : R) : 0 <= t <= 1 -> 0 <= Spec.hermite t <= 1.
Proof.
  intros H. unfold Spec.hermite.
  assert (0 <= t * t * (3 - 2 * t))
    by (apply Rmult_le_pos; [apply Rmult_le_pos |]; lra).
  assert (E : 1 - t * t * (3 - 2 * t) = (1 - t) * (1 - t) * (1 + 2 * t)) by ring.
  assert (0 <= (1 - t) * (1 - t) * (1 + 2 * t))
    by (apply Rmult_le_pos; [apply Rmult_le_pos |]; lra).
  lra.
Qed.

Lemma hermite_mono (s t : R) :
  0 <= s -> s <= t -> t <= 1 -> Spec.hermite s <= Spec.hermite t.
Proof.
  intros H0 Hst H1. unfold Spec.hermite.
  assert (E : t * t * (3 - 2 * t) - s * s * (3 - 2 * s)
              = (t - s) * (s * (3 - 2 * s - t) + t * (3 - 2 * t - s))) by ring.
  assert (0 <= (t - s) * (s * (3 - 2 * s - t) + t * (3 - 2 * t - s))).
  { apply Rmult_le_pos; [lra |]. apply Rplus_le_le_0_compat; apply Rmult_le_pos; lra. }
  lra.
Qed.

Lemma smoothstep_some (e0 e1 x : R) :
  e0 < e1 ->
  smoothstep e0 e1 x = Some (Spec.hermite (clamp ((x - e0) / (e1 - e0)) 0 1)).
Proof.
  intros H. unfold smoothstep. destruct (Rlt_dec e0 e1); [reflexivity | contradiction].
Qed.

Lemma smoothstep_undefined (e0 e1 x : R) : e1 <= e0 -> smoothstep e0 e1 x = None.
Proof.
  intros H. unfold smoothstep. destruct (Rlt_dec e0 e1); [lra | reflexivity].
Qed.

Lemma ramp_below (e0 e1 x : R) : e0 < e1 -> x <= e0 -> (x - e0) / (e1 - e0) <= 0.
Proof.
  intros H Hx. unfold Rdiv.
  assert (0 < / (e1 - e0)) by (apply Rinv_0_lt_compat; lra). nra.
Qed.

Lemma ramp_above (e0 e1 x : R) : e0 < e1 -> e1 <= x -> 1 <= (x - e0) / (e1 - e0).
Proof.
  intros H Hx.
  replace 1 with ((e1 - e0) / (e1 - e0)) by (field; lra).
  unfold Rdiv. apply Rmult_le_compat_r; [| lra].
  apply Rlt_le, Rinv_0_lt_compat. lra.
Qed.

Lemma ramp_mono (e0 e1 x y : R) :
  e0 < e1 -> x <= y -> (x - e0) / (e1 - e0) <= (y - e0) / (e1 - e0).
Proof.
  intros H Hxy. unfold Rdiv. apply Rmult_le_compat_r; [| lra].
  apply Rlt_le, Rinv_0_lt_compat. lra.
Qed.

(** What [smoothstep] does between proper edges: 0 at and below [e0], 1 at
    and above [e1], a value of [0,1] everywhere, non-decreasing in [x]. *)
Lemma smoothstep_shape (e0 e1 x : R) :
  e0 < e1 ->
  exists s : R,
    smoothstep e0 e1 x = Some s
    /\ s = Spec.hermite (clamp ((x - e0) / (e1 - e0)) 0 1)
    /\ 0 <= s <= 1
    /\ (x <= e0 -> s = 0)
    /\ (e1 <= x -> s = 1)
    /\ (forall y s', x <= y -> smoothstep e0 e1 y = Some s' -> s <= s').
Proof.
  intros H. eexists. split; [apply smoothstep_some, H |].
  split; [reflexivity |].
  pose proof (clamp_range ((x - e0) / (e1 - e0)) 0 1 ltac:(lra)) as Hc.
  split; [apply hermite_range, Hc |].
  split; [| split].
  - intros Hx. rewrite clamp_below; [unfold Spec.hermite; ring | | lra].
    apply ramp_below; assumption.
  - intros Hx. rewrite clamp_above; [unfold Spec.hermite; ring | | lra].
    apply ramp_above; assumption.
  - intros y s' Hxy E. rewrite smoothstep_some in E by exact H.
    injection E as <-.
    pose proof (clamp_range ((y - e0) / (e1 - e0)) 0 1 ltac:(lra)) as Hy.
    apply hermite_mono; try lra.
    apply clamp_mono, ramp_mono; assumption.
Qed.

(** C8, as stated, fails in the planar-shadow renderer's shader, where
    [uSpotAngle] is the cosine of the cone angle and the softness is added to
    that cosine: a direction with [cosTheta = 0.8], strictly inside the cone
    whose cosine is [uSpotAngle = 0.7], gets the factor 1/2, not 1. *)
Lemma spotAttenuation_inside_cone_not_full :
  let u := Examples.mainUniforms 0 (1/2) in
  let L := Vec3 0.6 0.8 0 in
  let dir := Vec3 0 (-1) 0 in
  dot L L = 1
  /\ normalize (vneg dir) = Some (vneg dir)
  /\ FragmentShader.uSpotAngle u < dot (vneg dir) L
  /\ FragmentShader.spotAttenuation u L dir = Some (1/2)
  /\ Some (1/2) <> Some 1.
Proof.
  intros u L dir.
  assert (Hn : normalize (vneg dir) = Some (vneg dir))
    by (apply normalize_of_unit; unfold dot; simpl; lra).
  assert (Hd : dot (vneg dir) L = 0.8) by (unfold dot; simpl; lra).
  split; [unfold dot; simpl; lra |].
  split; [exact Hn |].
  split; [rewrite Hd; simpl; lra |].
  split.
  - unfold FragmentShader.spotAttenuation. rewrite Hn. cbn [bind].
    rewrite Hd. simpl FragmentShader.uSpotAngle. simpl FragmentShader.uSpotSoftness.
    rewrite smoothstep_some by lra. f_equal.
    replace ((0.8 - 0.7) / (0.7 + 0.2 - 0.7)) with (1/2) by lra.
    rewrite clamp_id by lra. unfold Spec.hermite. lra.
  - intros E. injection E as E. lra.
Qed.

(** C8, amended.  The cone-edge factor is a [smoothstep] of
    [cosTheta = dot(L, normalize(-direction))]: a Hermite cubic that is 0 at
    and below the outer cutoff, 1 at and above the inner cutoff, and
    non-decreasing in [cosTheta] between them.  In the planar-shadow
    renderer's shader the cutoffs are [uSpotAngle] (a cosine) and
    [uSpotAngle + uSpotSoftness], for a positive softness.  In the
    shadow-mapped renderer's shader they are [cos(halfAngle + softness)] and
    [cos(halfAngle)] with [halfAngle = uSpotAngle / 2], for
    [0 <= halfAngle], [0 < softness] and [halfAngle + softness <= pi].  In
    both shaders the factor multiplies the inverse-square attenuation
    [1 / dist^2] of the point light. *)
Theorem spot_cone_factor :
  (forall (u : FragmentShader.Uniforms) (L dir n : vec3),
     normalize (vneg dir) = Some n ->
     0 < FragmentShader.uSpotSoftness u ->
     let e0 := FragmentShader.uSpotAngle u in
     let e1 := FragmentShader.uSpotAngle u + FragmentShader.uSpotSoftness u in
     exists s : R,
       FragmentShader.spotAttenuation u L dir = Some s
       /\ s = Spec.hermite (clamp ((dot n L - e0) / (e1 - e0)) 0 1)
       /\ 0 <= s <= 1
       /\ (dot n L <= e0 -> s = 0)
       /\ (e1 <= dot n L -> s = 1)
       /\ (forall L' s', dot n L <= dot n L' ->
             FragmentShader.spotAttenuation u L' dir = Some s' -> s <= s'))
  /\ (forall (u : FragmentShader.Uniforms) (P N V : vec3),
        FragmentShader.uLightType u = 2%Z ->
        let lightVec := vsub (FragmentShader.uLightPos u) P in
        let dist := Rmax 0.001 (length lightVec) in
        FragmentShader.computeLighting u P N V
        = (L <- vdivs lightVec dist ;;
           s <- FragmentShader.spotAttenuation u L (FragmentShader.uLightDir u) ;;
           c <- FragmentShader.evaluateBRDF u N V L
                  (FragmentShader.radianceOf u (s * (1 / (dist * dist)))) ;;
           Some (vadd (vscale 0.03 (FragmentShader.uAlbedo u)) (vadd (splat 0) c))))
  /\ (forall (u : FragmentShaderSource.Uniforms) (P : vec3),
        FragmentShaderSource.uLightType u = 2%Z ->
        let lightVec := vsub (FragmentShaderSource.uLightPosition u) P in
        let halfAngle := FragmentShaderSource.uSpotAngle u * 0.5 in
        let softness := FragmentShaderSource.uSpotSoftness u in
        lightVec <> Vec3 0 0 0 ->
        FragmentShaderSource.uLightDirection u <> Vec3 0 0 0 ->
        0 <= halfAngle -> 0 < softness -> halfAngle + softness <= Rtrigo1.PI ->
        exists (L d : vec3) (s : R),
          normalize lightVec = Some L
          /\ normalize (vneg (FragmentShaderSource.uLightDirection u)) = Some d
          /\ FragmentShaderSource.calculateLight u P
             = Some (L, s / (length lightVec * length lightVec))
          /\ s = Spec.hermite
                   (clamp ((dot L d - cos (halfAngle + softness))
                           / (cos halfAngle - cos (halfAngle + softness))) 0 1)
          /\ 0 <= s <= 1
          /\ (dot L d <= cos (halfAngle + softness) -> s = 0)
          /\ (cos halfAngle <= dot L d -> s = 1)
          /\ (forall theta' s', dot L d <= theta' ->
                smoothstep (cos (halfAngle + softness)) (cos halfAngle) theta' = Some s' ->
                s <= s')).
Proof.
  split; [| split].
  - intros u L dir n Hn Hs e0 e1.
    assert (He : e0 < e1) by (unfold e0, e1; lra).
    destruct (smoothstep_shape e0 e1 (dot n L) He) as (s & E & Hs1 & Hs2 & Hs3 & Hs4 & Hs5).
    exists s. unfold FragmentShader.spotAttenuation. rewrite Hn. cbn [bind].
    repeat split; auto; try lra.
    intros L' s' HL E'. apply (Hs5 (dot n L') s' HL). exact E'.
  - intros u P N V Ht lightVec dist.
    unfold FragmentShader.computeLighting. rewrite Ht. cbn [Z.eqb Pos.eqb].
    fold lightVec. fold dist.
    assert (Hd : 0.001 <= dist) by apply Rmax_l.
    destruct (vdivs lightVec dist) as [L |]; [| reflexivity]. cbn [bind].
    destruct (FragmentShader.spotAttenuation u L (FragmentShader.uLightDir u)) as [s |];
      [| reflexivity].
    cbn [bind]. rewrite fdiv_some by nra. cbn [bind].
    destruct (FragmentShader.evaluateBRDF _ _ _ _ _); reflexivity.
  - intros u P Ht lightVec halfAngle softness Hlv Hdir Hh Hs Hpi.
    destruct (normalize_some lightVec Hlv) as [EL HlenL].
    assert (Hnd : vneg (FragmentShaderSource.uLightDirection u) <> Vec3 0 0 0).
    { intros E. apply Hdir. destruct (FragmentShaderSource.uLightDirection u) as [x y z].
      unfold vneg in E. simpl in E. injection E as Ex Ey Ez.
      f_equal; lra. }
    destruct (normalize_some _ Hnd) as [Ed _].
    assert (Hcos : cos (halfAngle + softness) < cos halfAngle)
      by (apply cos_decreasing_1; lra).
    destruct (smoothstep_shape _ _ (dot (vdivc lightVec (length lightVec))
               (vdivc (vneg (FragmentShaderSource.uLightDirection u))
                      (length (vneg (FragmentShaderSource.uLightDirection u))))) Hcos)
      as (s & E & Hs1 & Hs2 & Hs3 & Hs4 & Hs5).
    eexists. eexists. exists s.
    split; [exact EL | split; [exact Ed |]].
    split.
    + unfold FragmentShaderSource.calculateLight. rewrite Ht. cbn [Z.eqb Pos.eqb].
      fold lightVec. rewrite EL, Ed. cbn [bind].
      fold halfAngle. fold softness. rewrite E. cbn [bind].
      rewrite fdiv_some by nra. reflexivity.
    + repeat split; auto; lra.
Qed.

Lemma spot_cone_factor_witness :
  exists s : R,
    FragmentShader.spotAttenuation (Examples.mainUniforms 0 (1/2))
      (Vec3 0.6 0.8 0) (Vec3 0 (-1) 0) = Some s
    /\ 0 <= s <= 1.
Proof.
  destruct (proj1 spot_cone_factor (Examples.mainUniforms 0 (1/2))
              (Vec3 0.6 0.8 0) (Vec3 0 (-1) 0) (vneg (Vec3 0 (-1) 0)))
    as (s & E & _ & Hs & _).
  - apply normalize_of_unit. unfold dot. simpl. lra.
  - simpl. lra.
  - exists s. split; [exact E | exact Hs].
Defined.

(** ** The tangent basis of the area light *)

Lemma dot_cross_left (a b : vec3) : dot (cross a b) a = 0.
Proof. unfold dot, cross. simpl. ring. Qed.

Lemma dot_cross_right (a b : vec3) : dot (cross a b) b = 0.
Proof. unfold dot, cross. simpl. ring. Qed.

Lemma dot_comm (a b : vec3) : dot a b = dot b a.
Proof. unfold dot. ring. Qed.

(** Lagrange's identity. *)
Lemma cross_norm (a b : vec3) :
  dot (cross a b) (cross a b) = dot a a * dot b b - dot a b * dot a b.
Proof. unfold dot, cross. simpl. ring. Qed.

Lemma cross_vdivc_r (a b : vec3) (s : R) : cross a (vdivc b s) = vdivc (cross a b) s.
Proof. unfold cross, vdivc. simpl. f_equal; unfold Rdiv; ring. Qed.

(** The helper vector [up] is never parallel to a unit [n]. *)
Lemma up_cross_nonzero (n : vec3) :
  dot n n = 1 ->
  let up := if ltb (Rabs (vy n)) 0.999 then Vec3 0 1 0 else Vec3 1 0 0 in
  0 < dot (cross up n) (cross up n).
Proof.
  intros Hn up. unfold up.
  destruct (ltb_spec (Rabs (vy n)) 0.999) as [[-> Hy] | [-> Hy]];
    destruct n as [x y z]; unfold dot, cross in *; simpl in *.
  - assert (-0.999 < y < 0.999) by (apply Rabs_def2 in Hy; lra). nra.
  - assert (0.999 * 0.999 <= y * y).
    { unfold Rabs in Hy. destruct (Rcase_abs y); nra. }
    nra.
Qed.

Lemma basisFromDir_orthonormal (n : vec3) :
  dot n n = 1 ->
  exists t b : vec3,
    FragmentShader.basisFromDir n = Some (t, b)
    /\ dot t t = 1 /\ dot b b = 1
    /\ dot t n = 0 /\ dot b n = 0 /\ dot t b = 0.
Proof.
  intros Hn. unfold FragmentShader.basisFromDir.
  pose proof (up_cross_nonzero n Hn) as Hc. cbv zeta in Hc.
  set (up := if ltb (Rabs (vy n)) 0.999 then Vec3 0 1 0 else Vec3 1 0 0) in *.
  assert (Hnz : cross up n <> Vec3 0 0 0).
  { intros E. rewrite E in Hc. unfold dot in Hc. simpl in Hc. lra. }
  destruct (normalize_some _ Hnz) as [Et Hlen].
  rewrite Et. cbn [bind].
  pose proof (normalize_unit _ _ Et) as Htt.
  set (t := vdivc (cross up n) (length (cross up n))) in *.
  assert (Htn : dot t n = 0).
  { unfold t. rewrite dot_vdivc_l, dot_cross_right. unfold Rdiv. ring. }
  exists t, (cross n t).
  split; [reflexivity |].
  split; [exact Htt |].
  split; [rewrite cross_norm, Hn, Htt, (dot_comm n t), Htn; ring |].
  split; [exact Htn |].
  split; [apply dot_cross_left |].
  rewrite dot_comm. apply dot_cross_right.
Qed.

Lemma length_one_iff (v : vec3) : length v = 1 <-> dot v v = 1.
Proof.
  split.
  - intros H. rewrite <- length_sqr, H. ring.
  - intros H. apply length_of_square; lra.
Qed.

(** C10.  For every unit vector [n], [basisFromDir(n)] returns [t] and [b]
    such that [(t, b, n)] is orthonormal: [|t| = |b| = 1] and
    [t.n = b.n = t.b = 0]. *)
Theorem basisFromDir_is_orthonormal (n : vec3) :
  length n = 1 ->
  exists t b : vec3,
    FragmentShader.basisFromDir n = Some (t, b)
    /\ length t = 1 /\ length b = 1
    /\ dot t n = 0 /\ dot b n = 0 /\ dot t b = 0.
Proof.
  intros Hn. apply length_one_iff in Hn.
  destruct (basisFromDir_orthonormal n Hn) as (t & b & E & Ht & Hb & H1 & H2 & H3).
  exists t, b. rewrite !length_one_iff. auto 10.
Qed.

Lemma basisFromDir_is_orthonormal_witness :
  exists t b : vec3,
    FragmentShader.basisFromDir Examples.axisY = Some (t, b)
    /\ length t = 1 /\ length b = 1
    /\ dot t Examples.axisY = 0 /\ dot b Examples.axisY = 0 /\ dot t b = 0.
Proof.
  apply (basisFromDir_is_orthonormal Examples.axisY).
  apply length_one_iff. unfold dot. simpl. lra.
Defined.

(** ** The Cook-Torrance evaluation *)

Lemma mix_unit (a m : R) : 0 <= a <= 1 -> 0 <= m <= 1 -> 0 <= mix 0.04 a m <= 1.
Proof. intros Ha Hm. unfold mix. nra. Qed.

Lemma F0_unit (albedo : vec3) (m : R) :
  Spec.unit3 albedo -> 0 <= m <= 1 -> Spec.unit3 (vmix (splat 0.04) albedo m).
Proof.
  intros (Hx & Hy & Hz) Hm. unfold Spec.unit3, vmix, splat. simpl.
  repeat split; apply mix_unit; assumption.
Qed.

Lemma pow5_unit (x : R) : 0 <= x <= 1 -> 0 <= x ^ 5 <= 1.
Proof.
  intros H. split.
  - apply pow_le. lra.
  - rewrite <- (pow1 5). apply pow_incr. exact H.
Qed.

(** Schlick's value lies between [F0] and 1. *)
Lemma schlick_unit (F0 : vec3) (p : R) :
  Spec.unit3 F0 -> 0 <= p <= 1 ->
  Spec.unit3 (vadd F0 (vscale p (vsub (splat 1) F0))).
Proof.
  intros (Hx & Hy & Hz) Hp. unfold Spec.unit3, vadd, vscale, vsub, splat. simpl.
  repeat split; nra.
Qed.

Lemma fresnelSchlick_eq (cosTheta : R) (F0 : vec3) :
  0 <= cosTheta <= 1 ->
  FragmentShader.fresnelSchlick cosTheta F0
  = Some (vadd F0 (vscale ((1 - cosTheta) ^ 5) (vsub (splat 1) F0))).
Proof.
  intros H. unfold FragmentShader.fresnelSchlick.
  rewrite pow_some by lra. reflexivity.
Qed.

Lemma fresnelSchlick_source_eq (cosTheta : R) (F0 : vec3) :
  FragmentShaderSource.fresnelSchlick cosTheta F0
  = Some (vadd F0 (vscale ((clamp (1 - cosTheta) 0 1) ^ 5) (vsub (splat 1) F0))).
Proof.
  unfold FragmentShaderSource.fresnelSchlick.
  pose proof (clamp_range (1 - cosTheta) 0 1 ltac:(lra)).
  rewrite pow_some by lra. reflexivity.
Qed.

Lemma smith_nonneg (a b r : R) :
  0 <= a -> 0 <= b -> 0 <= r <= 1 -> 0 <= Spec.smith a b r.
Proof.
  intros Ha Hb Hr. pose proof (kDirect_range r Hr).
  unfold Spec.smith. apply Rmult_le_pos; apply G1_nonneg; lra.
Qed.

Lemma ratio_nonneg (a d : R) : 0 <= a -> 0 < d -> 0 <= a / d.
Proof.
  intros Ha Hd. unfold Rdiv. apply Rmult_le_pos; [exact Ha |].
  apply Rlt_le, Rinv_0_lt_compat, Hd.
Qed.

(** The sum of the Lambert and the specular lobe, weighted by the radiance
    and a non-negative cosine, is non-negative in every channel. *)
Lemma lobes_nonneg (m s D G denom piv : R) (F albedo radiance : vec3) :
  0 <= m <= 1 -> 0 <= s -> 0 <= D -> 0 <= G -> 0 < denom -> 0 < piv ->
  Spec.unit3 F -> Spec.unit3 albedo -> Spec.nonneg3 radiance ->
  Spec.nonneg3
    (vscale s (vmul (vadd (vdivc (vmul (vscale (1 - m) (vsub (splat 1) F)) albedo) piv)
                          (vdivc (vscale (D * G) F) denom))
                    radiance)).
Proof.
  intros Hm Hs HD HG Hden Hpi (Fx & Fy & Fz) (Ax & Ay & Az) (Rx & Ry & Rz).
  assert (HDG : 0 <= D * G) by (apply Rmult_le_pos; assumption).
  unfold Spec.nonneg3, vscale, vmul, vadd, vdivc, vsub, splat. simpl.
  repeat split;
    (apply Rmult_le_pos; [exact Hs |];
     apply Rmult_le_pos; [| assumption];
     apply Rplus_le_le_0_compat; apply ratio_nonneg; try assumption;
     repeat (apply Rmult_le_pos; try lra)).
Qed.

Lemma vscale_zero (v : vec3) : vscale 0 v = Vec3 0 0 0.
Proof. unfold vscale. f_equal; ring. Qed.

Lemma vscale_nonneg (s : R) (v : vec3) :
  0 <= s -> Spec.nonneg3 v -> Spec.nonneg3 (vscale s v).
Proof.
  intros Hs (Hx & Hy & Hz). unfold Spec.nonneg3, vscale. simpl.
  repeat split; apply Rmult_le_pos; assumption.
Qed.

(** [evaluateBRDF] is defined as soon as the half vector is, and is then
    non-negative, and zero when the light is at or below the horizon. *)
Lemma evaluateBRDF_defined (u : FragmentShader.Uniforms) (N V L radiance : vec3) :
  vadd V L <> Vec3 0 0 0 ->
  Spec.validMaterial (FragmentShader.uAlbedo u) (FragmentShader.uRoughness u)
                     (FragmentShader.uMetallic u) ->
  Spec.nonneg3 radiance ->
  exists v : vec3,
    FragmentShader.evaluateBRDF u N V L radiance = Some v
    /\ Spec.nonneg3 v
    /\ (dot N L <= 0 -> v = Vec3 0 0 0).
Proof.
  intros HVL (Halb & Hr & Hm) Hrad.
  destruct (normalize_some _ HVL) as [EH _].
  unfold FragmentShader.evaluateBRDF. rewrite EH. cbn [bind].
  set (H := vdivc (vadd V L) (length (vadd V L))).
  destruct (D_GGX_defined (clamp (dot N H) 0 1) (FragmentShader.alpha u)) as [ED HDd].
  rewrite ED. cbn [bind].
  rewrite evaluateBRDF_G_eq by exact Hr. cbn [bind].
  pose proof (clamp_range (dot V H) 0 1 ltac:(lra)) as Hvh.
  pose proof (clamp_range (dot N V) 0 1 ltac:(lra)) as Hnv.
  pose proof (clamp_range (dot N L) 0 1 ltac:(lra)) as Hnl.
  rewrite fresnelSchlick_eq by exact Hvh. cbn [bind].
  assert (Hden : 0.001 <= Rmax 0.001 (4 * clamp (dot N V) 0 1 * clamp (dot N L) 0 1))
    by apply Rmax_l.
  rewrite vdivs_some by lra. cbn [bind].
  eexists. split; [reflexivity |]. split.
  - unfold FragmentShader.kD, FragmentShader.kS.
    pose proof (alpha_range u Hr) as Ha.
    apply lobes_nonneg; try assumption; try lra.
    + apply ratio_nonneg; [nra | lra].
    + apply smith_nonneg; lra.
    + apply schlick_unit; [apply F0_unit; assumption |].
      apply pow5_unit. lra.
  - intros Hle. rewrite (clamp_below (dot N L)) by lra. apply vscale_zero.
Qed.

Lemma Lo_defined (u : FragmentShaderSource.Uniforms) (N V L radiance : vec3)
  (shadow : R) :
  vadd V L <> Vec3 0 0 0 ->
  Spec.validMaterial (FragmentShaderSource.uAlbedo u) (FragmentShaderSource.uRoughness u)
                     (FragmentShaderSource.uMetallic u) ->
  Spec.nonneg3 radiance ->
  0 <= shadow ->
  exists v : vec3,
    FragmentShaderSource.Lo u N V L radiance shadow = Some v
    /\ Spec.nonneg3 v
    /\ (dot N L <= 0 -> v = Vec3 0 0 0).
Proof.
  intros HVL (Halb & Hr & Hm) Hrad Hsh.
  destruct (normalize_some _ HVL) as [EH _].
  unfold FragmentShaderSource.Lo. rewrite EH. cbn [bind].
  set (H := vdivc (vadd V L) (length (vadd V L))).
  destruct (distributionGGX_defined N H (FragmentShaderSource.uRoughness u)) as [ED HDd].
  rewrite ED. cbn [bind].
  rewrite geometrySmith_eq by exact Hr. cbn [bind].
  rewrite fresnelSchlick_source_eq. cbn [bind].
  pose proof (Rmax_r (dot N V) 0) as Hnv.
  pose proof (Rmax_r (dot N L) 0) as Hnl.
  assert (Hden : 0 < 4 * Rmax (dot N V) 0 * Rmax (dot N L) 0 + 0.0001) by nra.
  rewrite vdivs_some by lra. cbn [bind].
  eexists. split; [reflexivity |]. split.
  - apply vscale_nonneg; [exact Hsh |].
    unfold FragmentShaderSource.kD, FragmentShaderSource.kS.
    apply lobes_nonneg; try assumption; try lra.
    + apply ratio_nonneg; [| lra].
      unfold FragmentShaderSource.alpha. nra.
    + apply smith_nonneg; lra.
    + unfold FragmentShaderSource.PI. lra.
    + apply schlick_unit; [apply F0_unit; assumption |].
      apply pow5_unit, clamp_range. lra.
  - intros Hle.
    replace (Rmax (dot N L) 0) with 0
      by (unfold Rmax; destruct (Rle_dec _ _); lra).
    rewrite vscale_zero. unfold vscale. simpl. f_equal; ring.
Qed.

(** With opposite view and light directions ([V = -L]) the half vector is
    [normalize] of the zero vector, which GLSL leaves undefined, and with it
    the result of both shaders, whatever the normal, the material, the
    radiance and the shadow factor are. *)
Lemma opposite_directions_undefined (u : FragmentShader.Uniforms)
  (u' : FragmentShaderSource.Uniforms) (N V L radiance : vec3) (shadow : R) :
  vadd V L = Vec3 0 0 0 ->
  FragmentShader.evaluateBRDF u N V L radiance = None
  /\ FragmentShaderSource.Lo u' N V L radiance shadow = None.
Proof.
  intros E. unfold FragmentShader.evaluateBRDF, FragmentShaderSource.Lo.
  rewrite E, normalize_zero. split; reflexivity.
Qed.

(** C1 at [N = V = (0, 1, 0)], [L = (0, -1, 0)]: three unit vectors with
    [N.L <= 0] for which neither shader has a defined result. *)
Lemma brdf_undefined_for_opposite_directions :
  let N := Examples.axisY in
  let V := Examples.axisY in
  let L := Vec3 0 (-1) 0 in
  dot N N = 1 /\ dot V V = 1 /\ dot L L = 1 /\ dot N L <= 0
  /\ FragmentShader.evaluateBRDF (Examples.mainUniforms 0 (1/2)) N V L (Vec3 1 1 1) = None
  /\ FragmentShaderSource.Lo (Examples.sourceUniforms 0 (1/2) 0 (Vec3 0 (-1) 0) 0 1)
       N V L (Vec3 1 1 1) 1 = None.
Proof.
  intros N V L.
  assert (E : vadd V L = Vec3 0 0 0) by (unfold vadd; simpl; f_equal; lra).
  repeat split; try (unfold dot; simpl; lra);
    apply (opposite_directions_undefined (Examples.mainUniforms 0 (1/2))
             (Examples.sourceUniforms 0 (1/2) 0 (Vec3 0 (-1) 0) 0 1)
             N V L (Vec3 1 1 1) 1 E).
Qed.



(** ** The area light *)

Lemma vadd_zero_r (v : vec3) : vadd v (splat 0) = v.
Proof. destruct v as [x y z]. unfold vadd, splat. simpl. f_equal; ring. Qed.

Lemma mapM_app {A B : Type} (f : A -> option B) (l l' : list A) :
  Spec.mapM f (l ++ l')
  = (cs <- Spec.mapM f l ;; cs' <- Spec.mapM f l' ;; Some (cs ++ cs')).
Proof.
  induction l as [| a l IH]; simpl.
  - destruct (Spec.mapM f l'); reflexivity.
  - destruct (f a) as [b |]; simpl; [| reflexivity].
    rewrite IH. destruct (Spec.mapM f l) as [cs |]; simpl; [| reflexivity].
    destruct (Spec.mapM f l'); reflexivity.
Qed.

(** A loop that adds one contribution per index accumulates the sum of the
    contributions. *)
Lemma for_each_accumulates {J A : Type} (h : J -> A) (f : A -> option vec3)
  (body : J -> vec3 -> option vec3) (l : list J) :
  (forall j acc, body j acc = (c <- f (h j) ;; Some (vadd acc c))) ->
  forall acc,
    for_each l body acc
    = (cs <- Spec.mapM f (map h l) ;; Some (fold_left vadd cs acc)).
Proof.
  intros Hbody. induction l as [| j l IH]; intros acc; simpl.
  - reflexivity.
  - rewrite Hbody. destruct (f (h j)) as [c |]; simpl; [| reflexivity].
    rewrite IH. destruct (Spec.mapM f (map h l)); reflexivity.
Qed.

Lemma for_each_nested {I J A : Type} (h : I -> J -> A) (f : A -> option vec3)
  (body : I -> J -> vec3 -> option vec3) (l1 : list I) (l2 : list J) :
  (forall i j acc, body i j acc = (c <- f (h i j) ;; Some (vadd acc c))) ->
  forall acc,
    for_each l1 (fun i => for_each l2 (body i)) acc
    = (cs <- Spec.mapM f (flat_map (fun i => map (h i) l2) l1) ;;
       Some (fold_left vadd cs acc)).
Proof.
  intros Hbody. induction l1 as [| i l1 IH]; intros acc; simpl.
  - reflexivity.
  - rewrite (for_each_accumulates (h i) f (body i) l2 (Hbody i)).
    rewrite mapM_app.
    destruct (Spec.mapM f (map (h i) l2)) as [cs |]; simpl; [| reflexivity].
    rewrite IH.
    destruct (Spec.mapM f (flat_map (fun i0 => map (h i0) l2) l1)) as [cs' |]; simpl;
      [| reflexivity].
    rewrite fold_left_app. reflexivity.
Qed.

(** One pass of the shader's loop body adds the contribution of the
    specification's sample. *)
Lemma areaSample_contribution (u : FragmentShader.Uniforms) (P N V n t b : vec3)
  (halfSize : vec2) (ix iy : nat) (acc : vec3) :
  normalize (vneg (FragmentShader.uLightDir u)) = Some n ->
  FragmentShader.areaSample u P N V t b halfSize ix iy acc
  = (c <- Spec.sampleContribution (FragmentShader.uLightPos u) n t b halfSize P
            (fun L w => FragmentShader.evaluateBRDF u N V L (FragmentShader.radianceOf u w))
            (INR ix / 7 * 2 - 1, INR iy / 7 * 2 - 1) ;;
     Some (vadd acc c)).
Proof.
  intros Hn. unfold FragmentShader.areaSample, Spec.sampleContribution.
  replace (INR (FragmentShader.gridSize - 1)) with 7 by (simpl; lra).
  cbn [fst snd].
  destruct (vdivs _ _) as [L |]; cbn [bind]; [| reflexivity].
  rewrite Hn. cbn [bind].
  destruct (gtb (dot n (vneg L)) 0).
  - destruct (fdiv _ _) as [w |]; cbn [bind]; [| reflexivity].
    destruct (FragmentShader.evaluateBRDF _ _ _ _ _); reflexivity.
  - cbn [bind]. rewrite vadd_zero_r. reflexivity.
Qed.

Lemma grid_in_square (s : R * R) :
  In s Spec.grid -> -1 <= fst s <= 1 /\ -1 <= snd s <= 1.
Proof.
  unfold Spec.grid. rewrite in_flat_map. intros (ix & Hix & Hs).
  rewrite in_map_iff in Hs. destruct Hs as (iy & <- & Hiy).
  rewrite in_seq in Hix, Hiy. simpl.
  assert (0 <= INR ix <= 7).
  { split; [apply pos_INR |]. replace 7 with (INR 7) by (simpl; lra).
    apply le_INR. lia. }
  assert (0 <= INR iy <= 7).
  { split; [apply pos_INR |]. replace 7 with (INR 7) by (simpl; lra).
    apply le_INR. lia. }
  lra.
Qed.

(** The area branch of [computeLighting] is the ambient term plus the
    average of the specification for the emission direction [-uLightDir]:
    the shader takes [normalize(-uLightDir)] as the emitter's normal. *)
Lemma computeLighting_area (u : FragmentShader.Uniforms) (P N V : vec3) :
  FragmentShader.uLightType u <> 0%Z ->
  FragmentShader.uLightType u <> 1%Z ->
  FragmentShader.uLightType u <> 2%Z ->
  FragmentShader.computeLighting u P N V
  = (avg <- Spec.areaAverage (FragmentShader.uLightPos u)
              (vneg (FragmentShader.uLightDir u))
              (FragmentShader.uAreaSize u) P
              (fun L w => FragmentShader.evaluateBRDF u N V L
                            (FragmentShader.radianceOf u w)) ;;
     Some (vadd (vscale 0.03 (FragmentShader.uAlbedo u)) avg)).
Proof.
  intros H0 H1 H2. unfold FragmentShader.computeLighting, Spec.areaAverage.
  apply Z.eqb_neq in H0, H1, H2. rewrite H0, H1, H2.
  destruct (normalize (vneg (FragmentShader.uLightDir u))) as [n |] eqn:En;
    cbn [bind]; [| reflexivity].
  destruct (FragmentShader.basisFromDir n) as [[t b] |]; cbn [bind]; [| reflexivity].
  rewrite (for_each_nested
             (fun ix iy => (INR ix / 7 * 2 - 1, INR iy / 7 * 2 - 1))
             (Spec.sampleContribution (FragmentShader.uLightPos u) n t b
                (Vec2 (v2x (FragmentShader.uAreaSize u) * 0.5)
                      (v2y (FragmentShader.uAreaSize u) * 0.5)) P
                (fun L w => FragmentShader.evaluateBRDF u N V L
                              (FragmentShader.radianceOf u w)))).
  - change (flat_map _ (seq 0 FragmentShader.gridSize)) with Spec.grid.
    destruct (Spec.mapM _ Spec.grid) as [cs |]; cbn [bind]; [| reflexivity].
    replace (INR (FragmentShader.gridSize * FragmentShader.gridSize)) with 64
      by (simpl; lra).
    reflexivity.
  - intros ix iy acc. apply areaSample_contribution. exact En.
Qed.

Lemma pow5_lt_one (c : R) : 0 <= c < 1 -> c ^ 5 < 1.
Proof.
  intros H. pose proof (pow5_unit c ltac:(lra)) as H5.
  assert (H4 : 0 <= c ^ 4 <= 1).
  { split; [apply pow_le; lra |]. rewrite <- (pow1 4). apply pow_incr. lra. }
  change (c ^ 5) with (c * c ^ 4). nra.
Qed.

(** A dielectric that faces the light receives strictly positive radiance
    in a channel in which both its albedo and the light are positive. *)
Lemma Lo_positive (u : FragmentShaderSource.Uniforms) (N V L radiance : vec3)
  (shadow : R) :
  vadd V L <> Vec3 0 0 0 ->
  Spec.validMaterial (FragmentShaderSource.uAlbedo u) (FragmentShaderSource.uRoughness u)
                     (FragmentShaderSource.uMetallic u) ->
  FragmentShaderSource.uMetallic u < 1 ->
  0 < vx (FragmentShaderSource.uAlbedo u) ->
  0 < vx radiance ->
  0 < shadow ->
  0 < dot N L ->
  0 < dot (vadd V L) V ->
  exists v : vec3,
    FragmentShaderSource.Lo u N V L radiance shadow = Some v /\ 0 < vx v.
Proof.
  intros HVL ((Ax & Ay & Az) & Hr & Hm) Hm1 Hax Hrx Hsh HNL HHV.
  destruct (normalize_some _ HVL) as [EH Hlen].
  unfold FragmentShaderSource.Lo. rewrite EH. cbn [bind].
  set (H := vdivc (vadd V L) (length (vadd V L))).
  destruct (distributionGGX_defined N H (FragmentShaderSource.uRoughness u)) as [ED HDd].
  rewrite ED. cbn [bind].
  rewrite geometrySmith_eq by exact Hr. cbn [bind].
  rewrite fresnelSchlick_source_eq. cbn [bind].
  pose proof (Rmax_r (dot N V) 0) as Hnv.
  pose proof (Rmax_l (dot N L) 0) as Hnl.
  assert (Hden : 0 < 4 * Rmax (dot N V) 0 * Rmax (dot N L) 0 + 0.0001) by nra.
  rewrite vdivs_some by lra. cbn [bind].
  eexists. split; [reflexivity |].
  assert (HdHV : 0 < dot H V).
  { unfold H. rewrite dot_vdivc_l. unfold Rdiv.
    apply Rmult_lt_0_compat; [exact HHV | apply Rinv_0_lt_compat, Hlen]. }
  set (c := clamp (1 - Rmax (dot H V) 0) 0 1).
  assert (Hc : 0 <= c < 1).
  { pose proof (clamp_range (1 - Rmax (dot H V) 0) 0 1 ltac:(lra)) as Hcr.
    fold c in Hcr. split; [lra |].
    pose proof (Rmax_l (dot H V) 0).
    unfold c, clamp. eapply Rle_lt_trans; [apply Rmin_l |].
    unfold Rmax at 1. destruct (Rle_dec _ _); lra. }
  pose proof (pow5_lt_one c Hc) as Hp. pose proof (pow5_unit c ltac:(lra)) as Hp'.
  set (D := _ / Rmax _ 0.0001) in *.
  assert (HD : 0 <= D).
  { unfold D. apply ratio_nonneg; [| lra]. unfold FragmentShaderSource.alpha. nra. }
  pose proof (smith_nonneg _ _ _ Hnv (Rmax_r (dot N L) 0) Hr) as HG.
  set (G := Spec.smith _ _ _) in *.
  unfold FragmentShaderSource.kD, FragmentShaderSource.kS.
  unfold vscale, vmul, vadd, vdivc, vsub, splat, vmix, mix. cbn [vx vy vz].
  set (F0x := 0.04 * (1 - FragmentShaderSource.uMetallic u)
              + vx (FragmentShaderSource.uAlbedo u) * FragmentShaderSource.uMetallic u).
  assert (HF0 : 0 <= F0x < 1) by (unfold F0x; nra).
  set (Fx := F0x + c ^ 5 * (1 - F0x)).
  assert (HFx : 0 <= Fx < 1) by (unfold Fx; nra).
  apply Rmult_lt_0_compat; [exact Hsh |].
  apply Rmult_lt_0_compat; [lra |].
  apply Rmult_lt_0_compat; [| exact Hrx].
  apply Rplus_lt_le_0_compat.
  - unfold Rdiv. apply Rmult_lt_0_compat.
    + apply Rmult_lt_0_compat; [| exact Hax].
      apply Rmult_lt_0_compat; lra.
    + apply Rinv_0_lt_compat. unfold FragmentShaderSource.PI. lra.
  - apply ratio_nonneg; [| exact Hden].
    apply Rmult_le_pos; [apply Rmult_le_pos |]; lra.
Qed.

Lemma mapM_const {A B : Type} (f : A -> option B) (c : B) (l : list A) :
  (forall a, In a l -> f a = Some c) ->
  Spec.mapM f l = Some (map (fun _ => c) l).
Proof.
  intros Hf. induction l as [| a l IH]; simpl.
  - reflexivity.
  - rewrite (Hf a) by (left; reflexivity). simpl.
    rewrite IH by (intros b Hb; apply Hf; right; exact Hb). reflexivity.
Qed.

Lemma vsum_zeros {A : Type} (l : list A) (acc : vec3) :
  fold_left vadd (map (fun _ => splat 0) l) acc = acc.
Proof.
  revert acc. induction l as [| a l IH]; intros acc; simpl.
  - reflexivity.
  - rewrite IH. apply vadd_zero_r.
Qed.

Lemma dot_vneg_r (a b : vec3) : dot a (vneg b) = - dot a b.
Proof. unfold dot, vneg. simpl. ring. Qed.

Lemma dot_vneg_l (a b : vec3) : dot (vneg a) b = - dot a b.
Proof. unfold dot, vneg. simpl. ring. Qed.

(** Every sample of the rectangle lies in the emitter's plane: seen from
    [P], its direction has the same component along the normal as the
    direction of the centre. *)
Lemma sample_in_emitter_plane (lightPos n t b : vec3) (halfSize : vec2) (P : vec3)
  (s : R * R) :
  dot t n = 0 -> dot b n = 0 ->
  dot n (vsub (vadd (vadd lightPos (vscale (fst s * v2x halfSize) t))
                    (vscale (snd s * v2y halfSize) b)) P)
  = dot n (vsub lightPos P).
Proof.
  intros Ht Hb.
  replace (dot n (vsub _ P))
    with (dot n (vsub lightPos P) + fst s * v2x halfSize * dot t n
          + snd s * v2y halfSize * dot b n)
    by (unfold dot, vsub, vadd, vscale; simpl; ring).
  rewrite Ht, Hb. ring.
Qed.

(** Seen from behind or edge-on (from a point that the emission direction
    does not point to) every sample of the rectangle has [cosTheta <= 0],
    and the average is zero, whatever a sample would contribute as a point
    light. *)
Lemma areaAverage_behind_is_dark (lightPos lightDir : vec3) (areaSize : vec2) (P : vec3)
  (pointLight : vec3 -> R -> option vec3) :
  lightDir <> Vec3 0 0 0 ->
  dot lightDir (vsub P lightPos) <= 0 ->
  Spec.areaAverage lightPos lightDir areaSize P pointLight
  = Some (vdivc (splat 0) 64).
Proof.
  intros Hdir Hbehind.
  destruct (normalize_some _ Hdir) as [En Hlen].
  pose proof (normalize_unit _ _ En) as Hn1.
  set (n := vdivc lightDir (length lightDir)) in *.
  assert (HnP : 0 <= dot n (vsub lightPos P)).
  { unfold n. rewrite dot_vdivc_l.
    replace (dot lightDir (vsub lightPos P)) with (- dot lightDir (vsub P lightPos))
      by (unfold dot, vsub; simpl; ring).
    apply ratio_nonneg; lra. }
  destruct (basisFromDir_orthonormal n Hn1) as (t & b & Eb & _ & _ & Htn & Hbn & _).
  unfold Spec.areaAverage. rewrite En. cbn [bind]. rewrite Eb. cbn [bind].
  rewrite (mapM_const _ (splat 0)).
  - cbn [bind]. unfold Spec.vsum. rewrite vsum_zeros. reflexivity.
  - intros s _. unfold Spec.sampleContribution.
    pose proof (sample_in_emitter_plane lightPos n t b
                  (Vec2 (v2x areaSize * 0.5) (v2y areaSize * 0.5)) P s Htn Hbn) as Hs.
    set (lightVec := vsub (vadd _ _) P) in *.
    assert (Hd : 0.001 <= Rmax 0.001 (length lightVec)) by apply Rmax_l.
    rewrite vdivs_some by lra. cbn [bind].
    rewrite dot_vneg_r, dot_vdivc_r, Hs.
    unfold gtb. rewrite ltb_false; [reflexivity |].
    assert (0 <= dot n (vsub lightPos P) / Rmax 0.001 (length lightVec))
      by (apply ratio_nonneg; lra).
    lra.
Qed.

Lemma clamp_positive (x : R) : 0 < x -> 0 < clamp x 0 1.
Proof.
  intros H. unfold clamp, Rmin, Rmax.
  destruct (Rle_dec x 0); destruct (Rle_dec _ 1); lra.
Qed.

(** A dielectric that faces the light receives strictly positive radiance
    from [evaluateBRDF] in a channel in which both its albedo and the light
    are positive. *)
Lemma evaluateBRDF_positive (u : FragmentShader.Uniforms) (N V L radiance : vec3) :
  vadd V L <> Vec3 0 0 0 ->
  Spec.validMaterial (FragmentShader.uAlbedo u) (FragmentShader.uRoughness u)
                     (FragmentShader.uMetallic u) ->
  FragmentShader.uMetallic u < 1 ->
  0 < vx (FragmentShader.uAlbedo u) ->
  0 < vx radiance ->
  0 < dot N L ->
  0 < dot (vadd V L) V ->
  exists v : vec3,
    FragmentShader.evaluateBRDF u N V L radiance = Some v /\ 0 < vx v.
Proof.
  intros HVL ((Ax & Ay & Az) & Hr & Hm) Hm1 Hax Hrx HNL HHV.
  destruct (normalize_some _ HVL) as [EH Hlen].
  unfold FragmentShader.evaluateBRDF. rewrite EH. cbn [bind].
  set (H := vdivc (vadd V L) (length (vadd V L))).
  destruct (D_GGX_defined (clamp (dot N H) 0 1) (FragmentShader.alpha u)) as [ED HDd].
  rewrite ED. cbn [bind].
  rewrite evaluateBRDF_G_eq by exact Hr. cbn [bind].
  pose proof (clamp_range (dot V H) 0 1 ltac:(lra)) as Hvh.
  pose proof (clamp_range (dot N V) 0 1 ltac:(lra)) as Hnv.
  pose proof (clamp_range (dot N L) 0 1 ltac:(lra)) as Hnl.
  pose proof (clamp_positive _ HNL) as Hnl0.
  rewrite fresnelSchlick_eq by exact Hvh. cbn [bind].
  assert (Hden : 0.001 <= Rmax 0.001 (4 * clamp (dot N V) 0 1 * clamp (dot N L) 0 1))
    by apply Rmax_l.
  rewrite vdivs_some by lra. cbn [bind].
  eexists. split; [reflexivity |].
  assert (HdVH : 0 < dot V H).
  { unfold H. rewrite dot_vdivc_r. rewrite dot_comm. unfold Rdiv.
    apply Rmult_lt_0_compat; [exact HHV | apply Rinv_0_lt_compat, Hlen]. }
  pose proof (clamp_positive _ HdVH) as Hvh0.
  set (c := 1 - clamp (dot V H) 0 1) in *.
  assert (Hc : 0 <= c < 1) by (unfold c; lra).
  pose proof (pow5_lt_one c Hc) as Hp. pose proof (pow5_unit c ltac:(lra)) as Hp'.
  pose proof (alpha_range u Hr) as Ha.
  set (D := _ / Rmax 0.0001 _) in *.
  assert (HD : 0 <= D) by (unfold D; apply ratio_nonneg; [nra | lra]).
  assert (HG : 0 <= Spec.smith (clamp (dot N V) 0 1) (clamp (dot N L) 0 1)
                      (FragmentShader.alpha u)) by (apply smith_nonneg; lra).
  set (G := Spec.smith _ _ _) in *.
  unfold FragmentShader.kD, FragmentShader.kS.
  unfold vscale, vmul, vadd, vdivc, vsub, splat, vmix, mix. cbn [vx vy vz].
  set (F0x := 0.04 * (1 - FragmentShader.uMetallic u)
              + vx (FragmentShader.uAlbedo u) * FragmentShader.uMetallic u).
  assert (HF0 : 0 <= F0x < 1) by (unfold F0x; nra).
  set (Fx := F0x + c ^ 5 * (1 - F0x)).
  assert (HFx : 0 <= Fx < 1) by (unfold Fx; nra).
  apply Rmult_lt_0_compat; [exact Hnl0 |].
  apply Rmult_lt_0_compat; [| exact Hrx].
  apply Rplus_lt_le_0_compat.
  - unfold Rdiv. apply Rmult_lt_0_compat; [| lra].
    apply Rmult_lt_0_compat; [| exact Hax].
    apply Rmult_lt_0_compat; lra.
  - apply ratio_nonneg; [| lra].
    apply Rmult_le_pos; [apply Rmult_le_pos |]; lra.
Qed.

Lemma mapM_positive {A : Type} (f : A -> option vec3) (l : list A) :
  (forall a, In a l -> exists c, f a = Some c /\ 0 < vx c) ->
  exists cs : list vec3,
    Spec.mapM f l = Some cs /\ Forall (fun c => 0 < vx c) cs
    /\ List.length cs = List.length l.
Proof.
  intros Hf. induction l as [| a l IH]; simpl.
  - exists []. repeat split. constructor.
  - destruct (Hf a (or_introl eq_refl)) as (c & -> & Hc). cbn [bind].
    destruct IH as (cs & -> & Hcs & Hl); [intros a' Ha'; apply Hf; right; exact Ha' |].
    cbn [bind]. exists (c :: cs). repeat split.
    + constructor; assumption.
    + simpl. rewrite Hl. reflexivity.
Qed.

Lemma vsum_positive (cs : list vec3) (acc : vec3) :
  Forall (fun c => 0 < vx c) cs -> cs <> [] ->
  vx acc < vx (fold_left vadd cs acc).
Proof.
  revert acc. induction cs as [| c cs IH]; intros acc Hcs Hne; [contradiction |].
  inversion Hcs as [| ? ? Hc Hcs']; subst. simpl.
  destruct cs as [| c' cs].
  - simpl. lra.
  - eapply Rlt_trans; [| apply IH; [exact Hcs' | discriminate]].
    simpl. lra.
Qed.

(** Seen from the side that the emission direction points to, every sample
    of the rectangle has [cosTheta > 0]; when every sample then contributes
    a positive red component, so does the average. *)
Lemma areaAverage_in_front_is_lit (lightPos lightDir : vec3) (areaSize : vec2)
  (P : vec3) (pointLight : vec3 -> R -> option vec3) :
  lightDir <> Vec3 0 0 0 ->
  0 < dot lightDir (vsub P lightPos) ->
  (forall (L : vec3) (w : R),
     0 < w -> 0 < dot lightDir (vneg L) ->
     exists c : vec3, pointLight L w = Some c /\ 0 < vx c) ->
  exists z : vec3,
    Spec.areaAverage lightPos lightDir areaSize P pointLight = Some z /\ 0 < vx z.
Proof.
  intros Hdir Hfront Hpl.
  destruct (normalize_some _ Hdir) as [En Hlen].
  pose proof (normalize_unit _ _ En) as Hn1.
  set (n := vdivc lightDir (length lightDir)) in *.
  assert (HnP : dot n (vsub lightPos P) < 0).
  { unfold n. rewrite dot_vdivc_l.
    replace (dot lightDir (vsub lightPos P)) with (- dot lightDir (vsub P lightPos))
      by (unfold dot, vsub; simpl; ring).
    unfold Rdiv. assert (0 < / length lightDir) by (apply Rinv_0_lt_compat, Hlen). nra. }
  destruct (basisFromDir_orthonormal n Hn1) as (t & b & Eb & _ & _ & Htn & Hbn & _).
  unfold Spec.areaAverage. rewrite En. cbn [bind]. rewrite Eb. cbn [bind].
  destruct (mapM_positive
              (Spec.sampleContribution lightPos n t b
                 (Vec2 (v2x areaSize * 0.5) (v2y areaSize * 0.5)) P pointLight)
              Spec.grid) as (cs & -> & Hcs & Hl).
  - intros s _. unfold Spec.sampleContribution.
    pose proof (sample_in_emitter_plane lightPos n t b
                  (Vec2 (v2x areaSize * 0.5) (v2y areaSize * 0.5)) P s Htn Hbn) as Hs.
    set (lightVec := vsub (vadd _ _) P) in *.
    set (dist := Rmax 0.001 (length lightVec)).
    assert (Hd : 0.001 <= dist) by apply Rmax_l.
    rewrite vdivs_some by lra. cbn [bind].
    assert (Hcos : 0 < dot n (vneg (vdivc lightVec dist))).
    { rewrite dot_vneg_r, dot_vdivc_r, Hs. unfold Rdiv.
      assert (0 < / dist) by (apply Rinv_0_lt_compat; lra). nra. }
    unfold gtb. rewrite ltb_true by exact Hcos.
    rewrite fdiv_some by nra. cbn [bind].
    apply Hpl.
    + apply Rdiv_lt_0_compat; [exact Hcos | nra].
    + replace (dot lightDir (vneg (vdivc lightVec dist)))
        with (length lightDir * dot n (vneg (vdivc lightVec dist))).
      * apply Rmult_lt_0_compat; assumption.
      * unfold n. rewrite dot_vdivc_l. field. lra.
  - cbn [bind]. eexists. split; [reflexivity |].
    unfold vdivc. cbn [vx]. unfold Spec.vsum.
    assert (Hne : cs <> []).
    { intros ->. simpl in Hl. discriminate Hl. }
    pose proof (vsum_positive cs (splat 0) Hcs Hne) as Hsum. simpl in Hsum.
    apply Rdiv_lt_0_compat; lra.
Qed.

(** C4 in the planar-shadow renderer's shader, for a light at (0, 1, 0)
    that points straight down at a white dielectric floor point below it,
    seen from above.  The average of the specification is strictly
    positive; the shader, whose emitter normal is [normalize(-uLightDir)],
    sees every sample from behind and returns the ambient term alone. *)
Lemma area_light_dark_where_it_points :
  let u := Examples.whiteUniforms 0 (1/2) 3 in
  let P := Vec3 0 0 0 in
  let N := Examples.axisY in
  let V := Examples.axisY in
  FragmentShader.computeLighting u P N V
  = Some (vadd (vscale 0.03 (FragmentShader.uAlbedo u)) (vdivc (splat 0) 64))
  /\ exists z : vec3,
       Spec.areaAverage (FragmentShader.uLightPos u) (FragmentShader.uLightDir u)
         (FragmentShader.uAreaSize u) P
         (fun L w => FragmentShader.evaluateBRDF u N V L (FragmentShader.radianceOf u w))
       = Some z
       /\ 0 < vx z.
Proof.
  intros u P N V. split.
  - rewrite computeLighting_area by (simpl; lia).
    rewrite areaAverage_behind_is_dark; [reflexivity | |].
    + intros E. apply (f_equal vy) in E. simpl in E. lra.
    + unfold dot. simpl. lra.
  - apply areaAverage_in_front_is_lit.
    + intros E. apply (f_equal vy) in E. simpl in E. lra.
    + unfold dot. simpl. lra.
    + intros L w Hw HL.
      assert (Hy : 0 < vy L) by (unfold dot in HL; simpl in HL; lra).
      apply evaluateBRDF_positive.
      * intros E. apply (f_equal vy) in E. simpl in E. lra.
      * unfold Spec.validMaterial, Spec.unit3. simpl. lra.
      * simpl. lra.
      * simpl. lra.
      * simpl. lra.
      * unfold dot. simpl. lra.
      * unfold dot. simpl. nra.
Qed.

(** C4 in the shadow-mapped renderer's shader, which lights the fragment
    from the rectangle's centre alone.  A fragment in the
    emitter's own plane, here at the height of a light that points straight
    down, sees every sample with [cosTheta = 0], so the average over the
    grid is zero; the shader still gives it strictly positive radiance. *)
Lemma area_light_single_sample_in_source_shader :
  let u := Examples.sourceUniforms 0 1 3 (Vec3 0 (-1) 0) 0 1 in
  let P := Vec3 1 1 0 in
  let N := Vec3 (-1) 0 0 in
  let V := vsub (FragmentShaderSource.uCameraPosition u) P in
  exists v z : vec3,
    FragmentShaderSource.main_Lo u P N (Vec4 0 0 0 1) = Some v
    /\ Spec.areaAverage (FragmentShaderSource.uLightPosition u)
         (FragmentShaderSource.uLightDirection u) (FragmentShaderSource.uAreaSize u) P
         (fun L w => FragmentShaderSource.Lo u N V L
                       (vscale w (vscale (FragmentShaderSource.uLightIntensity u)
                                         (FragmentShaderSource.uLightColor u))) 1)
       = Some z
    /\ 0 < vx v /\ vx z = 0.
Proof.
  intros u P N V.
  assert (HN : normalize N = Some N)
    by (apply normalize_of_unit; unfold dot; simpl; lra).
  assert (HV1 : dot V V = 1) by (unfold dot; simpl; lra).
  assert (HV : normalize V = Some V) by (apply normalize_of_unit, HV1).
  assert (Hlen : length V = 1) by (apply length_one_iff, HV1).
  destruct (Lo_positive u N V V
              (vscale (1 * 1 / (1 * 1 + 1 * 1)) (vscale 1 (Vec3 1 1 1))) 1)
    as (v & Ev & Hv).
  - intros E. apply (f_equal vx) in E. unfold V in E. simpl in E. lra.
  - unfold Spec.validMaterial, Spec.unit3. simpl. lra.
  - simpl. lra.
  - simpl. lra.
  - simpl. lra.
  - lra.
  - unfold dot. simpl. lra.
  - unfold dot. simpl. lra.
  - exists v, (vdivc (splat 0) 64).
    split; [| split; [| split]].
    + unfold FragmentShaderSource.main_Lo. rewrite HN. cbn [bind].
      change (vsub (FragmentShaderSource.uCameraPosition u) P) with V.
      rewrite HV. cbn [bind].
      unfold FragmentShaderSource.calculateLight.
      change (FragmentShaderSource.uLightType u) with 3%Z. cbn [Z.eqb Pos.eqb].
      change (vsub (FragmentShaderSource.uLightPosition u) P) with V.
      rewrite HV, Hlen. cbn [bind].
      change (FragmentShaderSource.uAreaSize u) with (Vec2 1 1). cbn [v2x v2y].
      rewrite fdiv_some by lra. cbn [bind].
      change (FragmentShaderSource.calculateShadow u (Vec4 0 0 0 1) N V) with (Some 1).
      cbn [bind]. exact Ev.
    + apply areaAverage_behind_is_dark.
      * intros E. apply (f_equal vy) in E. simpl in E. lra.
      * unfold dot. simpl. lra.
    + exact Hv.
    + simpl. lra.
Qed.

(** C4.  In the planar-shadow renderer's shader the area light's result is
    the ambient term plus the unweighted average (the accumulated sum
    divided by 64) over the 8 x 8 grid that spans the rectangle's half-width
    by half-height extent, where a sample contributes as a point light
    weighted by [cosTheta / dist^2] and contributes nothing when
    [cosTheta <= 0]: the average of the specification, but for the emission
    direction [-uLightDir] instead of [uLightDir].  Every point that the
    light points to therefore receives no area light at all, as the floor
    point straight below a light that points down, where the average of the
    specification is strictly positive.  In the shadow-mapped renderer's
    shader the area light is a single light at the rectangle's centre with
    attenuation [area / (dist^2 + area)], [area = width * height]. *)
Theorem area_light_quadrature :
  (forall (u : FragmentShader.Uniforms) (P N V : vec3),
     FragmentShader.uLightType u <> 0%Z ->
     FragmentShader.uLightType u <> 1%Z ->
     FragmentShader.uLightType u <> 2%Z ->
     FragmentShader.computeLighting u P N V
     = (avg <- Spec.areaAverage (FragmentShader.uLightPos u)
                 (vneg (FragmentShader.uLightDir u))
                 (FragmentShader.uAreaSize u) P
                 (fun L w => FragmentShader.evaluateBRDF u N V L
                               (FragmentShader.radianceOf u w)) ;;
        Some (vadd (vscale 0.03 (FragmentShader.uAlbedo u)) avg)))
  /\ List.length Spec.grid = 64%nat
  /\ (forall s : R * R, In s Spec.grid -> -1 <= fst s <= 1 /\ -1 <= snd s <= 1)
  /\ In (-1, -1) Spec.grid /\ In (1, 1) Spec.grid
  /\ (forall (u : FragmentShader.Uniforms) (P N V : vec3),
        FragmentShader.uLightType u <> 0%Z ->
        FragmentShader.uLightType u <> 1%Z ->
        FragmentShader.uLightType u <> 2%Z ->
        FragmentShader.uLightDir u <> Vec3 0 0 0 ->
        0 <= dot (FragmentShader.uLightDir u) (vsub P (FragmentShader.uLightPos u)) ->
        FragmentShader.computeLighting u P N V
        = Some (vadd (vscale 0.03 (FragmentShader.uAlbedo u)) (vdivc (splat 0) 64)))
  /\ (let u := Examples.whiteUniforms 0 (1/2) 3 in
      FragmentShader.computeLighting u (Vec3 0 0 0) Examples.axisY Examples.axisY
      = Some (vadd (vscale 0.03 (FragmentShader.uAlbedo u)) (vdivc (splat 0) 64))
      /\ exists z : vec3,
           Spec.areaAverage (FragmentShader.uLightPos u) (FragmentShader.uLightDir u)
             (FragmentShader.uAreaSize u) (Vec3 0 0 0)
             (fun L w => FragmentShader.evaluateBRDF u Examples.axisY Examples.axisY L
                           (FragmentShader.radianceOf u w))
           = Some z
           /\ 0 < vx z)
  /\ (forall (u : FragmentShaderSource.Uniforms) (P : vec3),
        FragmentShaderSource.uLightType u <> 0%Z ->
        FragmentShaderSource.uLightType u <> 1%Z ->
        FragmentShaderSource.uLightType u <> 2%Z ->
        let lightVec := vsub (FragmentShaderSource.uLightPosition u) P in
        let area := v2x (FragmentShaderSource.uAreaSize u)
                    * v2y (FragmentShaderSource.uAreaSize u) in
        lightVec <> Vec3 0 0 0 ->
        0 <= area ->
        FragmentShaderSource.calculateLight u P
        = Some (vdivc lightVec (length lightVec),
                area / (length lightVec * length lightVec + area))).
Proof.
  split; [exact computeLighting_area |].
  split; [reflexivity |].
  split; [exact grid_in_square |].
  split; [| split; [| split; [| split]]].
  - unfold Spec.grid. apply in_flat_map. exists 0%nat.
    split; [apply in_seq; lia |].
    apply in_map_iff. exists 0%nat. split; [| apply in_seq; lia].
    simpl. f_equal; lra.
  - unfold Spec.grid. apply in_flat_map. exists 7%nat.
    split; [apply in_seq; lia |].
    apply in_map_iff. exists 7%nat. split; [| apply in_seq; lia].
    simpl. f_equal; lra.
  - intros u P N V H0 H1 H2 Hdir Hfront.
    rewrite computeLighting_area by assumption.
    rewrite areaAverage_behind_is_dark; [reflexivity | |].
    + intros E. apply Hdir. destruct (FragmentShader.uLightDir u) as [x y z].
      unfold vneg in E. simpl in E. injection E as Ex Ey Ez. f_equal; lra.
    + rewrite dot_vneg_l. lra.
  - exact area_light_dark_where_it_points.
  - intros u P H0 H1 H2 lightVec area Hlv Harea.
    unfold FragmentShaderSource.calculateLight.
    apply Z.eqb_neq in H0, H1, H2. rewrite H0, H1, H2.
    fold lightVec. destruct (normalize_some lightVec Hlv) as [EL Hlen].
    rewrite EL. cbn [bind]. fold area.
    rewrite fdiv_some by nra. reflexivity.
Qed.

(** The floor point straight below a light that points down. *)
Lemma area_light_quadrature_witness :
  FragmentShader.computeLighting (Examples.whiteUniforms 0 (1/2) 3) (Vec3 0 0 0)
    Examples.axisY Examples.axisY
  = Some (vadd (vscale 0.03 (Vec3 1 1 1)) (vdivc (splat 0) 64)).
Proof.
  apply (proj1 (proj2 (proj2 (proj2 (proj2 (proj2 area_light_quadrature)))))
           (Examples.whiteUniforms 0 (1/2) 3)); simpl; try lia.
  - intros E. apply (f_equal vy) in E. simpl in E. lra.
  - unfold dot. simpl. lra.
Defined.

(** * The code around the shading core

    Properties of the JavaScript helpers, the camera, the shadow pass, the
    ray casting and the application of the shadow-mapped renderer. *)

(** ** math.js and matrix.js: matrices *)

Ltac each_entry tac :=
  repeat (apply (f_equal2 (@cons R)); [tac |]); try reflexivity.

Lemma multiplyVec4_multiply (a b : list R) (v : vec4) :
  List.length a = 16%nat -> List.length b = 16%nat ->
  MathJs.mat4.multiplyVec4 (MathJs.mat4.multiply a b) v
  = MathJs.mat4.multiplyVec4 a (MathJs.mat4.multiplyVec4 b v).
Proof.
  intros Ha Hb.
  do 16 (destruct a as [| ? a]; [discriminate Ha |]).
  do 16 (destruct b as [| ? b]; [discriminate Hb |]).
  destruct v as [x y z w].
  unfold MathJs.mat4.multiplyVec4, MathJs.mat4.multiply. cbv [MathJs.idx nth app].
  cbn [v4x v4y v4z v4w]. f_equal; ring.
Qed.

Lemma multiply_identity_l (m : list R) :
  List.length m = 16%nat -> MathJs.mat4.multiply MathJs.mat4.identity m = m.
Proof.
  intros H. do 16 (destruct m as [| ? m]; [discriminate H |]).
  destruct m; [| discriminate H].
  unfold MathJs.mat4.multiply, MathJs.mat4.identity. cbv [MathJs.idx nth app].
  each_entry ltac:(ring).
Qed.

Lemma multiply_identity_r (m : list R) :
  List.length m = 16%nat -> MathJs.mat4.multiply m MathJs.mat4.identity = m.
Proof.
  intros H. do 16 (destruct m as [| ? m]; [discriminate H |]).
  destruct m; [| discriminate H].
  unfold MathJs.mat4.multiply, MathJs.mat4.identity. cbv [MathJs.idx nth app].
  each_entry ltac:(ring).
Qed.

(** X1.  [mat4.multiply(a, b)] is the matrix of "first [b], then [a]":
    transforming a vector by the product is transforming it by [b] and then
    by [a]; the identity matrix is neutral on both sides. *)
Theorem mat4_multiply_composes (a b : list R) (v : vec4) :
  List.length a = 16%nat -> List.length b = 16%nat ->
  List.length (MathJs.mat4.multiply a b) = 16%nat
  /\ MathJs.mat4.multiplyVec4 (MathJs.mat4.multiply a b) v
     = MathJs.mat4.multiplyVec4 a (MathJs.mat4.multiplyVec4 b v)
  /\ MathJs.mat4.multiply MathJs.mat4.identity a = a
  /\ MathJs.mat4.multiply a MathJs.mat4.identity = a.
Proof.
  intros Ha Hb. split; [reflexivity |].
  split; [apply multiplyVec4_multiply; assumption |].
  split; [apply multiply_identity_l | apply multiply_identity_r]; assumption.
Qed.

Lemma mat4_multiply_composes_witness :
  MathJs.mat4.multiplyVec4
    (MathJs.mat4.multiply (MathJs.mat4.lookAt (Vec3 0 0 3) (Vec3 0 0 0) (Vec3 0 1 0))
                          MathJs.mat4.identity)
    (Vec4 1 2 3 1)
  = MathJs.mat4.multiplyVec4 (MathJs.mat4.lookAt (Vec3 0 0 3) (Vec3 0 0 0) (Vec3 0 1 0))
      (MathJs.mat4.multiplyVec4 MathJs.mat4.identity (Vec4 1 2 3 1)).
Proof.
  apply (proj1 (proj2 (mat4_multiply_composes
                         (MathJs.mat4.lookAt (Vec3 0 0 3) (Vec3 0 0 0) (Vec3 0 1 0))
                         MathJs.mat4.identity (Vec4 1 2 3 1) eq_refl eq_refl))).
Defined.

Lemma mat4_invert_right (m : list R) :
  List.length m = 16%nat -> MathJs.mat4.det m <> 0 ->
  MathJs.mat4.multiply m (MathJs.mat4.invert m) = MathJs.mat4.identity.
Proof.
  intros H Hd. do 16 (destruct m as [| ? m]; [discriminate H |]).
  destruct m; [| discriminate H]. clear H.
  unfold MathJs.mat4.invert.
  destruct (Req_dec_T _ 0) as [E | _]; [contradiction |].
  unfold MathJs.mat4.det in *. cbv [MathJs.idx nth] in *.
  unfold MathJs.mat4.multiply, MathJs.mat4.identity. cbv [MathJs.idx nth app].
  each_entry ltac:(field; exact Hd).
Qed.

Lemma mat4_invert_left (m : list R) :
  List.length m = 16%nat -> MathJs.mat4.det m <> 0 ->
  MathJs.mat4.multiply (MathJs.mat4.invert m) m = MathJs.mat4.identity.
Proof.
  intros H Hd. do 16 (destruct m as [| ? m]; [discriminate H |]).
  destruct m; [| discriminate H]. clear H.
  unfold MathJs.mat4.invert.
  destruct (Req_dec_T _ 0) as [E | _]; [contradiction |].
  unfold MathJs.mat4.det in *. cbv [MathJs.idx nth] in *.
  unfold MathJs.mat4.multiply, MathJs.mat4.identity. cbv [MathJs.idx nth app].
  each_entry ltac:(field; exact Hd).
Qed.

Lemma mat4_identity_vec (v : vec4) : MathJs.mat4.multiplyVec4 MathJs.mat4.identity v = v.
Proof.
  destruct v as [x y z w]. unfold MathJs.mat4.multiplyVec4, MathJs.mat4.identity.
  cbv [MathJs.idx nth]. cbn [v4x v4y v4z v4w]. f_equal; ring.
Qed.

Lemma mat4_invert_length (m : list R) : List.length (MathJs.mat4.invert m) = 16%nat.
Proof.
  unfold MathJs.mat4.invert. destruct (Req_dec_T _ 0); reflexivity.
Qed.

Lemma mat4_invert_undoes (m : list R) (v : vec4) :
  List.length m = 16%nat -> MathJs.mat4.det m <> 0 ->
  MathJs.mat4.multiplyVec4 (MathJs.mat4.invert m) (MathJs.mat4.multiplyVec4 m v) = v.
Proof.
  intros H Hd.
  rewrite <- multiplyVec4_multiply by (try apply mat4_invert_length; assumption).
  rewrite mat4_invert_left by assumption. apply mat4_identity_vec.
Qed.

Lemma mat4_invert_singular (m : list R) :
  MathJs.mat4.det m = 0 -> MathJs.mat4.invert m = MathJs.mat4.identity.
Proof.
  intros H. unfold MathJs.mat4.invert. rewrite H.
  destruct (Req_dec_T 0 0); [reflexivity | contradiction].
Qed.

(** X2.  [mat4.invert] returns the inverse of every matrix whose determinant
    is not zero: the products on both sides are the identity, and it undoes
    the transformation of a vector.  For a matrix whose determinant is zero
    it returns the identity matrix instead, so that the product of the
    matrix and its "inverse" is the matrix itself. *)
Theorem mat4_invert_is_inverse (m : list R) :
  List.length m = 16%nat ->
  (MathJs.mat4.det m <> 0 ->
   MathJs.mat4.multiply m (MathJs.mat4.invert m) = MathJs.mat4.identity
   /\ MathJs.mat4.multiply (MathJs.mat4.invert m) m = MathJs.mat4.identity
   /\ forall v : vec4,
        MathJs.mat4.multiplyVec4 (MathJs.mat4.invert m) (MathJs.mat4.multiplyVec4 m v) = v)
  /\ (MathJs.mat4.det m = 0 ->
      MathJs.mat4.invert m = MathJs.mat4.identity
      /\ MathJs.mat4.multiply m (MathJs.mat4.invert m) = m).
Proof.
  intros H. split.
  - intros Hd. split; [apply mat4_invert_right; assumption |].
    split; [apply mat4_invert_left; assumption |].
    intros v. apply mat4_invert_undoes; assumption.
  - intros Hd. split; [apply mat4_invert_singular, Hd |].
    rewrite mat4_invert_singular by exact Hd.
    apply multiply_identity_r, H.
Qed.

(** The scale by 2 has an inverse; the scale by 0 along z has none. *)
Lemma mat4_invert_is_inverse_witness :
  MathJs.mat4.multiply [2;0;0;0; 0;2;0;0; 0;0;2;0; 0;0;0;1]
    (MathJs.mat4.invert [2;0;0;0; 0;2;0;0; 0;0;2;0; 0;0;0;1])
  = MathJs.mat4.identity
  /\ MathJs.mat4.invert [1;0;0;0; 0;1;0;0; 0;0;0;0; 0;0;0;1] = MathJs.mat4.identity.
Proof.
  split.
  - apply (proj1 (mat4_invert_is_inverse [2;0;0;0; 0;2;0;0; 0;0;2;0; 0;0;0;1] eq_refl)).
    unfold MathJs.mat4.det. cbv [MathJs.idx nth]. lra.
  - apply (proj2 (mat4_invert_is_inverse [1;0;0;0; 0;1;0;0; 0;0;0;0; 0;0;0;1] eq_refl)).
    unfold MathJs.mat4.det. cbv [MathJs.idx nth]. lra.
Defined.

Lemma mat3_invert_undoes (m : list R) (v : vec3) :
  List.length m = 9%nat -> MathJs.mat3.det m <> 0 ->
  VertexShader.mat3_mul_vec3 (MathJs.mat3.invert m) (VertexShader.mat3_mul_vec3 m v) = v.
Proof.
  intros H Hd. do 9 (destruct m as [| ? m]; [discriminate H |]).
  destruct m; [| discriminate H]. clear H.
  unfold MathJs.mat3.invert.
  destruct (Req_dec_T _ 0) as [E | _]; [contradiction |].
  unfold MathJs.mat3.det in *. cbv [MathJs.idx nth] in *.
  destruct v as [x y z].
  unfold VertexShader.mat3_mul_vec3. cbv [MathJs.idx nth]. cbn [vx vy vz].
  f_equal; field; exact Hd.
Qed.

(** [(transpose a) n . v = n . (a v)] *)
Lemma mat3_transpose_adjoint (a : list R) (n v : vec3) :
  dot (VertexShader.mat3_mul_vec3 (MathJs.mat3.transpose a) n) v
  = dot n (VertexShader.mat3_mul_vec3 a v).
Proof.
  destruct n as [nx ny nz], v as [x y z].
  unfold VertexShader.mat3_mul_vec3, MathJs.mat3.transpose, dot.
  cbv [MathJs.idx nth]. cbn [vx vy vz]. ring.
Qed.

Lemma mat3_fromMat4_length (m : list R) : List.length (MathJs.mat3.fromMat4 m) = 9%nat.
Proof. reflexivity. Qed.

(** X3.  The normal matrix that [render] computes,
    [mat3.transpose(mat3.invert(mat3.fromMat4(model)))]: when the upper-left
    3x3 block of the model matrix has a non-zero determinant, a normal
    transformed by the normal matrix has the same dot product with a
    transformed tangent as the normal has with the tangent, so that
    perpendicular stays perpendicular; when the determinant is zero the
    normal matrix is the identity.  For the identity model matrix, which is
    the one [render] passes, it is the identity. *)
Theorem normal_matrix_keeps_angles (model : list R) :
  let m3 := MathJs.mat3.fromMat4 model in
  let normalMatrix := MathJs.mat3.transpose (MathJs.mat3.invert m3) in
  (MathJs.mat3.det m3 <> 0 ->
   forall n v : vec3,
     dot (VertexShader.mat3_mul_vec3 normalMatrix n) (VertexShader.mat3_mul_vec3 m3 v)
     = dot n v)
  /\ (MathJs.mat3.det m3 = 0 -> normalMatrix = MathJs.mat3.identity)
  /\ MathJs.mat3.transpose (MathJs.mat3.invert (MathJs.mat3.fromMat4 MathJs.mat4.identity))
     = MathJs.mat3.identity.
Proof.
  intros m3 normalMatrix. split; [| split].
  - intros Hd n v. unfold normalMatrix.
    rewrite mat3_transpose_adjoint.
    rewrite mat3_invert_undoes; [reflexivity | apply mat3_fromMat4_length | exact Hd].
  - intros Hd. unfold normalMatrix, MathJs.mat3.invert. fold m3. rewrite Hd.
    destruct (Req_dec_T 0 0); [reflexivity | contradiction].
  - unfold MathJs.mat3.invert.
    destruct (Req_dec_T _ 0) as [E | _].
    + reflexivity.
    + unfold MathJs.mat3.det, MathJs.mat3.transpose, MathJs.mat3.fromMat4,
        MathJs.mat4.identity, MathJs.mat3.identity.
      cbv [MathJs.idx nth].
      repeat (apply (f_equal2 (@cons R)); [field |]); reflexivity.
Qed.

(** A model matrix that scales by 2, 1 and 4 along the axes. *)
Lemma normal_matrix_keeps_angles_witness :
  let m3 := MathJs.mat3.fromMat4 [2;0;0;0; 0;1;0;0; 0;0;4;0; 0;0;0;1] in
  dot (VertexShader.mat3_mul_vec3 (MathJs.mat3.transpose (MathJs.mat3.invert m3))
         (Vec3 1 0 0))
      (VertexShader.mat3_mul_vec3 m3 (Vec3 0 0 1))
  = dot (Vec3 1 0 0) (Vec3 0 0 1).
Proof.
  intros m3.
  apply (proj1 (normal_matrix_keeps_angles [2;0;0;0; 0;1;0;0; 0;0;4;0; 0;0;0;1])).
  unfold MathJs.mat3.det, MathJs.mat3.fromMat4. cbv [MathJs.idx nth]. lra.
Defined.

Ltac unroll_multiplyMatrices :=
  cbv [MatrixJs.multiplyMatrices fold_left seq repeat MatrixJs.store List.length
       Nat.ltb Nat.leb firstn skipn app Nat.add Nat.mul MathJs.idx nth].

Lemma multiplyMatrices_entries (a b : list R) :
  List.length a = 16%nat -> List.length b = 16%nat ->
  List.length (MatrixJs.multiplyMatrices a b) = 16%nat
  /\ forall row col : nat, (row < 4)%nat -> (col < 4)%nat ->
       entry (MatrixJs.multiplyMatrices a b) row col
       = entry a row 0 * entry b 0 col + entry a row 1 * entry b 1 col
         + entry a row 2 * entry b 2 col + entry a row 3 * entry b 3 col.
Proof.
  intros Ha Hb.
  do 16 (destruct a as [| ? a]; [discriminate Ha |]).
  do 16 (destruct b as [| ? b]; [discriminate Hb |]).
  destruct a; [| discriminate Ha]. destruct b; [| discriminate Hb].
  unroll_multiplyMatrices.
  split; [reflexivity |].
  intros row col Hr Hc.
  destruct row as [|[|[|[|row]]]]; try lia;
    destruct col as [|[|[|[|col]]]]; try lia;
    unfold entry; cbv [nth Nat.add Nat.mul]; ring.
Qed.

Lemma multiplyMatrices_mul_vec (a b : list R) (v : vec4) :
  List.length a = 16%nat -> List.length b = 16%nat ->
  mat4_mul_vec4 (MatrixJs.multiplyMatrices a b) v
  = mat4_mul_vec4 a (mat4_mul_vec4 b v).
Proof.
  intros Ha Hb.
  do 16 (destruct a as [| ? a]; [discriminate Ha |]).
  do 16 (destruct b as [| ? b]; [discriminate Hb |]).
  destruct a; [| discriminate Ha]. destruct b; [| discriminate Hb].
  destruct v as [x y z w].
  unroll_multiplyMatrices.
  unfold mat4_mul_vec4, entry. cbv [nth Nat.add Nat.mul]. cbn [v4x v4y v4z v4w].
  f_equal; ring.
Qed.

(** X4.  The three nested loops of [multiplyMatrices] fill all 16 entries
    of the result with the matrix product, entry (row, col) being the sum
    over [k] of [a(row, k) * b(k, col)]; a vertex shader that multiplies by
    the product applies [b] first and [a] second. *)
Theorem multiplyMatrices_is_product (a b : list R) :
  List.length a = 16%nat -> List.length b = 16%nat ->
  List.length (MatrixJs.multiplyMatrices a b) = 16%nat
  /\ (forall row col : nat, (row < 4)%nat -> (col < 4)%nat ->
        entry (MatrixJs.multiplyMatrices a b) row col
        = entry a row 0 * entry b 0 col + entry a row 1 * entry b 1 col
          + entry a row 2 * entry b 2 col + entry a row 3 * entry b 3 col)
  /\ (forall v : vec4,
        mat4_mul_vec4 (MatrixJs.multiplyMatrices a b) v
        = mat4_mul_vec4 a (mat4_mul_vec4 b v)).
Proof.
  intros Ha Hb.
  destruct (multiplyMatrices_entries a b Ha Hb) as [Hl He].
  split; [exact Hl | split; [exact He |]].
  intros v. apply multiplyMatrices_mul_vec; assumption.
Qed.

Lemma multiplyMatrices_is_product_witness :
  mat4_mul_vec4
    (MatrixJs.multiplyMatrices (MatrixJs.createTranslationMatrix 1 2 3)
                               (MatrixJs.createScaleMatrix 2 2 2))
    (Vec4 1 1 1 1)
  = mat4_mul_vec4 (MatrixJs.createTranslationMatrix 1 2 3)
      (mat4_mul_vec4 (MatrixJs.createScaleMatrix 2 2 2) (Vec4 1 1 1 1)).
Proof.
  apply (proj2 (proj2 (multiplyMatrices_is_product
                         (MatrixJs.createTranslationMatrix 1 2 3)
                         (MatrixJs.createScaleMatrix 2 2 2) eq_refl eq_refl))).
Defined.

Lemma invertMatrix_null (fround : R -> R) (m : list R) :
  MatrixJs.invertMatrix fround m = None <-> MatrixJs.det fround m = 0.
Proof.
  unfold MatrixJs.invertMatrix.
  destruct (Req_dec_T (MatrixJs.det fround m) 0) as [E | E].
  - split; auto.
  - split; [discriminate | contradiction].
Qed.

Lemma map_kept (f : R -> R) (l : list R) :
  Forall (fun c => f c = c) l -> map f l = l.
Proof.
  induction 1 as [| c l Hc _ IH]; simpl; [reflexivity |]. rewrite Hc, IH. reflexivity.
Qed.

Lemma map_agree (f g : R -> R) (l : list R) :
  Forall (fun c => f c = g c) l -> map f l = map g l.
Proof.
  induction 1 as [| c l Hc _ IH]; simpl; [reflexivity |]. rewrite Hc, IH. reflexivity.
Qed.

(** When the array keeps the cofactors and the scaled entries as they are,
    the result is the inverse. *)
Lemma invertMatrix_inverse (fround : R -> R) (m inv : list R) :
  List.length m = 16%nat ->
  Forall (fun c => fround c = c) (MatrixJs.cofactors m) ->
  Forall (fun c => fround (c * (1 / MatrixJs.det fround m))
                   = c * (1 / MatrixJs.det fround m)) (MatrixJs.cofactors m) ->
  MatrixJs.invertMatrix fround m = Some inv ->
  MatrixJs.multiplyMatrices m inv = MatrixJs.createIdentityMatrix
  /\ MatrixJs.multiplyMatrices inv m = MatrixJs.createIdentityMatrix.
Proof.
  intros H Hc Hs. unfold MatrixJs.invertMatrix.
  destruct (Req_dec_T (MatrixJs.det fround m) 0) as [E | Hd]; [discriminate |].
  intros E.
  apply (f_equal (fun o : option (list R) => match o with Some l => l | None => inv end))
    in E.
  cbv beta iota zeta in E. subst inv.
  unfold MatrixJs.inv. rewrite (map_kept fround _ Hc).
  rewrite (map_agree _ (fun x => x * (1 / MatrixJs.det fround m)) _ Hs).
  unfold MatrixJs.det, MatrixJs.inv in Hd |- *. rewrite (map_kept fround _ Hc) in Hd |- *.
  clear Hc Hs.
  do 16 (destruct m as [| ? m]; [discriminate H |]).
  destruct m; [| discriminate H]. clear H.
  unfold MatrixJs.cofactors in *. cbv [MathJs.idx nth map] in *.
  unroll_multiplyMatrices. unfold MatrixJs.createIdentityMatrix.
  split; each_entry ltac:(field; exact Hd).
Qed.

Lemma flushed_small (eps x : R) : Rabs x <= eps -> Props.flushed eps x = 0.
Proof. intros H. unfold Props.flushed. destruct (Rle_dec _ _); [reflexivity | contradiction]. Qed.

Lemma flushed_kept (eps x : R) : eps < Rabs x -> Props.flushed eps x = x.
Proof. intros H. unfold Props.flushed. destruct (Rle_dec _ _); [lra | reflexivity]. Qed.

Lemma cofactors_scale (s : R) :
  MatrixJs.cofactors (MatrixJs.createScaleMatrix s s s)
  = [ s * s; 0; 0; 0;
      0; s * s; 0; 0;
      0; 0; s * s; 0;
      0; 0; 0; s * s * s ].
Proof.
  unfold MatrixJs.cofactors, MatrixJs.createScaleMatrix. cbv [MathJs.idx nth].
  each_entry ltac:(ring).
Qed.

(** A scale so small that its cube is flushed to zero while its square is
    kept: the determinant, a double, is not zero, and the entry of the
    result that should be 1 is 0. *)
Lemma invertMatrix_underflow (eps s : R) :
  0 <= eps -> 0 < s -> s * s * s <= eps < s * s ->
  exists inv : list R,
    MatrixJs.invertMatrix (Props.flushed eps) (MatrixJs.createScaleMatrix s s s) = Some inv
    /\ MathJs.idx inv 15 = 0
    /\ MatrixJs.multiplyMatrices (MatrixJs.createScaleMatrix s s s) inv
       <> MatrixJs.createIdentityMatrix.
Proof.
  intros He Hs [Hcube Hsq].
  assert (Hs2 : 0 < s * s) by nra.
  assert (Hs3 : 0 < s * s * s) by nra.
  assert (Hinv : MatrixJs.inv (Props.flushed eps) (MatrixJs.createScaleMatrix s s s)
                 = [ s * s; 0; 0; 0;
                     0; s * s; 0; 0;
                     0; 0; s * s; 0;
                     0; 0; 0; 0 ]).
  { unfold MatrixJs.inv. rewrite cofactors_scale. cbn [map].
    rewrite !(flushed_small eps 0) by (rewrite Rabs_R0; exact He).
    rewrite !(flushed_kept eps (s * s)) by (rewrite Rabs_pos_eq; lra).
    rewrite (flushed_small eps (s * s * s)) by (rewrite Rabs_pos_eq; lra).
    reflexivity. }
  assert (Hdet : MatrixJs.det (Props.flushed eps) (MatrixJs.createScaleMatrix s s s)
                 = s * s * s).
  { unfold MatrixJs.det. rewrite Hinv. unfold MatrixJs.createScaleMatrix.
    cbv [MathJs.idx nth]. ring. }
  unfold MatrixJs.invertMatrix. rewrite Hdet, Hinv.
  destruct (Req_dec_T (s * s * s) 0) as [E | _]; [lra |].
  eexists. split; [reflexivity |].
  assert (H15 : Props.flushed eps (0 * (1 / (s * s * s))) = 0)
    by (apply flushed_small; rewrite Rmult_0_l, Rabs_R0; exact He).
  split.
  - cbv [MathJs.idx nth map]. exact H15.
  - intros E. apply (f_equal (fun l => nth 15 l 0)) in E. revert E.
    unfold MatrixJs.createScaleMatrix, MatrixJs.createIdentityMatrix. cbn [map].
    unroll_multiplyMatrices. rewrite H15. lra.
Qed.

(** X5.  [invertMatrix] returns [null] exactly when the determinant that it
    computes from the stored cofactors is zero.  When the [Float32Array]
    keeps the sixteen cofactors and the sixteen scaled entries as they are,
    every matrix it returns is the inverse of its argument, on both sides.
    When the array flushes a cofactor to zero, the determinant, a double,
    can still be non-zero: for a uniform scale [s] whose cube is flushed
    while its square is kept (for a [Float32Array], [s = 2^-50]) the result
    is not [null], its last entry is 0, and it is not an inverse. *)
Theorem invertMatrix_is_inverse :
  (forall (fround : R -> R) (m : list R),
     List.length m = 16%nat ->
     (MatrixJs.invertMatrix fround m = None <-> MatrixJs.det fround m = 0)
     /\ (Forall (fun c => fround c = c) (MatrixJs.cofactors m) ->
         Forall (fun c => fround (c * (1 / MatrixJs.det fround m))
                          = c * (1 / MatrixJs.det fround m)) (MatrixJs.cofactors m) ->
         forall inv : list R,
           MatrixJs.invertMatrix fround m = Some inv ->
           MatrixJs.multiplyMatrices m inv = MatrixJs.createIdentityMatrix
           /\ MatrixJs.multiplyMatrices inv m = MatrixJs.createIdentityMatrix))
  /\ (forall eps s : R,
        0 <= eps -> 0 < s -> s * s * s <= eps < s * s ->
        exists inv : list R,
          MatrixJs.invertMatrix (Props.flushed eps) (MatrixJs.createScaleMatrix s s s)
          = Some inv
          /\ MathJs.idx inv 15 = 0
          /\ MatrixJs.multiplyMatrices (MatrixJs.createScaleMatrix s s s) inv
             <> MatrixJs.createIdentityMatrix).
Proof.
  split.
  - intros fround m H. split; [apply invertMatrix_null |].
    intros Hc Hs inv. apply invertMatrix_inverse; assumption.
  - apply invertMatrix_underflow.
Qed.

Lemma Forall_exact (l : list R) (k : R) :
  Forall (fun c => Props.exact c = c) l
  /\ Forall (fun c => Props.exact (c * k) = c * k) l.
Proof. split; apply Forall_forall; intros c _; reflexivity. Qed.

(** The translation by (1, 2, 3), whose cofactors are small integers that
    the array keeps, has an inverse; the scale by [2^-50], whose cube
    [2^-150] the array flushes to zero, gets a result that is not one. *)
Lemma invertMatrix_is_inverse_witness :
  (exists inv : list R,
     MatrixJs.invertMatrix Props.exact (MatrixJs.createTranslationMatrix 1 2 3) = Some inv
     /\ MatrixJs.multiplyMatrices (MatrixJs.createTranslationMatrix 1 2 3) inv
        = MatrixJs.createIdentityMatrix)
  /\ (exists inv : list R,
        MatrixJs.invertMatrix (Props.flushed (/ 2 ^ 150))
          (MatrixJs.createScaleMatrix (/ 2 ^ 50) (/ 2 ^ 50) (/ 2 ^ 50)) = Some inv
        /\ MathJs.idx inv 15 = 0).
Proof.
  split.
  - destruct (proj1 invertMatrix_is_inverse Props.exact
                (MatrixJs.createTranslationMatrix 1 2 3) eq_refl) as [Hnull Hinv].
    destruct (Forall_exact (MatrixJs.cofactors (MatrixJs.createTranslationMatrix 1 2 3))
                (1 / MatrixJs.det Props.exact (MatrixJs.createTranslationMatrix 1 2 3)))
      as [Hc Hs].
    specialize (Hinv Hc Hs).
    destruct (MatrixJs.invertMatrix Props.exact (MatrixJs.createTranslationMatrix 1 2 3))
      as [inv |] eqn:E.
    + exists inv. split; [reflexivity |]. apply (Hinv inv eq_refl).
    + exfalso. pose proof (proj1 Hnull eq_refl) as D. revert D.
      unfold MatrixJs.det, MatrixJs.inv, MatrixJs.cofactors, Props.exact,
        MatrixJs.createTranslationMatrix.
      cbv [MathJs.idx nth map]. lra.
  - assert (H2 : 0 < 2) by lra.
    pose proof (pow_lt 2 50 H2) as H50. pose proof (pow_lt 2 100 H2) as H100.
    pose proof (pow_lt 2 150 H2) as H150.
    destruct (proj2 invertMatrix_is_inverse (/ 2 ^ 150) (/ 2 ^ 50)) as (inv & E & H15 & _).
    + apply Rlt_le, Rinv_0_lt_compat, H150.
    + apply Rinv_0_lt_compat, H50.
    + assert (E3 : / 2 ^ 50 * / 2 ^ 50 * / 2 ^ 50 = / 2 ^ 150).
      { rewrite <- !Rinv_mult. f_equal. rewrite <- !pow_add. reflexivity. }
      assert (E2 : / 2 ^ 50 * / 2 ^ 50 = / 2 ^ 100).
      { rewrite <- Rinv_mult. f_equal. rewrite <- pow_add. reflexivity. }
      rewrite E3, E2. split; [lra |].
      apply Rinv_lt_contravar; [apply Rmult_lt_0_compat; assumption |].
      apply Rlt_pow; [lra | lia].
    + exists inv. split; [exact E | exact H15].
Defined.

(** ** Projections *)

Lemma tan_defined_perspective (f a n fr : R) :
  tan (f / 2) <> 0 -> a <> 0 -> n <> fr ->
  MathJs.mat4.perspective f a n fr
  = Some [ 1 / tan (f / 2) / a; 0; 0; 0;
           0; 1 / tan (f / 2); 0; 0;
           0; 0; (fr + n) * (1 / (n - fr)); -1;
           0; 0; (2 * fr * n) * (1 / (n - fr)); 0 ].
Proof.
  intros Ht Ha Hn. unfold MathJs.mat4.perspective.
  rewrite (fdiv_some 1 (tan (f / 2))) by exact Ht. cbn [bind].
  rewrite (fdiv_some 1 (n - fr)) by lra. cbn [bind].
  rewrite fdiv_some by exact Ha. reflexivity.
Qed.

Lemma createPerspectiveMatrix_defined (f a n fr : R) :
  tan (f / 2) <> 0 -> a <> 0 -> n <> fr ->
  MatrixJs.createPerspectiveMatrix f a n fr
  = Some [ 1 / tan (f / 2) / a; 0; 0; 0;
           0; 1 / tan (f / 2); 0; 0;
           0; 0; (n + fr) * (1 / (n - fr)); -1;
           0; 0; n * fr * (1 / (n - fr)) * 2; 0 ].
Proof.
  intros Ht Ha Hn. unfold MatrixJs.createPerspectiveMatrix.
  rewrite (fdiv_some 1 (tan (f / 2))) by exact Ht. cbn [bind].
  rewrite (fdiv_some 1 (n - fr)) by lra. cbn [bind].
  rewrite fdiv_some by exact Ha. reflexivity.
Qed.

(** X6.  Both perspective matrices ([mat4.perspective] and
    [createPerspectiveMatrix]) are defined when [tan(fov / 2)], the aspect
    ratio and [near - far] are not zero.  They put the view-space depth
    [-z] into the clip coordinate [w], and send the near plane [z = -near]
    to clip depth [-w] and the far plane [z = -far] to clip depth [+w]. *)
Theorem perspective_depth_range (fov aspect near far x y z : R) :
  tan (fov / 2) <> 0 -> aspect <> 0 -> near <> far ->
  exists m m' : list R,
    MathJs.mat4.perspective fov aspect near far = Some m
    /\ MatrixJs.createPerspectiveMatrix fov aspect near far = Some m'
    /\ m = m'
    /\ v4w (MathJs.mat4.multiplyVec4 m (Vec4 x y z 1)) = - z
    /\ v4z (MathJs.mat4.multiplyVec4 m (Vec4 x y (- near) 1)) = - near
    /\ v4z (MathJs.mat4.multiplyVec4 m (Vec4 x y (- far) 1)) = far.
Proof.
  intros Ht Ha Hn.
  eexists. eexists.
  split; [apply tan_defined_perspective; assumption |].
  split; [apply createPerspectiveMatrix_defined; assumption |].
  split; [each_entry ltac:(ring) |].
  unfold MathJs.mat4.multiplyVec4. cbv [MathJs.idx nth]. cbn [v4x v4y v4z v4w].
  repeat split; field; lra.
Qed.

Lemma perspective_depth_range_witness :
  exists m : list R,
    MathJs.mat4.perspective (PI / 2) 1 1 3 = Some m
    /\ v4z (MathJs.mat4.multiplyVec4 m (Vec4 0 0 (- 1) 1)) = - 1.
Proof.
  destruct (perspective_depth_range (PI / 2) 1 1 3 0 0 0) as (m & m' & E & _ & _ & _ & Hn & _).
  - replace (PI / 2 / 2) with (PI / 4) by lra. rewrite tan_PI4. lra.
  - lra.
  - lra.
  - exists m. split; [exact E | exact Hn].
Defined.

(** X7.  [createOrthographicMatrix] is defined when the box has an extent
    on every axis; it sends the corner (left, bottom, -near) of the box to
    (-1, -1, -1) and the corner (right, top, -far) to (1, 1, 1), and leaves
    the [w] coordinate of every vector as it is. *)
Theorem createOrthographicMatrix_maps_box (left right bottom top near far : R)
  (v : vec4) :
  left <> right -> bottom <> top -> near <> far ->
  exists m : list R,
    MatrixJs.createOrthographicMatrix left right bottom top near far = Some m
    /\ mat4_mul_vec4 m (Vec4 left bottom (- near) 1) = Vec4 (-1) (-1) (-1) 1
    /\ mat4_mul_vec4 m (Vec4 right top (- far) 1) = Vec4 1 1 1 1
    /\ v4w (mat4_mul_vec4 m v) = v4w v.
Proof.
  intros Hx Hy Hz. unfold MatrixJs.createOrthographicMatrix.
  rewrite !fdiv_some by lra. cbn [bind].
  eexists. split; [reflexivity |].
  unfold mat4_mul_vec4, entry. cbv [nth Nat.add Nat.mul]. cbn [v4x v4y v4z v4w].
  split; [f_equal; field; lra |].
  split; [f_equal; field; lra |].
  ring.
Qed.

Lemma createOrthographicMatrix_maps_box_witness :
  exists m : list R,
    MatrixJs.createOrthographicMatrix (-5) 5 (-5) 5 0.1 20 = Some m
    /\ mat4_mul_vec4 m (Vec4 5 5 (- 20) 1) = Vec4 1 1 1 1.
Proof.
  destruct (createOrthographicMatrix_maps_box (-5) 5 (-5) 5 0.1 20 (Vec4 0 0 0 1))
    as (m & E & _ & H & _); try lra.
  exists m. split; [exact E | exact H].
Defined.

(** ** Normalisation in JavaScript and the view matrices *)

Lemma sum_squares_zero (x y z : R) : x * x + y * y + z * z = 0 -> x = 0 /\ y = 0 /\ z = 0.
Proof. intros H. repeat split; nra. Qed.

Lemma hypot_sqr (a : vec3) :
  MathJs.vec3.length a * MathJs.vec3.length a = MathJs.vec3.dot a a.
Proof.
  unfold MathJs.vec3.length, MathJs.vec3.dot. apply sqrt_sqrt. nra.
Qed.

Lemma hypot_nonneg (a : vec3) : 0 <= MathJs.vec3.length a.
Proof. apply sqrt_pos. Qed.

Lemma hypot_zero (a : vec3) : MathJs.vec3.length a = 0 -> a = Vec3 0 0 0.
Proof.
  intros H. pose proof (hypot_sqr a) as E. rewrite H in E.
  unfold MathJs.vec3.dot in E. destruct a as [x y z]. cbn [vx vy vz] in E.
  destruct (sum_squares_zero x y z) as (-> & -> & ->); [lra | reflexivity].
Qed.

(** [vec3.normalize] never divides by zero: [a] is its length times the
    result, which is a unit vector unless [a] is the zero vector. *)
Lemma vec3_normalize_spec (a : vec3) :
  let n := MathJs.vec3.normalize a in
  let l := MathJs.vec3.length a in
  vx a = l * vx n /\ vy a = l * vy n /\ vz a = l * vz n
  /\ l * MathJs.vec3.dot n n = l
  /\ (a <> Vec3 0 0 0 -> MathJs.vec3.dot n n = 1)
  /\ (a = Vec3 0 0 0 -> n = Vec3 0 0 0).
Proof.
  intros n l. unfold n, MathJs.vec3.normalize. fold l.
  destruct (Req_dec_T l 0) as [E | Hl].
  - pose proof (hypot_zero a E) as ->. rewrite E. cbn [vx vy vz].
    repeat split; try lra.
    + intros H. contradiction.
    + intros _. f_equal; field.
  - cbn [vx vy vz].
    assert (Hd : MathJs.vec3.dot (Vec3 (vx a / l) (vy a / l) (vz a / l))
                                 (Vec3 (vx a / l) (vy a / l) (vz a / l)) = 1).
    { unfold MathJs.vec3.dot. cbn [vx vy vz].
      pose proof (hypot_sqr a) as E. fold l in E. unfold MathJs.vec3.dot in E.
      replace (vx a / l * (vx a / l) + vy a / l * (vy a / l) + vz a / l * (vz a / l))
        with ((vx a * vx a + vy a * vy a + vz a * vz a) / (l * l)) by (field; exact Hl).
      rewrite <- E. field. exact Hl. }
    repeat split; try (field; exact Hl).
    + rewrite Hd. ring.
    + intros _. exact Hd.
    + intros ->. exfalso. apply Hl. unfold l, MathJs.vec3.length. cbn [vx vy vz].
      replace (0 * 0 + 0 * 0 + 0 * 0) with 0 by ring. apply sqrt_0.
Qed.

Lemma matrix_normalize_spec (a : vec3) :
  let n := MatrixJs.normalize a in
  let l := MathJs.vec3.length a in
  vx a = l * vx n /\ vy a = l * vy n /\ vz a = l * vz n
  /\ l * MatrixJs.dot n n = l
  /\ (a <> Vec3 0 0 0 -> MatrixJs.dot n n = 1)
  /\ (a = Vec3 0 0 0 -> n = Vec3 0 0 0).
Proof.
  intros n l. unfold n, MatrixJs.normalize.
  change (sqrt (vx a * vx a + vy a * vy a + vz a * vz a)) with l.
  destruct (Req_dec_T l 0) as [E | Hl].
  - pose proof (hypot_zero a E) as ->. rewrite E. cbn [vx vy vz].
    repeat split; try lra. intros H. contradiction.
  - cbn [vx vy vz].
    assert (Hd : MatrixJs.dot (Vec3 (vx a / l) (vy a / l) (vz a / l))
                              (Vec3 (vx a / l) (vy a / l) (vz a / l)) = 1).
    { unfold MatrixJs.dot. cbn [vx vy vz].
      pose proof (hypot_sqr a) as E. fold l in E. unfold MathJs.vec3.dot in E.
      replace (vx a / l * (vx a / l) + vy a / l * (vy a / l) + vz a / l * (vz a / l))
        with ((vx a * vx a + vy a * vy a + vz a * vz a) / (l * l)) by (field; exact Hl).
      rewrite <- E. field. exact Hl. }
    repeat split; try (field; exact Hl).
    + rewrite Hd. ring.
    + intros _. exact Hd.
    + intros ->. exfalso. apply Hl. unfold l, MathJs.vec3.length. cbn [vx vy vz].
      replace (0 * 0 + 0 * 0 + 0 * 0) with 0 by ring. apply sqrt_0.
Qed.

(** X8.  [vec3.normalize] of math.js is total: it returns a unit vector in
    the direction of its argument for every non-zero vector, and the zero
    vector for the zero vector, where it divides by 1 instead of by the
    length. *)
Theorem vec3_normalize_unit_or_zero (a : vec3) :
  (a <> Vec3 0 0 0 ->
   MathJs.vec3.length (MathJs.vec3.normalize a) = 1
   /\ MathJs.vec3.scale (MathJs.vec3.normalize a) (MathJs.vec3.length a) = a)
  /\ (a = Vec3 0 0 0 -> MathJs.vec3.normalize a = Vec3 0 0 0).
Proof.
  destruct (vec3_normalize_spec a) as (Hx & Hy & Hz & _ & Hu & H0).
  split; [| exact H0].
  intros Ha. split.
  - specialize (Hu Ha). unfold MathJs.vec3.length. unfold MathJs.vec3.dot in Hu.
    rewrite Hu. apply sqrt_1.
  - destruct a as [x y z]. unfold MathJs.vec3.scale. cbn [vx vy vz] in *.
    f_equal; lra.
Qed.

Lemma vec3_normalize_unit_or_zero_witness :
  MathJs.vec3.length (MathJs.vec3.normalize (Vec3 3 0 4)) = 1.
Proof.
  apply (proj1 (vec3_normalize_unit_or_zero (Vec3 3 0 4))).
  intros H. apply (f_equal vx) in H. simpl in H. lra.
Defined.

Lemma lookAt_eye_and_center_lemma (eye center up : vec3) :
  let m := MathJs.mat4.lookAt eye center up in
  MathJs.mat4.multiplyVec4 m (Vec4 (vx eye) (vy eye) (vz eye) 1) = Vec4 0 0 0 1
  /\ MathJs.mat4.multiplyVec4 m (Vec4 (vx center) (vy center) (vz center) 1)
     = Vec4 0 0 (- MathJs.vec3.length (MathJs.vec3.sub center eye)) 1.
Proof.
  intros m. unfold m, MathJs.mat4.lookAt, MathJs.mat4.multiplyVec4.
  cbv [MathJs.idx nth]. cbn [v4x v4y v4z v4w].
  destruct (vec3_normalize_spec (MathJs.vec3.sub center eye))
    as (Hx & Hy & Hz & Hl & _ & _).
  set (f := MathJs.vec3.normalize (MathJs.vec3.sub center eye)) in *.
  set (l := MathJs.vec3.length (MathJs.vec3.sub center eye)) in *.
  destruct (vec3_normalize_spec (MathJs.vec3.cross f up)) as (Gx & Gy & Gz & _ & _ & _).
  set (s := MathJs.vec3.normalize (MathJs.vec3.cross f up)) in *.
  set (g := MathJs.vec3.length (MathJs.vec3.cross f up)) in *.
  assert (Hsf : vx s * vx f + vy s * vy f + vz s * vz f = 0).
  { unfold s, MathJs.vec3.normalize. fold g.
    destruct (Req_dec_T g 0); unfold MathJs.vec3.cross; cbn [vx vy vz]; field.
    assumption. }
  clearbody s f l g.
  destruct eye as [ex ey ez], center as [cx cy cz], f as [fx fy fz], s as [sx sy sz].
  unfold MathJs.vec3.sub, MathJs.vec3.dot, MathJs.vec3.cross in *.
  cbn [vx vy vz] in *.
  split; f_equal; try ring; nsatz.
Qed.

(** X9.  The view matrix of [mat4.lookAt] sends the eye to the origin and
    the point looked at to the point at its distance from the eye on the
    negative z axis, for every choice of [eye], [center] and [up], including
    the degenerate ones. *)
Theorem lookAt_eye_and_center (eye center up : vec3) :
  let m := MathJs.mat4.lookAt eye center up in
  MathJs.mat4.multiplyVec4 m (Vec4 (vx eye) (vy eye) (vz eye) 1) = Vec4 0 0 0 1
  /\ MathJs.mat4.multiplyVec4 m (Vec4 (vx center) (vy center) (vz center) 1)
     = Vec4 0 0 (- MathJs.vec3.length (MathJs.vec3.sub center eye)) 1.
Proof. apply lookAt_eye_and_center_lemma. Qed.

(** X10.  The view matrix of [createLookAtMatrix] sends the eye to the origin
    and the point looked at to the point at its distance from the eye on
    the negative z axis, for every choice of [eye], [center] and [up]. *)
Theorem createLookAtMatrix_eye_and_center (eye center up : vec3) :
  let m := MatrixJs.createLookAtMatrix eye center up in
  mat4_mul_vec4 m (Vec4 (vx eye) (vy eye) (vz eye) 1) = Vec4 0 0 0 1
  /\ mat4_mul_vec4 m (Vec4 (vx center) (vy center) (vz center) 1)
     = Vec4 0 0 (- MathJs.vec3.length (MathJs.vec3.sub eye center)) 1.
Proof.
  intros m. unfold m, MatrixJs.createLookAtMatrix, mat4_mul_vec4, entry.
  cbv [nth Nat.add Nat.mul]. cbn [v4x v4y v4z v4w].
  change (Vec3 (vx eye - vx center) (vy eye - vy center) (vz eye - vz center))
    with (MathJs.vec3.sub eye center).
  destruct (matrix_normalize_spec (MathJs.vec3.sub eye center))
    as (Hx & Hy & Hz & Hl & _ & _).
  set (zAxis := MatrixJs.normalize (MathJs.vec3.sub eye center)) in *.
  set (l := MathJs.vec3.length (MathJs.vec3.sub eye center)) in *.
  set (xAxis := MatrixJs.normalize (MatrixJs.cross up zAxis)).
  assert (Hxz : vx xAxis * vx zAxis + vy xAxis * vy zAxis + vz xAxis * vz zAxis = 0).
  { unfold xAxis, MatrixJs.normalize.
    destruct (Req_dec_T _ 0); unfold MatrixJs.cross; cbn [vx vy vz]; [ring |].
    field. assumption. }
  clearbody xAxis zAxis l.
  destruct eye as [ex ey ez], center as [cx cy cz], zAxis as [fx fy fz],
    xAxis as [sx sy sz].
  unfold MathJs.vec3.sub, MatrixJs.dot, MatrixJs.cross in *.
  cbn [vx vy vz] in *.
  split; f_equal; try ring; nsatz.
Qed.

(** ** camera.js: the orbit camera *)

Lemma js_clamp_range (x lo hi : R) : lo <= hi -> lo <= MathJs.clamp x lo hi <= hi.
Proof.
  intros H. unfold MathJs.clamp, Rmin, Rmax.
  destruct (Rle_dec x lo); destruct (Rle_dec _ hi); lra.
Qed.

Lemma handle_keeps_range (c : Camera.camera) (e : Camera.event) :
  Props.cameraInRange c -> Props.cameraInRange (Camera.handle c e).
Proof.
  intros (Hp & Hd & Ht). unfold Props.cameraInRange.
  destruct e as [button x y | | | | x y | deltaY];
    cbn [Camera.handle Camera.set_buttons Camera.set_orbit Camera.set_distance
         Camera.pitch Camera.distance Camera.target].
  - auto.
  - auto.
  - auto.
  - auto.
  - split; [| split; assumption].
    destruct (Camera.isRotating c); [apply js_clamp_range; lra | exact Hp].
  - split; [exact Hp |]. split; [| exact Ht].
    pose proof (js_clamp_range (Camera.distance c * (1 + deltaY * 0.001)) 1.2 12.0
                  ltac:(lra)). lra.
Qed.

Lemma run_keeps_range (events : list Camera.event) (c : Camera.camera) :
  Props.cameraInRange c -> Props.cameraInRange (Camera.run c events).
Proof.
  revert c. induction events as [| e events IH]; intros c Hc.
  - exact Hc.
  - apply IH, handle_keeps_range, Hc.
Qed.

(** X11.  Whatever sequence of mouse and wheel events the camera receives
    after its construction, its pitch stays within [-1.2, 1.2], its distance
    within [1.2, 12], and its target at the origin. *)
Theorem camera_stays_in_range (events : list Camera.event) :
  let c := Camera.run Camera.constructor events in
  -1.2 <= Camera.pitch c <= 1.2
  /\ 1.2 <= Camera.distance c <= 12
  /\ Camera.target c = Vec3 0 0 0.
Proof.
  apply (run_keeps_range events Camera.constructor).
  unfold Props.cameraInRange. cbn. repeat split; lra.
Qed.

Lemma moves_without_button (moves : list (R * R)) (c : Camera.camera) :
  Camera.isRotating c = false -> Camera.isPanning c = false ->
  let c' := Camera.run c (map (fun p => Camera.mousemove (fst p) (snd p)) moves) in
  Props.sameOrbit c c' /\ Camera.isRotating c' = false /\ Camera.isPanning c' = false.
Proof.
  revert c. induction moves as [| p moves IH]; intros c Hr Hp.
  - cbn. unfold Props.sameOrbit. auto 10.
  - cbn [map Camera.run fold_left].
    set (c1 := Camera.handle c (Camera.mousemove (fst p) (snd p))).
    assert (H1 : Props.sameOrbit c c1 /\ Camera.isRotating c1 = false
                 /\ Camera.isPanning c1 = false).
    { unfold c1, Props.sameOrbit. cbn. rewrite Hr, Hp. auto 10. }
    destruct H1 as ((Hy & Hpi & Hpa & Hd) & Hr1 & Hp1).
    destruct (IH c1 Hr1 Hp1) as ((Hy' & Hpi' & Hpa' & Hd') & Hr' & Hp').
    unfold Camera.run in *. unfold Props.sameOrbit.
    repeat split; try assumption; congruence.
Qed.

(** X12.  Once a [mouseup] or [mouseleave] event has been handled, mouse
    movement alone no longer moves the camera: after any sequence of
    [mousemove] events its yaw, pitch, pan and distance are what they were. *)
Theorem camera_still_without_button (c : Camera.camera) (release : Camera.event)
  (moves : list (R * R)) :
  release = Camera.mouseup \/ release = Camera.mouseleave ->
  let c' := Camera.run (Camera.handle c release)
              (map (fun p => Camera.mousemove (fst p) (snd p)) moves) in
  Camera.yaw c' = Camera.yaw c /\ Camera.pitch c' = Camera.pitch c
  /\ Camera.pan c' = Camera.pan c /\ Camera.distance c' = Camera.distance c.
Proof.
  intros Hrel.
  assert (H : Props.sameOrbit c (Camera.handle c release)
              /\ Camera.isRotating (Camera.handle c release) = false
              /\ Camera.isPanning (Camera.handle c release) = false).
  { destruct Hrel as [-> | ->]; cbn; unfold Props.sameOrbit; auto 10. }
  destruct H as ((Hy & Hp & Hpa & Hd) & Hr & Hpn).
  destruct (moves_without_button moves _ Hr Hpn) as ((Hy' & Hp' & Hpa' & Hd') & _).
  cbv zeta. repeat split; congruence.
Qed.

Lemma camera_still_without_button_witness :
  let c := Camera.handle Camera.constructor (Camera.mousedown 0 10 10) in
  let c' := Camera.run (Camera.handle c Camera.mouseup)
              (map (fun p => Camera.mousemove (fst p) (snd p)) [(20, 30); (40, 50)]) in
  Camera.yaw c' = Camera.yaw c /\ Camera.pitch c' = Camera.pitch c
  /\ Camera.pan c' = Camera.pan c /\ Camera.distance c' = Camera.distance c.
Proof.
  intros c.
  apply (camera_still_without_button c Camera.mouseup [(20, 30); (40, 50)]).
  left. reflexivity.
Defined.

Lemma tan_fov_nonzero : tan (MathJs.degToRad 50 / 2) <> 0.
Proof.
  assert (0 < tan (MathJs.degToRad 50 / 2)); [| lra].
  unfold MathJs.degToRad, MathJs.RAD. pose proof PI_RGT_0.
  apply tan_gt_0; lra.
Qed.

Lemma orbitOffset_length (c : Camera.camera) :
  MathJs.vec3.dot (Camera.orbitOffset c) (Camera.orbitOffset c)
  = Camera.distance c * Camera.distance c.
Proof.
  unfold Camera.orbitOffset, MathJs.vec3.dot. cbn [vx vy vz].
  pose proof (sin2_cos2 (Camera.pitch c)) as Hp.
  pose proof (sin2_cos2 (Camera.yaw c)) as Hy.
  unfold Rsqr in *. nsatz.
Qed.

(** X13.  [updateMatrices] is defined for every non-zero aspect ratio.  It
    puts the camera at [distance] from the orbit centre [target + pan] (for
    a non-negative distance and the target at the origin, as they always
    are), and builds a view matrix that sends the camera position to the
    origin and the orbit centre to (0, 0, -distance). *)
Theorem updateMatrices_orbits (c : Camera.camera) (aspectRatio : R) :
  aspectRatio <> 0 ->
  Camera.target c = Vec3 0 0 0 ->
  0 <= Camera.distance c ->
  exists c' : Camera.camera,
    Camera.updateMatrices c aspectRatio = Some c'
    /\ MathJs.vec3.length (MathJs.vec3.sub (Camera.position c')
                            (MathJs.vec3.add (Camera.target c) (Camera.pan c)))
       = Camera.distance c
    /\ MathJs.mat4.multiplyVec4 (Camera.viewMatrix c')
         (Vec4 (vx (Camera.position c')) (vy (Camera.position c'))
               (vz (Camera.position c')) 1)
       = Vec4 0 0 0 1
    /\ MathJs.mat4.multiplyVec4 (Camera.viewMatrix c')
         (Vec4 (vx (Camera.pan c)) (vy (Camera.pan c)) (vz (Camera.pan c)) 1)
       = Vec4 0 0 (- Camera.distance c) 1.
Proof.
  intros Ha Ht Hd. unfold Camera.updateMatrices.
  assert (Hnf : 0.1 <> 50) by lra.
  rewrite (tan_defined_perspective _ _ _ _ tan_fov_nonzero Ha Hnf). cbn [bind].
  eexists. split; [reflexivity |].
  cbn [Camera.position Camera.viewMatrix]. rewrite Ht.
  set (position := MathJs.vec3.add (Camera.orbitOffset c) (Camera.pan c)).
  set (centre := MathJs.vec3.add (Vec3 0 0 0) (Camera.pan c)).
  assert (Hlen : MathJs.vec3.length (MathJs.vec3.sub position centre) = Camera.distance c).
  { unfold MathJs.vec3.length.
    replace (_ + _ + _) with (Camera.distance c * Camera.distance c).
    - apply sqrt_square, Hd.
    - rewrite <- orbitOffset_length.
      unfold position, centre, MathJs.vec3.sub, MathJs.vec3.add, MathJs.vec3.dot.
      cbn [vx vy vz]. ring. }
  assert (Hlen' : MathJs.vec3.length (MathJs.vec3.sub centre position) = Camera.distance c).
  { rewrite <- Hlen. unfold MathJs.vec3.length, MathJs.vec3.sub. cbn [vx vy vz].
    f_equal. ring. }
  destruct (lookAt_eye_and_center_lemma position centre (Vec3 0 1 0)) as [He Hc].
  split; [exact Hlen |]. split; [exact He |].
  rewrite Hlen' in Hc. rewrite <- Hc. f_equal.
  unfold centre, MathJs.vec3.add. cbn [vx vy vz].
  destruct (Camera.pan c) as [x y z]. cbn [vx vy vz]. f_equal; ring.
Qed.

Lemma updateMatrices_orbits_witness :
  exists c' : Camera.camera,
    Camera.updateMatrices Camera.constructor 1 = Some c'
    /\ MathJs.mat4.multiplyVec4 (Camera.viewMatrix c')
         (Vec4 (vx (Camera.pan Camera.constructor)) (vy (Camera.pan Camera.constructor))
               (vz (Camera.pan Camera.constructor)) 1)
       = Vec4 0 0 (- Camera.distance Camera.constructor) 1.
Proof.
  destruct (updateMatrices_orbits Camera.constructor 1) as (c' & E & _ & _ & H).
  - lra.
  - reflexivity.
  - cbn. lra.
  - exists c'. split; [exact E | exact H].
Defined.

Lemma multiplyVec4_scaled (m : list R) (v : vec4) (s : R) :
  MathJs.mat4.multiplyVec4 m (Vec4 (v4x v * s) (v4y v * s) (v4z v * s) (v4w v * s))
  = Vec4 (v4x (MathJs.mat4.multiplyVec4 m v) * s) (v4y (MathJs.mat4.multiplyVec4 m v) * s)
         (v4z (MathJs.mat4.multiplyVec4 m v) * s) (v4w (MathJs.mat4.multiplyVec4 m v) * s).
Proof.
  unfold MathJs.mat4.multiplyVec4. cbn [v4x v4y v4z v4w]. f_equal; ring.
Qed.

(** X14.  Unprojecting undoes projecting: for a view-projection matrix with
    a non-zero determinant and a world point whose clip coordinate [w] is
    not zero, the local function [unproject] of [screenToWorldRay], given the
    inverse matrix and the point's normalised device coordinates, returns
    the world point. *)
Theorem unproject_round_trip (viewProj : list R) (p : vec3) :
  List.length viewProj = 16%nat ->
  MathJs.mat4.det viewProj <> 0 ->
  let clip := MathJs.mat4.multiplyVec4 viewProj (Vec4 (vx p) (vy p) (vz p) 1) in
  v4w clip <> 0 ->
  Camera.unproject (MathJs.mat4.invert viewProj)
    (Vec4 (v4x clip / v4w clip) (v4y clip / v4w clip) (v4z clip / v4w clip) 1)
  = Some p.
Proof.
  intros Hl Hd clip Hw. unfold Camera.unproject.
  replace (Vec4 (v4x clip / v4w clip) (v4y clip / v4w clip) (v4z clip / v4w clip) 1)
    with (Vec4 (v4x clip * / v4w clip) (v4y clip * / v4w clip)
               (v4z clip * / v4w clip) (v4w clip * / v4w clip))
    by (f_equal; field; exact Hw).
  rewrite multiplyVec4_scaled. unfold clip.
  rewrite mat4_invert_undoes by assumption. fold clip. cbn [v4x v4y v4z v4w].
  assert (Hi : / v4w clip <> 0) by (apply Rinv_neq_0_compat, Hw).
  rewrite fdiv_some by lra. cbn [bind].
  destruct p as [x y z]. cbn [vx vy vz]. f_equal. f_equal; field; exact Hw.
Qed.

(** The scale by 2 as the view-projection matrix. *)
Lemma unproject_round_trip_witness :
  let m := [2;0;0;0; 0;2;0;0; 0;0;2;0; 0;0;0;1] in
  let clip := MathJs.mat4.multiplyVec4 m (Vec4 1 2 3 1) in
  Camera.unproject (MathJs.mat4.invert m)
    (Vec4 (v4x clip / v4w clip) (v4y clip / v4w clip) (v4z clip / v4w clip) 1)
  = Some (Vec3 1 2 3).
Proof.
  intros m.
  apply (unproject_round_trip m (Vec3 1 2 3) eq_refl).
  - unfold MathJs.mat4.det, m. cbv [MathJs.idx nth]. lra.
  - unfold MathJs.mat4.multiplyVec4, m. cbv [MathJs.idx nth]. cbn. lra.
Defined.

(** ** The planar shadow: every vertex lands on the floor *)

Lemma shadow_point (L P X : vec4) :
  let M := Renderer.buildShadowMatrix L P in
  mat4_mul_vec4 M X
  = Vec4 (Spec.dot4 P L * v4x X - Spec.dot4 P X * v4x L)
         (Spec.dot4 P L * v4y X - Spec.dot4 P X * v4y L)
         (Spec.dot4 P L * v4z X - Spec.dot4 P X * v4z L)
         (Spec.dot4 P L * v4w X - Spec.dot4 P X * v4w L).
Proof.
  destruct L as [lx ly lz lw], P as [a b c d], X as [x y z w].
  unfold mat4_mul_vec4, entry, Spec.dot4. simpl. f_equal; ring.
Qed.

(** X15.  The matrix of [buildShadowMatrix] sends every homogeneous point
    [X], on the plane or not, to the combination
    [(P.L) X - (P.X) L] of the point and the light, which is a point of the
    line through both, and that image satisfies the plane equation: the
    shadow of every vertex lies on the plane. *)
Theorem buildShadowMatrix_casts_onto_plane (L P X : vec4) :
  let S := mat4_mul_vec4 (Renderer.buildShadowMatrix L P) X in
  S = Vec4 (Spec.dot4 P L * v4x X - Spec.dot4 P X * v4x L)
           (Spec.dot4 P L * v4y X - Spec.dot4 P X * v4y L)
           (Spec.dot4 P L * v4z X - Spec.dot4 P X * v4z L)
           (Spec.dot4 P L * v4w X - Spec.dot4 P X * v4w L)
  /\ Spec.dot4 P S = 0.
Proof.
  intros S. unfold S. rewrite shadow_point. split; [reflexivity |].
  destruct L as [lx ly lz lw], P as [a b c d], X as [x y z w].
  unfold Spec.dot4. cbn [v4x v4y v4z v4w]. ring.
Qed.

(** X16.  In the shadow pass of [render] the light's homogeneous [w] is 0
    for the directional light and 1 for every other type, and the vertex
    shader, with the shadow matrix switched on, puts every vertex of the
    object at the height [FLOOR_Y + 0.01] (in homogeneous coordinates:
    [y = (FLOOR_Y + 0.01) w]), whatever the model matrix and the light. *)
Theorem shadow_pass_lands_on_floor (FLOOR_Y : R) (state : RenderPass.State)
  (uModel : list R) (aPos : vec3) :
  let worldPos :=
    VertexShader.worldPos uModel (RenderPass.shadowMatrix FLOOR_Y state) true aPos in
  v4y worldPos = (FLOOR_Y + 0.01) * v4w worldPos
  /\ v4w (RenderPass.lightHomogeneous state)
     = (if (RenderPass.lightType state =? 1)%Z then 0 else 1).
Proof.
  intros worldPos. split.
  - unfold worldPos, VertexShader.worldPos, RenderPass.shadowMatrix.
    rewrite shadow_point. cbn [v4x v4y v4z v4w].
    unfold Renderer.defaultPlane, Spec.dot4. cbn [v4x v4y v4z v4w]. ring.
  - unfold RenderPass.lightHomogeneous.
    destruct (RenderPass.lightType state =? 1)%Z; reflexivity.
Qed.

Lemma shadowRadius_bounds (FLOOR_Y : R) (state : RenderPass.State) :
  exists r : R,
    RenderPass.shadowRadius FLOOR_Y state = Some r /\ 1 < r <= 11.
Proof.
  unfold RenderPass.shadowRadius, RenderPass.objectRadius.
  pose proof (Rmax_l 0.1 (RenderPass.lightHeight FLOOR_Y state)) as Hm.
  rewrite fdiv_some by lra. cbn [bind].
  eexists. split; [reflexivity |].
  set (h := Rmax 0.1 (RenderPass.lightHeight FLOOR_Y state)) in *.
  assert (0 < 1.0 / h <= 10).
  { split.
    - apply Rdiv_lt_0_compat; lra.
    - apply (Rmult_le_reg_r h); [lra |].
      unfold Rdiv. rewrite Rmult_assoc, Rinv_l by lra. lra. }
  lra.
Qed.

(** X17.  The soft-edge radius that [render] hands to the shadow shader is
    always defined and lies in (1, 11]: the floor [max(0.1, lightHeight)]
    keeps the division away from zero, also for a light at floor height.
    The shadow shader's [smoothstep] between half the radius and the radius
    is therefore always defined. *)
Theorem shadowRadius_always_defined (FLOOR_Y uAlpha : R) (state : RenderPass.State)
  (uShadowCenter vWorldPos : vec3) :
  exists r : R,
    RenderPass.shadowRadius FLOOR_Y state = Some r
    /\ 1 < r <= 11
    /\ exists a : R, ShadowFragmentShader.main uAlpha uShadowCenter r vWorldPos = Some a.
Proof.
  destruct (shadowRadius_bounds FLOOR_Y state) as (r & E & Hr).
  exists r. split; [exact E | split; [exact Hr |]].
  unfold ShadowFragmentShader.main.
  rewrite smoothstep_some by lra. cbn [bind]. eexists. reflexivity.
Qed.

(** X18.  For a positive radius the alpha of the planar shadow is the base
    alpha up to half the radius from the shadow centre (measured in the
    xz plane), zero from the radius on, between zero and the base alpha
    everywhere (for a non-negative base alpha), and never larger for a
    fragment farther from the centre.  For a radius that is not positive the
    shader's [smoothstep] is undefined. *)
Theorem shadow_alpha_profile (uAlpha uShadowRadius : R) (uShadowCenter : vec3) :
  let dist (p : vec3) :=
    sqrt ((vx p - vx uShadowCenter) * (vx p - vx uShadowCenter)
          + (vz p - vz uShadowCenter) * (vz p - vz uShadowCenter)) in
  (0 < uShadowRadius -> 0 <= uAlpha ->
   forall p : vec3,
   exists a : R,
     ShadowFragmentShader.main uAlpha uShadowCenter uShadowRadius p = Some a
     /\ 0 <= a <= uAlpha
     /\ (dist p <= uShadowRadius * 0.5 -> a = uAlpha)
     /\ (uShadowRadius <= dist p -> a = 0)
     /\ (forall (q : vec3) (a' : R),
           dist p <= dist q ->
           ShadowFragmentShader.main uAlpha uShadowCenter uShadowRadius q = Some a' ->
           a' <= a))
  /\ (uShadowRadius <= 0 ->
      forall p : vec3,
        ShadowFragmentShader.main uAlpha uShadowCenter uShadowRadius p = None).
Proof.
  intros dist. split.
  - intros Hr Ha p. unfold ShadowFragmentShader.main.
    assert (He : uShadowRadius * 0.5 < uShadowRadius) by lra.
    destruct (smoothstep_shape _ _ (dist p) He) as (s & E & _ & Hs & H0 & H1 & Hm).
    fold (dist p). rewrite E. cbn [bind].
    eexists. split; [reflexivity |].
    split; [nra |]. split; [| split].
    + intros Hd. rewrite (H0 Hd). ring.
    + intros Hd. rewrite (H1 Hd). ring.
    + intros q a' Hpq. fold (dist q).
      destruct (smoothstep_shape _ _ (dist q) He) as (s' & E' & _ & Hs' & _).
      rewrite E'. cbn [bind]. intros Ea. injection Ea as <-.
      pose proof (Hm (dist q) s' Hpq E'). nra.
  - intros Hr p. unfold ShadowFragmentShader.main.
    rewrite smoothstep_undefined by lra. reflexivity.
Qed.

Lemma shadow_alpha_profile_witness :
  exists a : R,
    ShadowFragmentShader.main 0.5 (Vec3 0 0 0) 2 (Vec3 0 0 0) = Some a /\ 0 <= a <= 0.5.
Proof.
  destruct (proj1 (shadow_alpha_profile 0.5 2 (Vec3 0 0 0)) ltac:(lra) ltac:(lra) (Vec3 0 0 0))
    as (a & E & Ha & _).
  exists a. split; [exact E | exact Ha].
Defined.

(** ** The fragment shaders: blend, lights at the fragment, final colour *)

Lemma blend_mix (c : vec3) (b : R) :
  vmix c (vscale (1 - b) c) b = vscale (1 - b * b) c.
Proof.
  destruct c as [x y z]. unfold vmix, vscale, mix. cbn [vx vy vz]. f_equal; ring.
Qed.

(** X19.  [main] of the planar-shadow renderer's fragment shader scales the
    lit colour by [1 - uShadowBlend^2]: where the normal, the view direction
    and the lighting are defined, the output is the lit colour for a blend
    of 0 and black for a blend of 1. *)
Theorem main_shadow_blend (u : FragmentShader.Uniforms) (vWorldPos vNormal N V lit : vec3) :
  normalize vNormal = Some N ->
  normalize (vsub (FragmentShader.uCameraPos u) vWorldPos) = Some V ->
  FragmentShader.computeLighting u vWorldPos N V = Some lit ->
  let b := FragmentShader.uShadowBlend u in
  FragmentShader.main u vWorldPos vNormal = Some (vscale (1 - b * b) lit)
  /\ (b = 0 -> FragmentShader.main u vWorldPos vNormal = Some lit)
  /\ (b = 1 -> FragmentShader.main u vWorldPos vNormal = Some (Vec3 0 0 0)).
Proof.
  intros EN EV EL b.
  assert (E : FragmentShader.main u vWorldPos vNormal = Some (vscale (1 - b * b) lit)).
  { unfold FragmentShader.main. rewrite EN. cbn [bind]. rewrite EV. cbn [bind].
    rewrite EL. cbn [bind]. rewrite blend_mix. reflexivity. }
  split; [exact E |]. rewrite E.
  destruct lit as [x y z]. unfold vscale. cbn [vx vy vz].
  split; intros ->; f_equal; f_equal; ring.
Qed.

Lemma vneg_nonzero (v : vec3) : v <> Vec3 0 0 0 -> vneg v <> Vec3 0 0 0.
Proof.
  intros H E. apply H. destruct v as [x y z]. unfold vneg in E. cbn [vx vy vz] in E.
  injection E as Ex Ey Ez. f_equal; lra.
Qed.

(** X20.  In the shadow-mapped renderer's [calculateLight] the directional
    light has attenuation exactly 1 and the same direction for every
    fragment, and the point light at distance [d > 0] has the unit direction
    to the light and attenuation [1 / d^2]. *)
Theorem calculateLight_point_and_directional (u : FragmentShaderSource.Uniforms)
  (P : vec3) :
  (FragmentShaderSource.uLightType u = 1%Z ->
   FragmentShaderSource.uLightDirection u <> Vec3 0 0 0 ->
   exists L : vec3,
     dot L L = 1
     /\ forall Q : vec3, FragmentShaderSource.calculateLight u Q = Some (L, 1))
  /\ (FragmentShaderSource.uLightType u = 0%Z ->
      FragmentShaderSource.uLightPosition u <> P ->
      let d := length (vsub (FragmentShaderSource.uLightPosition u) P) in
      exists L : vec3,
        dot L L = 1 /\ 0 < d
        /\ vscale d L = vsub (FragmentShaderSource.uLightPosition u) P
        /\ FragmentShaderSource.calculateLight u P = Some (L, 1 / (d * d))).
Proof.
  split.
  - intros Ht Hd.
    destruct (normalize_some _ (vneg_nonzero _ Hd)) as [E _].
    eexists. split; [apply (normalize_unit _ _ E) |].
    intros Q. unfold FragmentShaderSource.calculateLight. rewrite Ht. cbn [Z.eqb].
    rewrite E. reflexivity.
  - intros Ht Hp d.
    assert (Hv : vsub (FragmentShaderSource.uLightPosition u) P <> Vec3 0 0 0).
    { intros E. apply Hp.
      destruct (FragmentShaderSource.uLightPosition u) as [x y z], P as [a b c].
      unfold vsub in E. cbn [vx vy vz] in E. injection E as Ex Ey Ez. f_equal; lra. }
    destruct (normalize_some _ Hv) as [E Hl]. fold d in E, Hl.
    eexists. split; [apply (normalize_unit _ _ E) |].
    split; [exact Hl |]. split.
    + destruct (vsub _ P) as [x y z]. unfold vscale, vdivc. cbn [vx vy vz].
      f_equal; field; lra.
    + unfold FragmentShaderSource.calculateLight. rewrite Ht. cbn [Z.eqb].
      rewrite E. cbn [bind]. fold d. rewrite fdiv_some by nra. reflexivity.
Qed.

Lemma calculateLight_point_and_directional_witness :
  exists L : vec3,
    dot L L = 1
    /\ forall Q : vec3,
         FragmentShaderSource.calculateLight
           (Examples.sourceUniforms 0 (1/2) 1 (Vec3 0 (-1) 0) 0 1) Q = Some (L, 1).
Proof.
  apply (proj1 (calculateLight_point_and_directional
                  (Examples.sourceUniforms 0 (1/2) 1 (Vec3 0 (-1) 0) 0 1) (Vec3 0 0 0))).
  - reflexivity.
  - intros E. apply (f_equal vy) in E. simpl in E. lra.
Defined.

Lemma vsub_self (P : vec3) : vsub P P = Vec3 0 0 0.
Proof. destruct P as [x y z]. unfold vsub. cbn [vx vy vz]. f_equal; ring. Qed.

Lemma vdivc_zero (s : R) : vdivc (Vec3 0 0 0) s = Vec3 0 0 0.
Proof. unfold vdivc. cbn [vx vy vz]. unfold Rdiv. f_equal; ring. Qed.

(** At the position of the point light the distance is its floor 0.001, the
    direction is the zero vector and the BRDF term vanishes. *)
Lemma computeLighting_at_point_light (u : FragmentShader.Uniforms) (N V : vec3) :
  FragmentShader.uLightType u = 0%Z ->
  V <> Vec3 0 0 0 ->
  Spec.validMaterial (FragmentShader.uAlbedo u) (FragmentShader.uRoughness u)
                     (FragmentShader.uMetallic u) ->
  Spec.nonneg3 (FragmentShader.uLightColor u) ->
  0 <= FragmentShader.uLightIntensity u ->
  FragmentShader.computeLighting u (FragmentShader.uLightPos u) N V
  = Some (vadd (vscale 0.03 (FragmentShader.uAlbedo u)) (vadd (splat 0) (Vec3 0 0 0))).
Proof.
  intros Ht HV Hmat Hcol Hint.
  unfold FragmentShader.computeLighting. rewrite Ht. cbn [Z.eqb].
  rewrite vsub_self.
  set (dist := Rmax 0.001 (length (Vec3 0 0 0))).
  assert (Hd : 0.001 <= dist) by apply Rmax_l.
  rewrite vdivs_some by lra. cbn [bind]. rewrite vdivc_zero.
  rewrite fdiv_some by nra. cbn [bind].
  destruct (evaluateBRDF_defined u N V (Vec3 0 0 0)
              (FragmentShader.radianceOf u (1 / (dist * dist)))) as (v & E & _ & Hz).
  - intros E. apply HV. destruct V as [x y z]. unfold vadd in E. cbn [vx vy vz] in E.
    injection E as Ex Ey Ez. f_equal; lra.
  - exact Hmat.
  - unfold FragmentShader.radianceOf. apply vscale_nonneg.
    + apply ratio_nonneg; [lra | nra].
    + apply vscale_nonneg; assumption.
  - rewrite E. cbn [bind]. rewrite Hz; [reflexivity |].
    unfold dot. cbn [vx vy vz]. lra.
Qed.

(** X21.  A fragment at the position of the point light: the planar-shadow
    renderer's [computeLighting], whose distance has the floor 0.001, is
    defined there and returns the ambient term [0.03 * uAlbedo] alone, while
    the shadow-mapped renderer's [calculateLight] normalises the zero vector
    and is undefined. *)
Theorem fragment_at_the_point_light (u : FragmentShader.Uniforms)
  (u' : FragmentShaderSource.Uniforms) (N V : vec3) :
  FragmentShader.uLightType u = 0%Z ->
  FragmentShaderSource.uLightType u' = 0%Z ->
  V <> Vec3 0 0 0 ->
  Spec.validMaterial (FragmentShader.uAlbedo u) (FragmentShader.uRoughness u)
                     (FragmentShader.uMetallic u) ->
  Spec.nonneg3 (FragmentShader.uLightColor u) ->
  0 <= FragmentShader.uLightIntensity u ->
  FragmentShader.computeLighting u (FragmentShader.uLightPos u) N V
  = Some (vscale 0.03 (FragmentShader.uAlbedo u))
  /\ FragmentShaderSource.calculateLight u' (FragmentShaderSource.uLightPosition u') = None.
Proof.
  intros Ht Ht' HV Hmat Hcol Hint. split.
  - rewrite computeLighting_at_point_light by assumption.
    f_equal. destruct (FragmentShader.uAlbedo u) as [x y z].
    unfold vadd, vscale, splat. cbn [vx vy vz]. f_equal; ring.
  - unfold FragmentShaderSource.calculateLight. rewrite Ht'. cbn [Z.eqb].
    rewrite vsub_self, normalize_zero. reflexivity.
Qed.

Lemma fragment_at_the_point_light_witness :
  FragmentShader.computeLighting (Examples.whiteUniforms 0 (1/2) 0) (Vec3 0 1 0)
    Examples.axisY Examples.axisY
  = Some (vscale 0.03 (Vec3 1 1 1)).
Proof.
  apply (proj1 (fragment_at_the_point_light (Examples.whiteUniforms 0 (1/2) 0)
                  (Examples.sourceUniforms 0 (1/2) 0 (Vec3 0 (-1) 0) 0 1)
                  Examples.axisY Examples.axisY eq_refl eq_refl
                  ltac:(intros E; apply (f_equal vy) in E; simpl in E; lra)
                  ltac:(unfold Spec.validMaterial, Spec.unit3; simpl; lra)
                  ltac:(unfold Spec.nonneg3; simpl; lra)
                  ltac:(simpl; lra))).
Defined.

(** The uniforms of a half-blended fragment at the point light, seen from
    above. *)
Lemma main_shadow_blend_witness :
  let u := {| FragmentShader.uCameraPos := Vec3 0 2 0;
              FragmentShader.uAlbedo := Vec3 1 1 1;
              FragmentShader.uMetallic := 0;
              FragmentShader.uRoughness := 1;
              FragmentShader.uLightType := 0;
              FragmentShader.uLightPos := Vec3 0 1 0;
              FragmentShader.uLightDir := Vec3 0 (-1) 0;
              FragmentShader.uLightColor := Vec3 1 1 1;
              FragmentShader.uLightIntensity := 1;
              FragmentShader.uSpotAngle := 0.7;
              FragmentShader.uSpotSoftness := 0.2;
              FragmentShader.uAreaSize := Vec2 1 1;
              FragmentShader.uShadowBlend := 1 / 2 |} in
  FragmentShader.main u (Vec3 0 1 0) (Vec3 0 1 0)
  = Some (vscale (1 - 1 / 2 * (1 / 2))
            (vadd (vscale 0.03 (Vec3 1 1 1)) (vadd (splat 0) (Vec3 0 0 0)))).
Proof.
  intros u.
  refine (proj1 (main_shadow_blend u (Vec3 0 1 0) (Vec3 0 1 0) (Vec3 0 1 0) (Vec3 0 1 0)
                   (vadd (vscale 0.03 (Vec3 1 1 1)) (vadd (splat 0) (Vec3 0 0 0)))
                   _ _ _)).
  - apply normalize_of_unit. unfold dot. simpl. lra.
  - replace (vsub (FragmentShader.uCameraPos u) (Vec3 0 1 0)) with (Vec3 0 1 0)
      by (unfold vsub; simpl; f_equal; lra).
    apply normalize_of_unit. unfold dot. simpl. lra.
  - apply (computeLighting_at_point_light u (Vec3 0 1 0) (Vec3 0 1 0) eq_refl).
    + intros E. apply (f_equal vy) in E. simpl in E. lra.
    + unfold Spec.validMaterial, Spec.unit3. simpl. lra.
    + unfold Spec.nonneg3. simpl. lra.
    + simpl. lra.
Defined.

Lemma Rpower_unit (x y : R) : 0 < x < 1 -> 0 < y -> 0 < Rpower x y < 1.
Proof.
  intros Hx Hy. unfold Rpower. split; [apply exp_pos |].
  rewrite <- exp_0. apply exp_increasing.
  assert (ln x < 0).
  { rewrite <- ln_1. apply ln_increasing; lra. }
  nra.
Qed.

Lemma powr_unit (x y : R) :
  0 <= x < 1 -> 0 < y ->
  exists r : R, FragmentColor.powr x y = Some r /\ 0 <= r < 1.
Proof.
  intros Hx Hy. unfold FragmentColor.powr.
  destruct (Rlt_dec x 0); [lra |].
  destruct (Req_dec_T x 0).
  - destruct (Rlt_dec 0 y); [| contradiction]. exists 0. split; [reflexivity | lra].
  - eexists. split; [reflexivity |].
    pose proof (Rpower_unit x y ltac:(lra) Hy). lra.
Qed.

Lemma reinhard_unit (x : R) :
  0 <= x -> exists r : R, fdiv x (x + 1) = Some r /\ 0 <= r < 1.
Proof.
  intros Hx. rewrite fdiv_some by lra. eexists. split; [reflexivity |].
  split.
  - apply ratio_nonneg; lra.
  - apply (Rmult_lt_reg_r (x + 1)); [lra |].
    unfold Rdiv. rewrite Rmult_assoc, Rinv_l by lra. lra.
Qed.

(** X22.  Tone mapping and gamma correction: for in-range material
    parameters and a non-negative [Lo], [main] of the shadow-mapped
    renderer's fragment shader outputs a colour that is defined and whose
    every component lies in [0, 1). *)
Theorem final_color_in_unit_range (u : FragmentShaderSource.Uniforms) (Lo : vec3) :
  Spec.validMaterial (FragmentShaderSource.uAlbedo u) (FragmentShaderSource.uRoughness u)
                     (FragmentShaderSource.uMetallic u) ->
  Spec.nonneg3 Lo ->
  exists c : vec3,
    FragmentColor.color u Lo = Some c
    /\ 0 <= vx c < 1 /\ 0 <= vy c < 1 /\ 0 <= vz c < 1.
Proof.
  intros (Halb & Hr & Hm) (Lx & Ly & Lz).
  pose proof (F0_unit _ _ Halb Hm) as (Fx & Fy & Fz).
  destruct Halb as (Ax & Ay & Az).
  unfold FragmentColor.color.
  set (col := vadd _ Lo).
  assert (Hc : Spec.nonneg3 col).
  { unfold vmix, splat in Fx, Fy, Fz. cbn [vx vy vz] in Fx, Fy, Fz.
    unfold col, Spec.nonneg3, vadd, vmul, vscale, splat, vmix. cbn [vx vy vz].
    repeat split; repeat apply Rplus_le_le_0_compat; try assumption;
      repeat (apply Rmult_le_pos; try lra). }
  destruct Hc as (Cx & Cy & Cz).
  destruct (reinhard_unit _ Cx) as (r & -> & Hr1). cbn [bind].
  destruct (reinhard_unit _ Cy) as (g & -> & Hg1). cbn [bind].
  destruct (reinhard_unit _ Cz) as (b & -> & Hb1). cbn [bind].
  assert (Hy : 0 < 1 / 2.2) by lra.
  destruct (powr_unit r _ Hr1 Hy) as (r' & -> & Hr'). cbn [bind].
  destruct (powr_unit g _ Hg1 Hy) as (g' & -> & Hg'). cbn [bind].
  destruct (powr_unit b _ Hb1 Hy) as (b' & -> & Hb'). cbn [bind].
  eexists. split; [reflexivity |]. cbn [vx vy vz]. auto.
Qed.

Lemma final_color_in_unit_range_witness :
  exists c : vec3,
    FragmentColor.color (Examples.sourceUniforms 0 (1/2) 0 (Vec3 0 (-1) 0) 0 1)
      (Vec3 2 0 0) = Some c
    /\ 0 <= vx c < 1 /\ 0 <= vy c < 1 /\ 0 <= vz c < 1.
Proof.
  apply (final_color_in_unit_range _ (Vec3 2 0 0)).
  - unfold Spec.validMaterial, Spec.unit3. simpl. lra.
  - unfold Spec.nonneg3. simpl. lra.
Defined.

(** ** intersection.js: ray casting *)

Lemma sphereEquation_quadratic (o d c : vec3) (r t : R) :
  Props.sphereEquation o d c r t
  = MathJs.vec3.dot d d * t * t
    + 2 * MathJs.vec3.dot d (MathJs.vec3.sub o c) * t
    + (MathJs.vec3.dot (MathJs.vec3.sub o c) (MathJs.vec3.sub o c) - r * r).
Proof.
  destruct o, d, c. unfold Props.sphereEquation, MathJs.vec3.dot, MathJs.vec3.sub,
    MathJs.vec3.add, MathJs.vec3.scale. cbn [vx vy vz]. ring.
Qed.

Lemma intersectSphere_hit (o d c : vec3) (r : R) (h : Intersection.hit) :
  Intersection.intersectSphere o d c r = Some (Some h) ->
  exists t : R,
    0 <= t
    /\ Intersection.point h = MathJs.vec3.add o (MathJs.vec3.scale d t)
    /\ Props.sphereEquation o d c r t = 0
    /\ (forall t' : R, Props.sphereEquation o d c r t' = 0 -> t <= t')
    /\ Intersection.normal h
       = MathJs.vec3.normalize (MathJs.vec3.sub (Intersection.point h) c).
Proof.
  unfold Intersection.intersectSphere.
  set (oc := MathJs.vec3.sub o c).
  set (a := MathJs.vec3.dot d d).
  set (b := 2 * MathJs.vec3.dot d oc).
  set (k := MathJs.vec3.dot oc oc - r * r).
  set (disc := b * b - 4 * a * k).
  destruct (ltb_spec disc 0) as [[-> _] | [-> Hdisc]]; [discriminate |].
  unfold fdiv. destruct (Req_dec_T (2 * a) 0) as [| Ha]; [discriminate |].
  cbn [bind].
  set (t := (- b - sqrt disc) / (2 * a)).
  destruct (ltb_spec t 0) as [[-> _] | [-> Ht]]; [discriminate |].
  intros E. injection E as <-. cbn [Intersection.point Intersection.normal].
  exists t.
  assert (Hs : sqrt disc * sqrt disc = disc) by (apply sqrt_sqrt; lra).
  pose proof (sqrt_pos disc) as Hs0.
  assert (Ha0 : 0 < a).
  { assert (0 <= a) by (unfold a, MathJs.vec3.dot; nra). lra. }
  assert (H2at : 2 * a * t = - b - sqrt disc) by (unfold t; field; lra).
  split; [lra |]. split; [reflexivity |]. split; [| split; [| reflexivity]].
  - rewrite sphereEquation_quadratic. fold oc a. fold b. fold k.
    assert (E4 : 4 * a * (a * t * t + 2 * MathJs.vec3.dot d oc * t + k) = 0).
    { fold b. unfold disc in Hs. nsatz. }
    apply Rmult_integral in E4. destruct E4 as [E4 | E4]; [lra | exact E4].
  - intros t'. rewrite sphereEquation_quadratic. fold oc a. fold b. fold k.
    intros E'.
    assert (Hq : (2 * a * t' + b) * (2 * a * t' + b) = disc).
    { unfold disc. fold b in E'. nsatz. }
    assert (- sqrt disc <= 2 * a * t' + b).
    { destruct (Rle_dec (- sqrt disc) (2 * a * t' + b)) as [| Hn]; [assumption |].
      exfalso. nra. }
    assert (2 * a * t <= 2 * a * t') by lra.
    nra.
Qed.

Lemma intersectSphere_miss (o d c : vec3) (r : R) :
  let oc := MathJs.vec3.sub o c in
  let disc := (2 * MathJs.vec3.dot d oc) * (2 * MathJs.vec3.dot d oc)
              - 4 * MathJs.vec3.dot d d
                * (MathJs.vec3.dot oc oc - r * r) in
  disc < 0 ->
  Intersection.intersectSphere o d c r = Some None
  /\ forall t : R, Props.sphereEquation o d c r t <> 0.
Proof.
  intros oc disc Hd. split.
  - unfold Intersection.intersectSphere. fold oc. fold disc.
    rewrite ltb_true by exact Hd. reflexivity.
  - intros t. rewrite sphereEquation_quadratic. fold oc. intros E.
    set (a := MathJs.vec3.dot d d) in *.
    set (b := MathJs.vec3.dot d oc) in *.
    set (k := MathJs.vec3.dot oc oc - r * r) in *.
    assert (Hq : (2 * a * t + 2 * b) * (2 * a * t + 2 * b) = disc).
    { unfold disc. nsatz. }
    pose proof (Rle_0_sqr (2 * a * t + 2 * b)) as Hsq. unfold Rsqr in Hsq.
    rewrite Hq in Hsq. clearbody disc. lra.
Qed.

Lemma intersectSphere_inside (o d c : vec3) (r : R) :
  d <> Vec3 0 0 0 ->
  Props.sphereEquation o d c r 0 < 0 ->
  Intersection.intersectSphere o d c r = Some None.
Proof.
  intros Hd Hin. rewrite sphereEquation_quadratic in Hin.
  unfold Intersection.intersectSphere.
  set (oc := MathJs.vec3.sub o c) in *.
  set (a := MathJs.vec3.dot d d) in *.
  set (b := 2 * MathJs.vec3.dot d oc).
  set (k := MathJs.vec3.dot oc oc - r * r) in *.
  set (disc := b * b - 4 * a * k).
  assert (Ha : 0 < a).
  { unfold a, MathJs.vec3.dot. destruct d as [x y z]. cbn [vx vy vz].
    destruct (Req_dec_T x 0) as [-> |]; [| nra].
    destruct (Req_dec_T y 0) as [-> |]; [| nra].
    destruct (Req_dec_T z 0) as [-> |]; [| nra].
    contradiction. }
  assert (Hk : k < 0) by lra.
  assert (Hdisc : b * b < disc) by (unfold disc; nra).
  rewrite ltb_false by nra.
  rewrite fdiv_some by lra. cbn [bind].
  assert (Hs : sqrt disc * sqrt disc = disc) by (apply sqrt_sqrt; nra).
  pose proof (sqrt_pos disc) as Hs0.
  assert (Hbs : - b - sqrt disc < 0).
  { destruct (Rlt_dec (- b - sqrt disc) 0) as [| Hn]; [assumption |]. exfalso. nra. }
  rewrite ltb_true; [reflexivity |].
  unfold Rdiv. assert (0 < / (2 * a)) by (apply Rinv_0_lt_compat; lra). nra.
Qed.

Lemma intersectSphere_from_outside (o d c : vec3) (r t' : R) :
  0 < Props.sphereEquation o d c r 0 ->
  0 <= t' ->
  Props.sphereEquation o d c r t' = 0 ->
  exists h : Intersection.hit, Intersection.intersectSphere o d c r = Some (Some h).
Proof.
  rewrite !sphereEquation_quadratic.
  unfold Intersection.intersectSphere.
  set (oc := MathJs.vec3.sub o c).
  set (a := MathJs.vec3.dot d d).
  set (b := 2 * MathJs.vec3.dot d oc).
  set (k := MathJs.vec3.dot oc oc - r * r).
  set (disc := b * b - 4 * a * k).
  intros Hk Ht' E.
  replace (a * t' * t' + 2 * MathJs.vec3.dot d oc * t' + k)
    with (a * t' * t' + b * t' + k) in E by (unfold b; ring).
  assert (Hk' : 0 < k) by lra.
  assert (Ha0 : 0 <= a) by (unfold a, MathJs.vec3.dot; nra).
  assert (Hbt : b * t' < 0) by nra.
  assert (Hb : b < 0) by nra.
  assert (Ha : 0 < a).
  { destruct (Req_dec_T a 0) as [Ea |]; [| lra]. exfalso.
    unfold a, MathJs.vec3.dot in Ea.
    destruct (sum_squares_zero _ _ _ Ea) as (Ex & Ey & Ez).
    unfold b, MathJs.vec3.dot in Hb. rewrite Ex, Ey, Ez in Hb. lra. }
  assert (Hq : (2 * a * t' + b) * (2 * a * t' + b) = disc) by (unfold disc; nsatz).
  assert (Hdisc : 0 <= disc).
  { rewrite <- Hq. pose proof (Rle_0_sqr (2 * a * t' + b)) as H. exact H. }
  rewrite ltb_false by exact Hdisc.
  rewrite fdiv_some by lra. cbn [bind].
  assert (Hs : sqrt disc * sqrt disc = disc) by (apply sqrt_sqrt; exact Hdisc).
  pose proof (sqrt_pos disc) as Hs0.
  assert (Hlt : disc < b * b) by (unfold disc; nra).
  assert (Hnum : 0 < - b - sqrt disc).
  { destruct (Rlt_dec 0 (- b - sqrt disc)) as [| Hn]; [assumption |]. exfalso. nra. }
  rewrite ltb_false.
  - eexists. reflexivity.
  - apply Rlt_le, Rdiv_lt_0_compat; lra.
Qed.

Lemma intersectSphere_no_direction (o c : vec3) (r : R) :
  Intersection.intersectSphere o (Vec3 0 0 0) c r = None.
Proof.
  unfold Intersection.intersectSphere, MathJs.vec3.dot. cbn [vx vy vz].
  rewrite ltb_false by lra.
  replace (2 * (0 * 0 + 0 * 0 + 0 * 0)) with 0 by ring.
  rewrite fdiv_zero. reflexivity.
Qed.

(** X23.  For a ray whose direction is not the zero vector, a hit reported
    by [intersectSphere] is the first point at which the ray's line meets
    the sphere: it lies on the ray at a parameter [t >= 0], on the sphere,
    no point of the line on the sphere has a smaller parameter, and the
    normal is the normalised vector from the centre to the hit.  For the
    zero direction the parameter is 0/0, for every origin, centre and
    radius: JavaScript then returns a hit whose coordinates are NaN. *)
Theorem intersectSphere_hit_is_first_on_sphere (o d c : vec3) (r : R)
  (h : Intersection.hit) :
  (d <> Vec3 0 0 0 ->
   Intersection.intersectSphere o d c r = Some (Some h) ->
   exists t : R,
     0 <= t
     /\ Intersection.point h = MathJs.vec3.add o (MathJs.vec3.scale d t)
     /\ MathJs.vec3.dot (MathJs.vec3.sub (Intersection.point h) c)
                        (MathJs.vec3.sub (Intersection.point h) c) = r * r
     /\ (forall t' : R, Props.sphereEquation o d c r t' = 0 -> t <= t')
     /\ Intersection.normal h
        = MathJs.vec3.normalize (MathJs.vec3.sub (Intersection.point h) c))
  /\ Intersection.intersectSphere o (Vec3 0 0 0) c r = None.
Proof.
  split; [| apply intersectSphere_no_direction].
  intros _ E.
  destruct (intersectSphere_hit o d c r h E) as (t & Ht & Hp & Heq & Hmin & Hn).
  exists t. repeat split; try assumption.
  rewrite Hp. unfold Props.sphereEquation in Heq. lra.
Qed.

(** The ray from (0, 0, 3) down the z axis meets the unit sphere. *)
Lemma intersectSphere_hit_is_first_on_sphere_witness :
  exists (h : Intersection.hit) (t : R),
    Intersection.intersectSphere (Vec3 0 0 3) (Vec3 0 0 (-1)) (Vec3 0 0 0) 1 = Some (Some h)
    /\ 0 <= t
    /\ Intersection.point h
       = MathJs.vec3.add (Vec3 0 0 3) (MathJs.vec3.scale (Vec3 0 0 (-1)) t)
    /\ MathJs.vec3.dot (MathJs.vec3.sub (Intersection.point h) (Vec3 0 0 0))
                       (MathJs.vec3.sub (Intersection.point h) (Vec3 0 0 0)) = 1 * 1.
Proof.
  destruct (intersectSphere_from_outside (Vec3 0 0 3) (Vec3 0 0 (-1)) (Vec3 0 0 0) 1 2)
    as [h E].
  - unfold Props.sphereEquation, MathJs.vec3.dot, MathJs.vec3.sub, MathJs.vec3.add,
      MathJs.vec3.scale. simpl. lra.
  - lra.
  - unfold Props.sphereEquation, MathJs.vec3.dot, MathJs.vec3.sub, MathJs.vec3.add,
      MathJs.vec3.scale. simpl. lra.
  - destruct (proj1 (intersectSphere_hit_is_first_on_sphere
                       (Vec3 0 0 3) (Vec3 0 0 (-1)) (Vec3 0 0 0) 1 h))
      as (t & Ht & Hp & Hs & _).
    + intros D. apply (f_equal vz) in D. simpl in D. lra.
    + exact E.
    + exists h, t. repeat split; assumption.
Defined.

(** X24.  [intersectSphere] reports a hit for every ray that starts
    strictly outside the sphere and whose half-line meets the sphere: if the
    point of the ray at some parameter [t' >= 0] is on the sphere, the result
    is not [null]. *)
Theorem intersectSphere_finds_hit_from_outside (o d c : vec3) (r t' : R) :
  r * r < MathJs.vec3.dot (MathJs.vec3.sub o c) (MathJs.vec3.sub o c) ->
  0 <= t' ->
  Props.sphereEquation o d c r t' = 0 ->
  exists h : Intersection.hit, Intersection.intersectSphere o d c r = Some (Some h).
Proof.
  intros Hout Ht' E. apply (intersectSphere_from_outside o d c r t'); try assumption.
  rewrite sphereEquation_quadratic. lra.
Qed.

Lemma intersectSphere_finds_hit_from_outside_witness :
  exists h : Intersection.hit,
    Intersection.intersectSphere (Vec3 0 0 3) (Vec3 0 0 (-1)) (Vec3 0 0 0) 1 = Some (Some h).
Proof.
  apply (intersectSphere_finds_hit_from_outside
           (Vec3 0 0 3) (Vec3 0 0 (-1)) (Vec3 0 0 0) 1 2).
  - unfold MathJs.vec3.dot, MathJs.vec3.sub. simpl. lra.
  - lra.
  - unfold Props.sphereEquation, MathJs.vec3.dot, MathJs.vec3.sub, MathJs.vec3.add,
      MathJs.vec3.scale. simpl. lra.
Defined.

(** X25.  [intersectSphere] returns [null] when the discriminant is
    negative, and then no point of the ray's line is on the sphere; it also
    returns [null] for every ray that starts strictly inside the sphere,
    because only the nearer of the two intersections is tried and that one
    lies behind the origin. *)
Theorem intersectSphere_null_cases (o d c : vec3) (r : R) :
  let oc := MathJs.vec3.sub o c in
  let disc := (2 * MathJs.vec3.dot d oc) * (2 * MathJs.vec3.dot d oc)
              - 4 * MathJs.vec3.dot d d
                * (MathJs.vec3.dot oc oc - r * r) in
  (disc < 0 ->
   Intersection.intersectSphere o d c r = Some None
   /\ forall t : R, Props.sphereEquation o d c r t <> 0)
  /\ (d <> Vec3 0 0 0 ->
      MathJs.vec3.dot oc oc < r * r ->
      Intersection.intersectSphere o d c r = Some None).
Proof.
  intros oc disc. split.
  - apply intersectSphere_miss.
  - intros Hd Hin. apply intersectSphere_inside; [exact Hd |].
    rewrite sphereEquation_quadratic. fold oc. lra.
Qed.

(** A ray that passes the unit sphere at height 5, and one that starts at
    its centre. *)
Lemma intersectSphere_null_cases_witness :
  Intersection.intersectSphere (Vec3 0 5 3) (Vec3 0 0 (-1)) (Vec3 0 0 0) 1 = Some None
  /\ Intersection.intersectSphere (Vec3 0 0 0) (Vec3 0 0 (-1)) (Vec3 0 0 0) 1 = Some None.
Proof.
  split.
  - apply (proj1 (intersectSphere_null_cases (Vec3 0 5 3) (Vec3 0 0 (-1)) (Vec3 0 0 0) 1)).
    unfold MathJs.vec3.dot, MathJs.vec3.sub. simpl. lra.
  - apply (proj2 (intersectSphere_null_cases (Vec3 0 0 0) (Vec3 0 0 (-1)) (Vec3 0 0 0) 1)).
    + intros E. apply (f_equal vz) in E. simpl in E. lra.
    + unfold MathJs.vec3.dot, MathJs.vec3.sub. simpl. lra.
Defined.

Lemma gtb_spec (x y : R) : (gtb x y = true /\ y < x) \/ (gtb x y = false /\ x <= y).
Proof. unfold gtb. destruct (ltb_spec y x) as [[-> H] | [-> H]]; [left | right]; auto. Qed.

(** One slab: between the sorted parameters the ray is between the two
    planes. *)
Lemma slab (o d c hs t0 t1 tn tf : R) :
  0 <= hs ->
  fdiv (c - hs - o) d = Some t0 ->
  fdiv (c + hs - o) d = Some t1 ->
  Intersection.swapIfGreater t0 t1 = (tn, tf) ->
  tn <= tf
  /\ forall t : R, tn <= t <= tf -> - hs <= o + d * t - c <= hs.
Proof.
  intros Hh. unfold fdiv. destruct (Req_dec_T d 0) as [| Hd]; [discriminate |].
  intros E0 E1. injection E0 as <-. injection E1 as <-.
  assert (H0 : d * ((c - hs - o) / d) = c - hs - o) by (field; exact Hd).
  assert (H1 : d * ((c + hs - o) / d) = c + hs - o) by (field; exact Hd).
  set (t0 := (c - hs - o) / d) in *. set (t1 := (c + hs - o) / d) in *.
  unfold Intersection.swapIfGreater.
  destruct (gtb_spec t0 t1) as [[-> Hg] | [-> Hg]]; intros E; injection E as <- <-.
  - split; [lra |]. intros t Ht.
    assert (d < 0) by nra. nra.
  - split; [lra |]. intros t Ht.
    destruct (Rlt_dec d 0) as [Hneg | Hpos].
    + assert (t0 = t1) by nra. nra.
    + assert (0 < d) by lra. nra.
Qed.

(** X26.  A hit reported by [intersectCube] for a cube of non-negative
    half-size and a ray whose direction has no zero component (so that the
    divisions of the slab method are finite) lies on the ray at a parameter
    [t >= 0] and inside the cube: in every coordinate it is at most the
    half-size away from the centre. *)
Theorem intersectCube_hit_in_cube (o d c : vec3) (hs : R) (h : Intersection.hit) :
  0 <= hs ->
  Intersection.intersectCube o d c hs = Some (Some h) ->
  exists t : R,
    0 <= t
    /\ Intersection.point h = MathJs.vec3.add o (MathJs.vec3.scale d t)
    /\ Rabs (vx (Intersection.point h) - vx c) <= hs
    /\ Rabs (vy (Intersection.point h) - vy c) <= hs
    /\ Rabs (vz (Intersection.point h) - vz c) <= hs.
Proof.
  intros Hh. unfold Intersection.intersectCube. cbv zeta.
  unfold MathJs.vec3.sub, MathJs.vec3.add, MathJs.vec3.scale. cbn [vx vy vz].
  destruct (fdiv (vx c - hs - vx o) (vx d)) as [tx0 |] eqn:Ex0; [| discriminate].
  cbn [bind].
  destruct (fdiv (vx c + hs - vx o) (vx d)) as [tx1 |] eqn:Ex1; [| discriminate].
  cbn [bind].
  destruct (Intersection.swapIfGreater tx0 tx1) as [txn txf] eqn:Sx.
  destruct (fdiv (vy c - hs - vy o) (vy d)) as [ty0 |] eqn:Ey0; [| discriminate].
  cbn [bind].
  destruct (fdiv (vy c + hs - vy o) (vy d)) as [ty1 |] eqn:Ey1; [| discriminate].
  cbn [bind].
  destruct (Intersection.swapIfGreater ty0 ty1) as [tyn tyf] eqn:Sy.
  destruct (slab _ _ _ _ _ _ _ _ Hh Ex0 Ex1 Sx) as [Hx Hxin].
  destruct (slab _ _ _ _ _ _ _ _ Hh Ey0 Ey1 Sy) as [Hy Hyin].
  destruct (gtb_spec txn tyf) as [[-> _] | [-> C1]]; [discriminate |].
  destruct (gtb_spec tyn txf) as [[-> _] | [-> C2]]; [discriminate |].
  cbn [orb].
  set (tmin := if gtb tyn txn then tyn else txn).
  set (tmax := if ltb tyf txf then tyf else txf).
  assert (Hmin : txn <= tmin /\ tyn <= tmin /\ tmin <= tmax
                 /\ tmax <= txf /\ tmax <= tyf).
  { unfold tmin, tmax.
    destruct (gtb_spec tyn txn) as [[-> ?] | [-> ?]];
      destruct (ltb_spec tyf txf) as [[-> ?] | [-> ?]]; lra. }
  clearbody tmin tmax.
  destruct (fdiv (vz c - hs - vz o) (vz d)) as [tz0 |] eqn:Ez0; [| discriminate].
  cbn [bind].
  destruct (fdiv (vz c + hs - vz o) (vz d)) as [tz1 |] eqn:Ez1; [| discriminate].
  cbn [bind].
  destruct (Intersection.swapIfGreater tz0 tz1) as [tzn tzf] eqn:Sz.
  destruct (slab _ _ _ _ _ _ _ _ Hh Ez0 Ez1 Sz) as [Hz Hzin].
  destruct (gtb_spec tmin tzf) as [[-> _] | [-> C3]]; [discriminate |].
  destruct (gtb_spec tzn tmax) as [[-> _] | [-> C4]]; [discriminate |].
  cbn [orb].
  set (t := if gtb tzn tmin then tzn else tmin).
  assert (Ht : tmin <= t /\ tzn <= t /\ t <= tmax /\ t <= tzf).
  { unfold t. destruct (gtb_spec tzn tmin) as [[-> ?] | [-> ?]]; lra. }
  clearbody t.
  destruct (ltb_spec t 0) as [[-> _] | [-> Ht0]]; [discriminate |].
  intros E. injection E as <-. cbn [Intersection.point].
  exists t. split; [lra |]. split; [reflexivity |].
  cbn [vx vy vz].
  pose proof (Hxin t ltac:(lra)). pose proof (Hyin t ltac:(lra)).
  pose proof (Hzin t ltac:(lra)).
  repeat split; apply Rabs_le; lra.
Qed.

Ltac decide_comparisons :=
  unfold Intersection.swapIfGreater, gtb;
  repeat match goal with
         | |- context [ltb ?x ?y] =>
             first [ rewrite (ltb_true x y) by lra | rewrite (ltb_false x y) by lra ]
         end;
  cbv beta iota zeta.

(** The ray from (3, 3, 3) along the diagonal meets the cube of half-size 1
    around the origin. *)
Lemma intersectCube_diagonal :
  exists h : Intersection.hit,
    Intersection.intersectCube (Vec3 3 3 3) (Vec3 (-1) (-1) (-1)) (Vec3 0 0 0) 1
    = Some (Some h).
Proof.
  unfold Intersection.intersectCube. cbv zeta.
  unfold MathJs.vec3.sub, MathJs.vec3.add, MathJs.vec3.scale. cbn [vx vy vz].
  rewrite !fdiv_some by lra. cbn [bind].
  replace ((0 - 1 - 3) / -1) with 4 by lra.
  replace ((0 + 1 - 3) / -1) with 2 by lra.
  decide_comparisons. cbn [orb]. decide_comparisons. cbn [orb].
  decide_comparisons.
  eexists. reflexivity.
Qed.

Lemma intersectCube_hit_in_cube_witness :
  exists (h : Intersection.hit) (t : R),
    Intersection.intersectCube (Vec3 3 3 3) (Vec3 (-1) (-1) (-1)) (Vec3 0 0 0) 1
    = Some (Some h)
    /\ 0 <= t
    /\ Intersection.point h
       = MathJs.vec3.add (Vec3 3 3 3) (MathJs.vec3.scale (Vec3 (-1) (-1) (-1)) t)
    /\ Rabs (vx (Intersection.point h) - vx (Vec3 0 0 0)) <= 1.
Proof.
  destruct intersectCube_diagonal as [h E].
  destruct (intersectCube_hit_in_cube _ _ _ 1 h ltac:(lra) E) as (t & Ht & Hp & Hx & _).
  exists h, t. repeat split; assumption.
Defined.

Lemma inside_slab (o d c hs t0 t1 tn tf : R) :
  Rabs (o - c) < hs ->
  fdiv (c - hs - o) d = Some t0 ->
  fdiv (c + hs - o) d = Some t1 ->
  Intersection.swapIfGreater t0 t1 = (tn, tf) ->
  tn < 0 < tf.
Proof.
  intros Hin. unfold fdiv. destruct (Req_dec_T d 0) as [| Hd]; [discriminate |].
  intros E0 E1. injection E0 as <-. injection E1 as <-.
  apply Rabs_def2 in Hin.
  assert (H0 : d * ((c - hs - o) / d) = c - hs - o) by (field; exact Hd).
  assert (H1 : d * ((c + hs - o) / d) = c + hs - o) by (field; exact Hd).
  set (t0 := (c - hs - o) / d) in *. set (t1 := (c + hs - o) / d) in *.
  unfold Intersection.swapIfGreater.
  destruct (gtb_spec t0 t1) as [[-> Hg] | [-> Hg]]; intros E; injection E as <- <-.
  - destruct (Rlt_dec d 0); [nra |]. assert (0 < d) by lra. nra.
  - destruct (Rlt_dec d 0); [| assert (0 < d) by lra; nra]. nra.
Qed.

(** X27.  [intersectCube] returns [null] for every ray that starts strictly
    inside the cube (and whose direction has no zero component, so that the
    three divisions are finite): the entry parameter of the slabs is
    negative there, and the exit parameter is not tried. *)
Theorem intersectCube_null_from_inside (o d c : vec3) (hs : R) :
  vx d <> 0 -> vy d <> 0 -> vz d <> 0 ->
  Rabs (vx o - vx c) < hs -> Rabs (vy o - vy c) < hs -> Rabs (vz o - vz c) < hs ->
  Intersection.intersectCube o d c hs = Some None.
Proof.
  intros Hdx Hdy Hdz Hx Hy Hz. unfold Intersection.intersectCube. cbv zeta.
  unfold MathJs.vec3.sub, MathJs.vec3.add, MathJs.vec3.scale. cbn [vx vy vz].
  destruct (fdiv (vx c - hs - vx o) (vx d)) as [tx0 |] eqn:Ex0;
    [| rewrite fdiv_some in Ex0 by exact Hdx; discriminate].
  cbn [bind].
  destruct (fdiv (vx c + hs - vx o) (vx d)) as [tx1 |] eqn:Ex1;
    [| rewrite fdiv_some in Ex1 by exact Hdx; discriminate].
  cbn [bind].
  destruct (Intersection.swapIfGreater tx0 tx1) as [txn txf] eqn:Sx.
  destruct (fdiv (vy c - hs - vy o) (vy d)) as [ty0 |] eqn:Ey0;
    [| rewrite fdiv_some in Ey0 by exact Hdy; discriminate].
  cbn [bind].
  destruct (fdiv (vy c + hs - vy o) (vy d)) as [ty1 |] eqn:Ey1;
    [| rewrite fdiv_some in Ey1 by exact Hdy; discriminate].
  cbn [bind].
  destruct (Intersection.swapIfGreater ty0 ty1) as [tyn tyf] eqn:Sy.
  pose proof (inside_slab _ _ _ _ _ _ _ _ Hx Ex0 Ex1 Sx) as Ix.
  pose proof (inside_slab _ _ _ _ _ _ _ _ Hy Ey0 Ey1 Sy) as Iy.
  destruct (gtb_spec txn tyf) as [[-> C1] | [-> C1]]; [lra |].
  destruct (gtb_spec tyn txf) as [[-> C2] | [-> C2]]; [lra |].
  cbn [orb].
  set (tmin := if gtb tyn txn then tyn else txn).
  set (tmax := if ltb tyf txf then tyf else txf).
  assert (Hmin : tmin < 0 < tmax).
  { unfold tmin, tmax. destruct (gtb tyn txn); destruct (ltb tyf txf); lra. }
  clearbody tmin tmax.
  destruct (fdiv (vz c - hs - vz o) (vz d)) as [tz0 |] eqn:Ez0;
    [| rewrite fdiv_some in Ez0 by exact Hdz; discriminate].
  cbn [bind].
  destruct (fdiv (vz c + hs - vz o) (vz d)) as [tz1 |] eqn:Ez1;
    [| rewrite fdiv_some in Ez1 by exact Hdz; discriminate].
  cbn [bind].
  destruct (Intersection.swapIfGreater tz0 tz1) as [tzn tzf] eqn:Sz.
  pose proof (inside_slab _ _ _ _ _ _ _ _ Hz Ez0 Ez1 Sz) as Iz.
  destruct (gtb_spec tmin tzf) as [[-> C3] | [-> C3]]; [lra |].
  destruct (gtb_spec tzn tmax) as [[-> C4] | [-> C4]]; [lra |].
  cbn [orb].
  set (t := if gtb tzn tmin then tzn else tmin).
  assert (Ht : t < 0) by (unfold t; destruct (gtb tzn tmin); lra).
  clearbody t.
  rewrite ltb_true by exact Ht. reflexivity.
Qed.

(** A ray from the centre of the cube of half-size 1. *)
Lemma intersectCube_null_from_inside_witness :
  Intersection.intersectCube (Vec3 0 0 0) (Vec3 1 1 1) (Vec3 0 0 0) 1 = Some None.
Proof.
  apply intersectCube_null_from_inside; simpl;
    try lra; replace (0 - 0) with 0 by lra; rewrite Rabs_R0; lra.
Defined.

(** ** The application of the shadow-mapped renderer *)

(** A matrix whose last row is (0, 0, 0, 1) keeps the [w] of a vector. *)
Lemma affine_keeps_w (m : list R) (v : vec4) :
  entry m 3 0 = 0 -> entry m 3 1 = 0 -> entry m 3 2 = 0 -> entry m 3 3 = 1 ->
  v4w (mat4_mul_vec4 m v) = v4w v.
Proof.
  intros H0 H1 H2 H3. unfold mat4_mul_vec4. cbn [v4w].
  rewrite H0, H1, H2, H3. ring.
Qed.

Lemma rotations_keep_w (rx ry : R) (v : vec4) :
  v4w (mat4_mul_vec4 (CookTorranceApp.modelMatrix rx ry) v) = v4w v.
Proof.
  unfold CookTorranceApp.modelMatrix.
  rewrite multiplyMatrices_mul_vec by reflexivity.
  rewrite !affine_keeps_w; reflexivity.
Qed.

(** X28.  The light-space matrix of [getLightSpaceMatrix] is defined for
    every light position, and the vertex shader's [vLightSpacePos] has
    [w = 1] for every vertex and every rotation of the object: the
    perspective divide of [calculateShadow] never divides by zero, and the
    projected coordinates are half the light-space coordinates plus a half. *)
Theorem light_space_divide_is_defined (lp aPosition : vec3) (rotationX rotationY : R) :
  exists M : list R,
    CookTorranceApp.getLightSpaceMatrix lp = Some M
    /\ let v := VertexShaderSource.vLightSpacePos
                  (CookTorranceApp.modelMatrix rotationX rotationY) M aPosition in
       v4w v = 1
       /\ FragmentShaderSource.projCoords v
          = Some (Vec3 (0.5 * (v4x v / 1) + 0.5) (0.5 * (v4y v / 1) + 0.5)
                       (0.5 * (v4z v / 1) + 0.5)).
Proof.
  unfold CookTorranceApp.getLightSpaceMatrix, MatrixJs.createOrthographicMatrix.
  rewrite !fdiv_some by lra. cbn [bind].
  eexists. split; [reflexivity |].
  set (M := MatrixJs.multiplyMatrices _ _).
  set (v := VertexShaderSource.vLightSpacePos _ M aPosition).
  assert (Hw : v4w v = 1).
  { unfold v, VertexShaderSource.vLightSpacePos, M.
    rewrite multiplyMatrices_mul_vec by reflexivity.
    rewrite affine_keeps_w by (unfold entry; cbv [nth Nat.add Nat.mul]; reflexivity).
    rewrite affine_keeps_w by (unfold entry; cbv [nth Nat.add Nat.mul]; reflexivity).
    rewrite rotations_keep_w. reflexivity. }
  cbv zeta. split; [exact Hw |].
  unfold FragmentShaderSource.projCoords. rewrite Hw.
  rewrite vdivs_some by lra. reflexivity.
Qed.

(** X29.  [getRotatedLightPosition] applies the rotation about the y axis
    first and the rotation about the x axis second, with the matrices of
    [createRotationYMatrix] and [createRotationXMatrix]; the rotated light
    is as far from the origin as the base position. *)
Theorem getRotatedLightPosition_is_rotation (base : vec3) (rotationX rotationY : R) :
  let p := CookTorranceApp.getRotatedLightPosition base rotationX rotationY in
  mat4_mul_vec4 (MatrixJs.createRotationXMatrix rotationX)
    (mat4_mul_vec4 (MatrixJs.createRotationYMatrix rotationY)
       (Vec4 (vx base) (vy base) (vz base) 1))
  = Vec4 (vx p) (vy p) (vz p) 1
  /\ dot p p = dot base base.
Proof.
  intros p. unfold p, CookTorranceApp.getRotatedLightPosition.
  destruct base as [x y z]. cbn [vx vy vz]. split.
  - unfold mat4_mul_vec4, entry, MatrixJs.createRotationXMatrix,
      MatrixJs.createRotationYMatrix.
    cbv [nth Nat.add Nat.mul]. cbn [v4x v4y v4z v4w]. f_equal; ring.
  - unfold dot. cbn [vx vy vz].
    pose proof (sin2_cos2 rotationX) as Hx. pose proof (sin2_cos2 rotationY) as Hy.
    unfold Rsqr in *. nsatz.
Qed.

Lemma modelMatrix_entries (rx ry : R) :
  CookTorranceApp.modelMatrix rx ry
  = [ cos ry; 0; - sin ry; 0;
      sin ry * sin rx; cos rx; cos ry * sin rx; 0;
      sin ry * cos rx; - sin rx; cos ry * cos rx; 0;
      0; 0; 0; 1 ].
Proof.
  unfold CookTorranceApp.modelMatrix, MatrixJs.createRotationXMatrix,
    MatrixJs.createRotationYMatrix.
  unroll_multiplyMatrices. each_entry ltac:(ring).
Qed.

(** X30.  The model matrix of the object, the product of the two rotation
    matrices, has determinant 1 for every pair of angles, so [invertMatrix]
    never returns [null] for it, and the normal matrix that [render] derives
    from it, the transpose of its inverse, is the model matrix itself; the
    entries of the [Float32Array], all of absolute value at most 1 here, are
    taken as exact. *)
Theorem modelMatrix_normal_matrix (rotationX rotationY : R) :
  MatrixJs.det Props.exact (CookTorranceApp.modelMatrix rotationX rotationY) = 1
  /\ exists inverseModel : list R,
       MatrixJs.invertMatrix Props.exact (CookTorranceApp.modelMatrix rotationX rotationY)
       = Some inverseModel
       /\ MatrixJs.transposeMatrix inverseModel
          = CookTorranceApp.modelMatrix rotationX rotationY.
Proof.
  pose proof (sin2_cos2 rotationX) as Hx. pose proof (sin2_cos2 rotationY) as Hy.
  unfold Rsqr in *.
  rewrite modelMatrix_entries.
  set (cx := cos rotationX) in *. set (sx := sin rotationX) in *.
  set (cy := cos rotationY) in *. set (sy := sin rotationY) in *.
  assert (Hdet : MatrixJs.det Props.exact
                   [cy; 0; - sy; 0; sy * sx; cx; cy * sx; 0;
                    sy * cx; - sx; cy * cx; 0; 0; 0; 0; 1] = 1).
  { unfold MatrixJs.det, MatrixJs.inv, MatrixJs.cofactors, Props.exact.
    cbv [MathJs.idx nth map]. nsatz. }
  split; [exact Hdet |].
  unfold MatrixJs.invertMatrix. rewrite Hdet.
  destruct (Req_dec_T 1 0) as [| _]; [lra |].
  eexists. split; [reflexivity |].
  unfold MatrixJs.transposeMatrix, MatrixJs.inv, MatrixJs.cofactors, Props.exact.
  cbv [MathJs.idx nth map].
  replace (1 / 1) with 1 by field.
  each_entry ltac:(nsatz).
Qed.
